(** * Tag and ability aggregation pipeline

    A shallow embedding of the tag pipeline of the grading backend:
    - [api/data/[action].js]: [touchAssignmentTagStates] and the POST branch
      of [handleSync]; the conflict rules of the sync, [applyDeletes] and
      [buildUpsertRows] with the reads and conversions they use;
    - [api/admin/[action].js]: the issue extractor, [finalizeAssignmentTagState],
      [touchDictionaryMergeState], [mergeDictionaryForOwner],
      [processDictionaryMergeQueue], [refreshDomainTagAggregates],
      [refreshAbilityAggregates], [aggregateAssignmentTags], the due filter of
      [handleAggregateTags], the [override] and [unlock] intents of
      [handleTags], and the cache of answer keys.

    Conventions.
    - A JavaScript string is the list of its UTF-16 code units.
    - A timestamp is its number of milliseconds since the epoch; a nullable
      column is an [option].
    - The database is a record of tables (lists of rows).  Every call of the
      database client is named by a [DbCall]; a run is given the error, if
      any, that each call answers with.
    - [JS Map]s and [Set]s whose iteration order reaches an output are
      association lists and duplicate-free lists in insertion order; the
      others are [gmap]s and [gset]s. *)

From Stdlib Require Import ZArith QArith Qround Lia Ascii String.
From stdpp Require Import base option list gmap sorting.

Local Close Scope Q_scope.
Local Open Scope Z_scope.

(** ** JavaScript strings *)

Abbreviation jsstring := (list N).

(** Code units of an ASCII literal. *)
Definition js (s : string) : jsstring :=
  (fun c => N_of_ascii c) <$> list_ascii_of_string s.

(** The class [\s] of ECMAScript regular expressions (WhiteSpace and
    LineTerminator), which is also what [String.prototype.trim] strips. *)
Definition isWhiteSpace (c : N) : bool :=
  ((9 <=? c) && (c <=? 13) || (c =? 32) || (c =? 160) || (c =? 5760)
   || (8192 <=? c) && (c <=? 8202) || (c =? 8232) || (c =? 8233)
   || (c =? 8239) || (c =? 8287) || (c =? 12288) || (c =? 65279))%N.

Fixpoint trimStart (s : jsstring) : jsstring :=
  match s with
  | [] => []
  | c :: r => if isWhiteSpace c then trimStart r else s
  end.

Definition trim (s : jsstring) : jsstring :=
  reverse (trimStart (reverse (trimStart s))).

(** [s.replace(/\s+/g, '')] *)
Definition removeWhiteSpace (s : jsstring) : jsstring :=
  List.filter (fun c => negb (isWhiteSpace c)) s.

(** [s.replace(/\s+/g, ' ')]: every maximal run of white space becomes one
    space. [inRun] tells that the previous code unit was white space. *)
Fixpoint collapseWhiteSpace (inRun : bool) (s : jsstring) : jsstring :=
  match s with
  | [] => []
  | c :: r =>
      if isWhiteSpace c
      then (if inRun then collapseWhiteSpace true r
            else 32%N :: collapseWhiteSpace true r)
      else c :: collapseWhiteSpace false r
  end.

Definition isEmpty (s : jsstring) : bool :=
  match s with [] => true | _ => false end.

(** [a || b] on strings: the first one unless it is empty. *)
Definition orElse (a b : jsstring) : jsstring :=
  if isEmpty a then b else a.

(** [normalizeIssueText] *)
Definition normalizeIssueText (text : jsstring) : jsstring :=
  if isEmpty text then [] else trim (collapseWhiteSpace false text).

(** Simple lower-casing of the Basic Latin letters, used to run the
    definitions below on examples. *)
Definition asciiLowerCase (s : jsstring) : jsstring :=
  (fun c => if ((65 <=? c) && (c <=? 90))%N then (c + 32)%N else c) <$> s.

(** ** Time *)

Definition TAG_QUIET_MINUTES : Z := 5.
Definition TAG_MAX_WAIT_MINUTES : Z := 30.
Definition TAG_MIN_SAMPLE_COUNT : Z := 5.
Definition TAG_TOP_ISSUES : nat := 50.
Definition TAG_LIMIT : nat := 8.
Definition DICT_MERGE_QUIET_MINUTES : Z := 10.
Definition DICT_MERGE_MIN_LABELS : nat := 4.
Definition DICT_MERGE_MAX_LABELS : nat := 120.

(** [addMinutesIso]: the date is valid, so the result is never [null]. *)
Definition addMinutesIso (date minutes : Z) : Z :=
  date + minutes * 60 * 1000.

(** ** Stable sort, descending by an integer key

    [Array.prototype.sort] with the comparator [(a, b) => b.k - a.k]; the
    sort is stable, so entries with equal keys keep their order. *)
Section SortDesc.
Context {A : Type} (key : A -> Z).

Fixpoint insertDesc (x : A) (l : list A) : list A :=
  match l with
  | [] => [x]
  | y :: r => if key y <=? key x then x :: l else y :: insertDesc x r
  end.

Definition sortDesc (l : list A) : list A := foldr insertDesc [] l.

Definition descending (l : list A) : Prop :=
  StronglySorted (fun a b => key b <= key a) l.
End SortDesc.

(** ** Maps in insertion order

    A [Map] whose entries are read back in order is the list of its entries.
    [assocUpdate k init f] is the pattern
    [if (!map.has(k)) map.set(k, init)] followed by an update of [map.get(k)]. *)
Section OrderedMap.
Context {K V : Type} `{EqDecision K}.

Fixpoint assocGet (k : K) (m : list (K * V)) : option V :=
  match m with
  | [] => None
  | (j, v) :: r => if decide (j = k) then Some v else assocGet k r
  end.

Fixpoint assocUpdate (k : K) (init : V) (f : V -> V) (m : list (K * V)) :
    list (K * V) :=
  match m with
  | [] => [(k, f init)]
  | (j, v) :: r =>
      if decide (j = k) then (j, f v) :: r
      else (j, v) :: assocUpdate k init f r
  end.
End OrderedMap.

(** ** Graded submissions and the issue extractor *)

(** An entry of [grading.mistakes]: an object, read through
    [item.reason || ''] and [item.question || ''], or anything else. *)
Inductive MistakeItem :=
| MistakeObject (reason question : jsstring)
| MistakeOther.

(** The fields of a grading result that the extractor reads; a field that
    is not an array reads as the empty list. *)
Record Grading := mkGrading {
  mistakes : list MistakeItem;
  weaknesses : list jsstring
}.

(** The column [submissions.grading_result]: [null], a value that
    [parseGradingResult] rejects, or a grading object. *)
Inductive GradingResult :=
| GradingNull
| GradingInvalid
| GradingParsed (g : Grading).

Record Submission := mkSubmission {
  sub_id : jsstring;
  sub_owner_id : jsstring;
  sub_assignment_id : jsstring;
  sub_student_id : jsstring;          (* empty when null *)
  sub_grading_result : GradingResult;
  sub_status : jsstring
}.

Definition parseGradingResult (raw : GradingResult) : option Grading :=
  match raw with
  | GradingParsed g => Some g
  | _ => None
  end.

(** [[reason, question].filter(Boolean).join(' ')] *)
Definition joinReasonQuestion (reason question : jsstring) : jsstring :=
  if isEmpty reason then question
  else if isEmpty question then reason
  else reason ++ 32%N :: question.

Definition nonEmpty (s : jsstring) : Prop := s <> [].

#[global] Instance nonEmpty_dec s : Decision (nonEmpty s).
Proof. unfold nonEmpty. apply _. Defined.

Definition extractIssuesFromGrading (grading : option Grading) : list jsstring :=
  match grading with
  | None => []
  | Some g =>
      match mistakes g with
      | _ :: _ =>
          filter nonEmpty
            (normalizeIssueText <$>
               ((fun item =>
                   match item with
                   | MistakeObject reason question =>
                       joinReasonQuestion reason question
                   | MistakeOther => []
                   end) <$> mistakes g))
      | [] => filter nonEmpty (normalizeIssueText <$> weaknesses g)
      end
  end.

(** The issue phrases of one submission. *)
Definition issuesOf (submission : Submission) : list jsstring :=
  extractIssuesFromGrading (parseGradingResult (sub_grading_result submission)).

(** [new Set(issues)] iterated: the first occurrences, in order. *)
Definition uniqueList (l : list jsstring) : list jsstring :=
  foldl (fun acc x => if decide (x ∈ acc) then acc else acc ++ [x]) [] l.

(** [submission.student_id || submission.id] *)
Definition ownerKeyOf (submission : Submission) : jsstring :=
  orElse (sub_student_id submission) (sub_id submission).

(** [if (bucket && ownerKey) bucket.add(ownerKey)] *)
Definition addKey (ownerKey : jsstring) (bucket : gset jsstring) : gset jsstring :=
  if isEmpty ownerKey then bucket else {[ownerKey]} ∪ bucket.

(** [issueMap], a [Map] from phrase to the [Set] of owner keys, in insertion
    order: [if (!issueMap.has(issue)) issueMap.set(issue, new Set())] followed
    by the insertion in the bucket. *)
Definition addToBucket (issue ownerKey : jsstring)
    (issueMap : list (jsstring * gset jsstring)) : list (jsstring * gset jsstring) :=
  assocUpdate issue ∅ (addKey ownerKey) issueMap.

Definition addSubmission (issueMap : list (jsstring * gset jsstring))
    (submission : Submission) : list (jsstring * gset jsstring) :=
  foldl (fun m issue => addToBucket issue (ownerKeyOf submission) m)
    issueMap (uniqueList (issuesOf submission)).

Record IssueStat := mkIssueStat { is_issue : jsstring; is_count : Z }.

Definition buildIssueMap (submissions : list Submission) :
    list (jsstring * gset jsstring) :=
  foldl addSubmission [] submissions.

Definition buildIssueStats (submissions : list Submission) : list IssueStat :=
  sortDesc is_count
    ((fun entry => mkIssueStat (fst entry) (Z.of_nat (size (snd entry))))
       <$> buildIssueMap submissions).

(** The table handed to the prompt by [aggregateAssignmentTags]. *)
Definition issueStatsOf (gradedSubmissions : list Submission) : list IssueStat :=
  take TAG_TOP_ISSUES (buildIssueStats gradedSubmissions).

(** The students who produced a phrase: the student ids of the submissions
    whose issue list holds it. *)
Definition studentsWith (issue : jsstring) (submissions : list Submission) :
    gset jsstring :=
  list_to_set
    (sub_student_id <$> filter (fun s => issue ∈ issuesOf s) submissions).

(** ** Tables *)

Inductive TagStatus :=
| idle | pending | running | ready | failed | insufficient_samples.

#[global] Instance TagStatus_eq_dec : EqDecision TagStatus.
Proof. solve_decision. Defined.

(** [assignment_tag_state], key [(owner_id, assignment_id)]. *)
Record AssignmentTagState := mkTagState {
  st_owner_id : jsstring;
  st_assignment_id : jsstring;
  st_status : TagStatus;
  st_sample_count : option Z;
  st_window_started_at : option Z;
  st_last_event_at : option Z;
  st_next_run_at : option Z;
  st_last_generated_at : option Z;
  st_dirty : bool;
  st_manual_locked : bool;
  st_model : jsstring;
  st_prompt_version : jsstring;
  st_updated_at : option Z
}.

(** The object given to [update] or [upsert] on [assignment_tag_state]: a
    field is [None] when the object has no such property (or the property is
    [undefined], which is not sent); for a nullable column [Some None] writes
    [null]. *)
Record TagStatePatch := mkTagStatePatch {
  p_status : option TagStatus;
  p_sample_count : option (option Z);
  p_window_started_at : option (option Z);
  p_last_event_at : option (option Z);
  p_next_run_at : option (option Z);
  p_last_generated_at : option (option Z);
  p_dirty : option bool;
  p_manual_locked : option bool;
  p_model : option jsstring;
  p_prompt_version : option jsstring;
  p_updated_at : option (option Z)
}.

Definition applyTagStatePatch (p : TagStatePatch) (row : AssignmentTagState) :
    AssignmentTagState :=
  {| st_owner_id := st_owner_id row;
     st_assignment_id := st_assignment_id row;
     st_status := default (st_status row) (p_status p);
     st_sample_count := default (st_sample_count row) (p_sample_count p);
     st_window_started_at :=
       default (st_window_started_at row) (p_window_started_at p);
     st_last_event_at := default (st_last_event_at row) (p_last_event_at p);
     st_next_run_at := default (st_next_run_at row) (p_next_run_at p);
     st_last_generated_at :=
       default (st_last_generated_at row) (p_last_generated_at p);
     st_dirty := default (st_dirty row) (p_dirty p);
     st_manual_locked := default (st_manual_locked row) (p_manual_locked p);
     st_model := default (st_model row) (p_model p);
     st_prompt_version := default (st_prompt_version row) (p_prompt_version p);
     st_updated_at := default (st_updated_at row) (p_updated_at p) |}.

(** A row inserted with no column given: the column defaults. *)
Definition blankTagState (ownerId assignmentId : jsstring) : AssignmentTagState :=
  {| st_owner_id := ownerId; st_assignment_id := assignmentId;
     st_status := idle; st_sample_count := None;
     st_window_started_at := None; st_last_event_at := None;
     st_next_run_at := None; st_last_generated_at := None;
     st_dirty := false; st_manual_locked := false;
     st_model := []; st_prompt_version := []; st_updated_at := None |}.

(** [assignment_tag_aggregates], key [(owner_id, assignment_id, tag_label)]. *)
Record AssignmentTagAggregate := mkAggregate {
  agg_owner_id : jsstring;
  agg_assignment_id : jsstring;
  agg_tag_label : jsstring;
  agg_tag_count : Z;
  agg_examples : option (list jsstring);
  agg_generated_at : Z;
  agg_model : jsstring;
  agg_prompt_version : jsstring;
  agg_updated_at : Z
}.

Inductive DictStatus := active | merged.

#[global] Instance DictStatus_eq_dec : EqDecision DictStatus.
Proof. solve_decision. Defined.

(** [tag_dictionary]; the primary key is generated by the database and is
    modelled by a number drawn from the counter of the store. *)
Record TagDictionaryEntry := mkDictEntry {
  td_id : N;
  td_owner_id : jsstring;
  td_label : jsstring;
  td_normalized_label : jsstring;
  td_status : DictStatus;
  td_merged_to_tag_id : option N;
  td_created_at : Z;
  td_updated_at : Z
}.

Inductive MergeStatus := merge_idle | merge_pending | merge_running | merge_failed.

(** [tag_dictionary_state], key [owner_id]. *)
Record TagDictionaryState := mkDictState {
  ds_owner_id : jsstring;
  ds_status : MergeStatus;
  ds_next_run_at : option Z;
  ds_error_message : option jsstring;
  ds_updated_at : Z
}.

(** [assignments], as far as the pipeline reads it. *)
Record Assignment := mkAssignment {
  as_id : jsstring;
  as_owner_id : jsstring;
  as_domain : jsstring               (* empty when null *)
}.

Record Folder := mkFolder {
  fo_id : jsstring;
  fo_owner_id : jsstring;
  fo_name : jsstring
}.

Record Store := mkStore {
  submissions : list Submission;
  assignments : list Assignment;
  folders : list Folder;
  assignment_tag_state : list AssignmentTagState;
  assignment_tag_aggregates : list AssignmentTagAggregate;
  tag_dictionary : list TagDictionaryEntry;
  tag_dictionary_state : list TagDictionaryState;
  next_id : N
}.

Definition with_submissions (v : list Submission) (st : Store) : Store :=
  mkStore v (assignments st) (folders st) (assignment_tag_state st)
    (assignment_tag_aggregates st) (tag_dictionary st)
    (tag_dictionary_state st) (next_id st).

Definition with_folders (v : list Folder) (st : Store) : Store :=
  mkStore (submissions st) (assignments st) v (assignment_tag_state st)
    (assignment_tag_aggregates st) (tag_dictionary st)
    (tag_dictionary_state st) (next_id st).

Definition with_assignment_tag_state (v : list AssignmentTagState) (st : Store) :
    Store :=
  mkStore (submissions st) (assignments st) (folders st) v
    (assignment_tag_aggregates st) (tag_dictionary st)
    (tag_dictionary_state st) (next_id st).

Definition with_assignment_tag_aggregates (v : list AssignmentTagAggregate)
    (st : Store) : Store :=
  mkStore (submissions st) (assignments st) (folders st)
    (assignment_tag_state st) v (tag_dictionary st)
    (tag_dictionary_state st) (next_id st).

Definition with_tag_dictionary (v : list TagDictionaryEntry) (n : N) (st : Store) :
    Store :=
  mkStore (submissions st) (assignments st) (folders st)
    (assignment_tag_state st) (assignment_tag_aggregates st) v
    (tag_dictionary_state st) n.

Definition with_tag_dictionary_state (v : list TagDictionaryState) (st : Store) :
    Store :=
  mkStore (submissions st) (assignments st) (folders st)
    (assignment_tag_state st) (assignment_tag_aggregates st)
    (tag_dictionary st) v (next_id st).

(** ** Effects

    A handler threads the store and either returns or throws.  The database
    client does not throw: a call answers [{ data, error }]. *)

Inductive Outcome (A : Type) :=
| Ok (value : A)
| Throw (message : jsstring).
Arguments Ok {A} value.
Arguments Throw {A} message.

Definition M (A : Type) : Type := Store -> Store * Outcome A.

Definition ret {A} (a : A) : M A := fun st => (st, Ok a).
Definition throw {A} (message : jsstring) : M A := fun st => (st, Throw message).
Definition bind {A B} (c : M A) (k : A -> M B) : M B :=
  fun st =>
    match c st with
    | (st', Ok a) => k a st'
    | (st', Throw message) => (st', Throw message)
    end.
(** [try { c } catch (err) { handler(err.message) }] *)
Definition tryCatch {A} (c : M A) (handler : jsstring -> M A) : M A :=
  fun st =>
    match c st with
    | (st', Ok a) => (st', Ok a)
    | (st', Throw message) => handler message st'
    end.

Declare Scope js_scope.
Delimit Scope js_scope with js_scope.
Notation "x <- c ;; k" := (bind c (fun x => k))
  (at level 100, c at next level, right associativity) : js_scope.
Notation "c ;;; k" := (bind c (fun _ => k))
  (at level 100, right associativity) : js_scope.

Inductive DbResult (A : Type) :=
| DbData (data : A)
| DbError (message : jsstring).
Arguments DbData {A} data.
Arguments DbError {A} message.

(** The calls of the database client, one name per call site. *)
Inductive DbCall :=
| SyncUpsertSubmissions | SyncUpsertFolders
| TouchSelectStates | TouchUpsertStates
| FinalizeSelect | FinalizeUpdatePending | FinalizeUpdateReady
| MergeStateUpsert
| AggSelectAssignment | AggLockedUpdate | AggRunningUpdate
| AggSelectSubmissions | AggInsufficientUpdate | AggEmptyDelete
| AggSelectDictionary | AggInsertDictionary
| AggDeleteAggregates | AggInsertAggregates
| SweepSelectStates | SweepFailedUpdate
| OverrideSelectState | OverrideSelectDictionary | OverrideInsertDictionary
| OverrideDeleteAggregates | OverrideInsertAggregates | OverrideUpsertState
| UnlockUpdate
| MergeSelectActive | MergeSelectUsage | MergeInsertCanonical
| MergeUpdateCanonicals | MergeUpsertMembers.

#[global] Instance DbCall_eq_dec : EqDecision DbCall.
Proof. solve_decision. Defined.

(** A tag as the model or the administrator gives it, read field by field:
    [label] and [tag] when they are strings, the result of [parseInt] on the
    count ([None] for [NaN]) and, when [examples] is an array, its entries
    (a string or anything else). *)
Record RawTag := mkRawTag {
  rt_label : option jsstring;
  rt_tag : option jsstring;
  rt_count : option Z;
  rt_examples : option (list (option jsstring))
}.

Record NormalizedTag := mkNormalizedTag {
  nt_label : jsstring;
  nt_count : Z;
  nt_examples : option (list jsstring)
}.

(** A row of the sync payload after [buildUpsertRows] and [compactObject]:
    an absent property is [None]. *)
Record SubmissionRow := mkSubmissionRow {
  sr_id : jsstring;
  sr_assignment_id : jsstring;
  sr_student_id : jsstring;
  sr_status : option jsstring;
  sr_grading_result : option GradingResult
}.

Inductive ResponseBody :=
| BodySuccess
| BodyError (message : jsstring).

Record Response := mkResponse {
  res_status : Z;
  res_body : ResponseBody
}.

(** What [aggregateAssignmentTags] returns. *)
Inductive RunStatus := RunLocked | RunInsufficientSamples | RunReady.

Record RunResult := mkRunResult {
  rr_status : RunStatus;
  rr_sampleCount : Z
}.

(** [new Map(entries)]: a later entry replaces an earlier one. *)
Definition jsMapOf {V} (entries : list (jsstring * V)) : gmap jsstring V :=
  foldl (fun m kv => <[fst kv := snd kv]> m) ∅ entries.

Local Open Scope js_scope.

Section Pipeline.
(** [String.prototype.toLowerCase]. *)
Variable toLowerCase : jsstring -> jsstring.
(** The error, if any, that each database call answers with. *)
Variable fails : DbCall -> option jsstring.
(** [callGeminiText] on the tag prompt of an assignment followed by
    [extractJsonFromText] and the reading of [parsed.tags]: the request
    throws, or the answer holds a (possibly empty) list of tags. *)
Variable callGeminiTags : jsstring -> jsstring -> Outcome (list RawTag).

(** [normalizeTagLabel] *)
Definition normalizeTagLabel (label : jsstring) : jsstring :=
  if isEmpty label then [] else toLowerCase (trim (removeWhiteSpace label)).

Definition dbCall {A} (call : DbCall) (op : Store -> Store * A) : M (DbResult A) :=
  fun st =>
    match fails call with
    | Some message => (st, Ok (DbError message))
    | None => let '(st', a) := op st in (st', Ok (DbData a))
    end.

Definition dbRead {A} (call : DbCall) (query : Store -> A) : M (DbResult A) :=
  dbCall call (fun st => (st, query st)).

Definition dbWrite (call : DbCall) (write : Store -> Store) : M (DbResult ()) :=
  dbCall call (fun st => (write st, ())).

(** [if (error) throw new Error(error.message)] *)
Definition orThrow {A} (c : M (DbResult A)) : M A :=
  r <- c ;;
  match r with
  | DbData a => ret a
  | DbError message => throw message
  end.

(** *** [assignment_tag_state] *)

Definition isStateOf (ownerId assignmentId : jsstring)
    (row : AssignmentTagState) : bool :=
  bool_decide (st_owner_id row = ownerId)
  && bool_decide (st_assignment_id row = assignmentId).

Definition selectState (ownerId assignmentId : jsstring) (st : Store) :
    option AssignmentTagState :=
  head (List.filter (isStateOf ownerId assignmentId) (assignment_tag_state st)).

(** [.update(patch).eq('owner_id', ..).eq('assignment_id', ..)] *)
Definition updateState (ownerId assignmentId : jsstring) (p : TagStatePatch)
    (st : Store) : Store :=
  with_assignment_tag_state
    ((fun row => if isStateOf ownerId assignmentId row
                 then applyTagStatePatch p row else row)
       <$> assignment_tag_state st) st.

(** [.upsert(row, { onConflict: 'owner_id,assignment_id' })] *)
Definition upsertState (ownerId assignmentId : jsstring) (p : TagStatePatch)
    (st : Store) : Store :=
  match selectState ownerId assignmentId st with
  | Some _ => updateState ownerId assignmentId p st
  | None =>
      with_assignment_tag_state
        (assignment_tag_state st
           ++ [applyTagStatePatch p (blankTagState ownerId assignmentId)]) st
  end.

(** *** [touchAssignmentTagStates] ([api/data/[action].js]) *)

Definition touchRow (nowIso : Z) (existing : option AssignmentTagState) :
    TagStatePatch :=
  let isManualLocked := from_option st_manual_locked false existing in
  let status :=
    if isManualLocked then ready else from_option st_status idle existing in
  let isRunning := bool_decide (status = running) in
  let resetWindow :=
    match existing with
    | None => true
    | Some row =>
        match st_window_started_at row with
        | None => true
        | Some _ =>
            bool_decide (status = idle) || bool_decide (status = failed)
            || bool_decide (status = ready)
            || bool_decide (status = insufficient_samples)
        end
    end in
  let windowStartedAt :=
    if resetWindow then Some nowIso
    else existing ≫= st_window_started_at in
  {| p_status :=
       Some (if isManualLocked then ready
             else if isRunning then running else pending);
     p_sample_count := None;
     p_window_started_at := Some windowStartedAt;
     p_last_event_at := Some (Some nowIso);
     p_next_run_at :=
       if isManualLocked then None
       else Some (Some (addMinutesIso nowIso TAG_QUIET_MINUTES));
     p_last_generated_at := None;
     p_dirty :=
       Some (if isManualLocked then false
             else if isRunning then true
             else from_option st_dirty false existing);
     p_manual_locked :=
       Some (if isManualLocked then true
             else from_option st_manual_locked false existing);
     p_model := None;
     p_prompt_version := None;
     p_updated_at := Some (Some nowIso) |}.

(** The row that the upsert of [touchRow] leaves for an assignment. *)
Definition touchedState (nowIso : Z) (ownerId assignmentId : jsstring)
    (existing : option AssignmentTagState) : AssignmentTagState :=
  applyTagStatePatch (touchRow nowIso existing)
    (default (blankTagState ownerId assignmentId) existing).

(** The window start that an event leaves. *)
Definition windowAfterTouch (now : Z) (existing : option AssignmentTagState) : Z :=
  match existing with
  | None => now
  | Some row =>
      match st_window_started_at row with
      | None => now
      | Some w =>
          if bool_decide (st_status row ∈ [idle; ready; failed; insufficient_samples])
          then now else w
      end
  end.

Definition touchAssignmentTagStates (nowIso : Z) (ownerId : jsstring)
    (assignmentIds : list jsstring) : M () :=
  match assignmentIds with
  | [] => ret ()
  | _ =>
      data <- orThrow (dbRead TouchSelectStates (fun st =>
                List.filter
                  (fun row => bool_decide (st_owner_id row = ownerId)
                              && bool_decide (st_assignment_id row ∈ assignmentIds))
                  (assignment_tag_state st))) ;;
      let stateMap := jsMapOf ((fun row => (st_assignment_id row, row)) <$> data) in
      let rows :=
        (fun assignmentId =>
           (assignmentId, touchRow nowIso (stateMap !! assignmentId)))
          <$> assignmentIds in
      orThrow (dbWrite TouchUpsertStates (fun st =>
        foldl (fun st row => upsertState ownerId (fst row) (snd row) st) st rows))
  end.

(** *** The POST branch of [handleSync], from the submissions on

    The rows are those that [buildUpsertRows] kept. *)

Definition upsertSubmission (userId : jsstring) (row : SubmissionRow)
    (subs : list Submission) : list Submission :=
  let write (old : Submission) : Submission :=
    {| sub_id := sr_id row; sub_owner_id := userId;
       sub_assignment_id := sr_assignment_id row;
       sub_student_id := sr_student_id row;
       sub_grading_result :=
         default (sub_grading_result old) (sr_grading_result row);
       sub_status := default (sub_status old) (sr_status row) |} in
  if existsb (fun s => bool_decide (sub_id s = sr_id row)) subs
  then (fun s => if bool_decide (sub_id s = sr_id row) then write s else s) <$> subs
  else subs ++ [write (mkSubmission (sr_id row) userId [] [] GradingNull [])].

Definition upsertFolder (row : Folder) (fs : list Folder) : list Folder :=
  if existsb (fun f => bool_decide (fo_id f = fo_id row)) fs
  then (fun f => if bool_decide (fo_id f = fo_id row) then row else f) <$> fs
  else fs ++ [row].

(** [new Set(submissionRows.filter(..).filter(..).map(..))] *)
Definition touchedAssignments (submissionRows : list SubmissionRow) :
    list jsstring :=
  uniqueList
    (sr_assignment_id <$>
       List.filter
         (fun row =>
            negb (isEmpty (sr_assignment_id row))
            && (bool_decide (sr_grading_result row <> None)
                || bool_decide (sr_status row = Some (js "graded"))))
         submissionRows).

Definition syncWrites (nowIso : Z) (userId : jsstring)
    (submissionRows : list SubmissionRow) (folderRows : list Folder) : M () :=
  (match submissionRows with
   | [] => ret ()
   | _ =>
       orThrow (dbWrite SyncUpsertSubmissions (fun st =>
         with_submissions
           (foldl (fun subs row => upsertSubmission userId row subs)
              (submissions st) submissionRows) st))
   end) ;;;
  (match touchedAssignments submissionRows with
   | [] => ret ()
   | touched => touchAssignmentTagStates nowIso userId touched
   end) ;;;
  (match folderRows with
   | [] => ret ()
   | _ =>
       orThrow (dbWrite SyncUpsertFolders (fun st =>
         with_folders
           (foldl (fun fs row => upsertFolder row fs) (folders st) folderRows)
           st))
   end).

(** [try { ...; res.status(200).json({ success: true }) }
     catch (err) { res.status(500).json({ error: err.message }) }] *)
Definition handleSyncPost (nowIso : Z) (userId : jsstring)
    (submissionRows : list SubmissionRow) (folderRows : list Folder)
    (st : Store) : Store * Response :=
  match syncWrites nowIso userId submissionRows folderRows st with
  | (st', Ok _) => (st', mkResponse 200 BodySuccess)
  | (st', Throw message) => (st', mkResponse 500 (BodyError message))
  end.

(** *** [finalizeAssignmentTagState] *)

Definition finalizeAssignmentTagState (ownerId assignmentId : jsstring)
    (nowIso sampleCount : Z) (model promptVersion : jsstring) : M () :=
  latest <- orThrow (dbRead FinalizeSelect (selectState ownerId assignmentId)) ;;
  let baseUpdate :=
    {| p_status := None;
       p_sample_count := Some (Some sampleCount);
       p_window_started_at := None;
       p_last_event_at := None;
       p_next_run_at := None;
       p_last_generated_at := Some (Some nowIso);
       p_dirty := Some false;
       p_manual_locked := None;
       p_model := Some model;
       p_prompt_version := Some promptVersion;
       p_updated_at := Some (Some nowIso) |} in
  if from_option st_dirty false latest then
    let lastEventAt := default nowIso (latest ≫= st_last_event_at) in
    let nextRunAt := addMinutesIso lastEventAt TAG_QUIET_MINUTES in
    orThrow (dbWrite FinalizeUpdatePending
      (updateState ownerId assignmentId
         {| p_status := Some pending;
            p_sample_count := p_sample_count baseUpdate;
            p_window_started_at := Some (Some lastEventAt);
            p_last_event_at := None;
            p_next_run_at := Some (Some nextRunAt);
            p_last_generated_at := p_last_generated_at baseUpdate;
            p_dirty := p_dirty baseUpdate;
            p_manual_locked := None;
            p_model := p_model baseUpdate;
            p_prompt_version := p_prompt_version baseUpdate;
            p_updated_at := p_updated_at baseUpdate |}))
  else
    orThrow (dbWrite FinalizeUpdateReady
      (updateState ownerId assignmentId
         {| p_status := Some ready;
            p_sample_count := p_sample_count baseUpdate;
            p_window_started_at := None;
            p_last_event_at := None;
            p_next_run_at := None;
            p_last_generated_at := p_last_generated_at baseUpdate;
            p_dirty := p_dirty baseUpdate;
            p_manual_locked := None;
            p_model := p_model baseUpdate;
            p_prompt_version := p_prompt_version baseUpdate;
            p_updated_at := p_updated_at baseUpdate |})).

(** *** [touchDictionaryMergeState] *)

Definition touchDictionaryMergeState (ownerId : jsstring) (nowIso : Z) : M () :=
  if isEmpty ownerId then ret ()
  else
    let row :=
      {| ds_owner_id := ownerId; ds_status := merge_pending;
         ds_next_run_at := Some (addMinutesIso nowIso DICT_MERGE_QUIET_MINUTES);
         ds_error_message := None; ds_updated_at := nowIso |} in
    orThrow (dbWrite MergeStateUpsert (fun st =>
      with_tag_dictionary_state
        (if existsb (fun r => bool_decide (ds_owner_id r = ownerId))
              (tag_dictionary_state st)
         then (fun r => if bool_decide (ds_owner_id r = ownerId) then row else r)
                <$> tag_dictionary_state st
         else tag_dictionary_state st ++ [row]) st)).

(** *** Tags of a clustering run *)

(** [typeof tag?.label === 'string' ? tag.label.trim()
     : typeof tag?.tag === 'string' ? tag.tag.trim() : ''] *)
Definition tagLabelOf (tag : RawTag) : jsstring :=
  match rt_label tag with
  | Some label => trim label
  | None => match rt_tag tag with Some t => trim t | None => [] end
  end.

(** [Array.isArray(tag?.examples) ? tag.examples.map(..).filter(..).slice(0, 2)
     : undefined] *)
Definition tagExamplesOf (tag : RawTag) : option (list jsstring) :=
  (fun items =>
     take 2 (filter nonEmpty ((fun item => from_option trim [] item) <$> items)))
    <$> rt_examples tag.

Definition normalizeModelTag (sampleCount : Z) (tag : RawTag) :
    option NormalizedTag :=
  let label := tagLabelOf tag in
  match rt_count tag with
  | None => None
  | Some count =>
      if isEmpty label || (count <=? 0) then None
      else Some {| nt_label := label;
                   nt_count := Z.min count sampleCount;
                   nt_examples := tagExamplesOf tag |}
  end.

(** [rawTags.map(..).filter(Boolean).sort((a, b) => b.count - a.count)
     .slice(0, TAG_LIMIT)] *)
Definition normalizedModelTags (sampleCount : Z) (rawTags : list RawTag) :
    list NormalizedTag :=
  take TAG_LIMIT
    (sortDesc nt_count (omap (normalizeModelTag sampleCount) rawTags)).

Definition TAG_MODEL : jsstring := js "gemini-3-flash-preview".
Definition TAG_PROMPT_VERSION : jsstring := js "v1.0".

Definition aggregateRowOf (ownerId assignmentId : jsstring) (nowIso : Z)
    (model promptVersion : jsstring) (tag : NormalizedTag) :
    AssignmentTagAggregate :=
  {| agg_owner_id := ownerId; agg_assignment_id := assignmentId;
     agg_tag_label := nt_label tag; agg_tag_count := nt_count tag;
     agg_examples := nt_examples tag; agg_generated_at := nowIso;
     agg_model := model; agg_prompt_version := promptVersion;
     agg_updated_at := nowIso |}.

(** *** [assignment_tag_aggregates] and [tag_dictionary] *)

Definition isAggregateOf (ownerId assignmentId : jsstring)
    (row : AssignmentTagAggregate) : bool :=
  bool_decide (agg_owner_id row = ownerId)
  && bool_decide (agg_assignment_id row = assignmentId).

Definition aggregatesOf (ownerId assignmentId : jsstring) (st : Store) :
    list AssignmentTagAggregate :=
  List.filter (isAggregateOf ownerId assignmentId) (assignment_tag_aggregates st).

Definition aggregatesOfOwner (ownerId : jsstring) (st : Store) :
    list AssignmentTagAggregate :=
  List.filter (fun row => bool_decide (agg_owner_id row = ownerId))
    (assignment_tag_aggregates st).

(** [.delete().eq('owner_id', ..).eq('assignment_id', ..)] *)
Definition deleteAggregates (ownerId assignmentId : jsstring) (st : Store) :
    Store :=
  with_assignment_tag_aggregates
    (List.filter (fun row => negb (isAggregateOf ownerId assignmentId row))
       (assignment_tag_aggregates st)) st.

Definition insertAggregates (rows : list AssignmentTagAggregate) (st : Store) :
    Store :=
  with_assignment_tag_aggregates (assignment_tag_aggregates st ++ rows) st.

(** [.insert(rows)] on [tag_dictionary]: a row is [(label,
    normalized_label)]; the rows are active and get fresh ids. *)
Definition insertDictionaryRows (ownerId : jsstring) (nowIso : Z)
    (rows : list (jsstring * jsstring)) (st : Store) :
    Store * list TagDictionaryEntry :=
  let entries :=
    imap (fun i row =>
            {| td_id := (next_id st + N.of_nat i)%N; td_owner_id := ownerId;
               td_label := fst row; td_normalized_label := snd row;
               td_status := active; td_merged_to_tag_id := None;
               td_created_at := nowIso; td_updated_at := nowIso |}) rows in
  (with_tag_dictionary (tag_dictionary st ++ entries)
     (next_id st + N.of_nat (length rows))%N st, entries).

(** [row.normalized_label || normalizeTagLabel(row.label)] *)
Definition normalizedOf (row : TagDictionaryEntry) : jsstring :=
  orElse (td_normalized_label row) (normalizeTagLabel (td_label row)).

(** The labels of the tags that the dictionary map does not hold, each with
    its normalized form. *)
Definition newDictionaryRowsOf {V} (dictionaryMap : gmap jsstring V)
    (tags : list NormalizedTag) : list (jsstring * jsstring) :=
  omap (fun tag =>
          let normalizedLabel := normalizeTagLabel (nt_label tag) in
          match dictionaryMap !! normalizedLabel with
          | None => Some (nt_label tag, normalizedLabel)
          | Some _ => None
          end) tags.

(** The replacement of the aggregate rows of an assignment
    ([aggregateAssignmentTags], from the [delete] to the check of the
    [insert]); what the [delete] answers is not looked at. *)
Definition replaceAggregates (deleteCall insertCall : DbCall)
    (ownerId assignmentId : jsstring) (rows : list AssignmentTagAggregate) :
    M () :=
  _ <- dbWrite deleteCall (deleteAggregates ownerId assignmentId) ;;
  orThrow (dbWrite insertCall (insertAggregates rows)).

(** [try { await refreshDomainTagAggregates(..) } catch (err) { log }]: the
    rollup reads the tables above and writes [domain_tag_aggregates] only,
    which the store does not hold; what it throws is dropped. *)
Definition refreshDomainTagAggregatesQuietly (ownerId domain : jsstring) : M () :=
  ret ().

(** *** [aggregateAssignmentTags] *)

(** [if (newDictionaryRows.length > 0) { insert; touchDictionaryMergeState }] *)
Definition insertNewDictionaryRows (nowIso : Z) (ownerId : jsstring)
    (newDictionaryRows : list (jsstring * jsstring)) : M () :=
  match newDictionaryRows with
  | [] => ret ()
  | _ =>
      _ <- orThrow (dbCall AggInsertDictionary
             (insertDictionaryRows ownerId nowIso newDictionaryRows)) ;;
      touchDictionaryMergeState ownerId nowIso
  end.

(** From the prompt to the finalisation of the state: the model step. *)
Definition clusterStep (nowIso : Z) (ownerId assignmentId : jsstring)
    (sampleCount : Z) (dictionaryRows : list TagDictionaryEntry) : M () :=
  let dictionaryMap :=
    jsMapOf ((fun row => (normalizedOf row, row)) <$> dictionaryRows) in
  rawTags <- (fun st => (st, callGeminiTags ownerId assignmentId)) ;;
  let normalizedTags := normalizedModelTags sampleCount rawTags in
  match normalizedTags with
  | [] => throw (js "Gemini tag output invalid")
  | _ =>
      let newDictionaryRows := newDictionaryRowsOf dictionaryMap normalizedTags in
      insertNewDictionaryRows nowIso ownerId newDictionaryRows ;;;
      replaceAggregates AggDeleteAggregates AggInsertAggregates
        ownerId assignmentId
        (aggregateRowOf ownerId assignmentId nowIso TAG_MODEL TAG_PROMPT_VERSION
           <$> normalizedTags) ;;;
      finalizeAssignmentTagState ownerId assignmentId nowIso sampleCount
        TAG_MODEL TAG_PROMPT_VERSION
  end.

(** [row.grading_result !== null || row.status === 'graded'] *)
Definition isGraded (row : Submission) : bool :=
  match sub_grading_result row with
  | GradingNull => bool_decide (sub_status row = js "graded")
  | _ => true
  end.

Definition gradedSubmissionsOf (ownerId assignmentId : jsstring) (st : Store) :
    list Submission :=
  List.filter isGraded
    (List.filter
       (fun row => bool_decide (sub_owner_id row = ownerId)
                   && bool_decide (sub_assignment_id row = assignmentId))
       (submissions st)).

Definition aggregateAssignmentTags (nowIso : Z) (stateRow : AssignmentTagState) :
    M RunResult :=
  let ownerId := st_owner_id stateRow in
  let assignmentId := st_assignment_id stateRow in
  if isEmpty ownerId
  then throw (js "Missing owner_id for assignment tag aggregation")
  else
    assignmentRow <- orThrow (dbRead AggSelectAssignment (fun st =>
      head (List.filter
              (fun row => bool_decide (as_id row = assignmentId)
                          && bool_decide (as_owner_id row = ownerId))
              (assignments st)))) ;;
    let assignmentDomain :=
      orElse (from_option as_domain [] assignmentRow) (js "uncategorized") in
    if st_manual_locked stateRow then
      orThrow (dbWrite AggLockedUpdate
        (updateState ownerId assignmentId
           {| p_status := Some ready; p_sample_count := None;
              p_window_started_at := None; p_last_event_at := None;
              p_next_run_at := None; p_last_generated_at := None;
              p_dirty := Some false; p_manual_locked := None;
              p_model := None; p_prompt_version := None;
              p_updated_at := Some (Some nowIso) |})) ;;;
      ret (mkRunResult RunLocked (default 0 (st_sample_count stateRow)))
    else
      orThrow (dbWrite AggRunningUpdate
        (updateState ownerId assignmentId
           {| p_status := Some running; p_sample_count := None;
              p_window_started_at := None; p_last_event_at := None;
              p_next_run_at := None; p_last_generated_at := None;
              p_dirty := None; p_manual_locked := None;
              p_model := None; p_prompt_version := None;
              p_updated_at := Some (Some nowIso) |})) ;;;
      gradedSubmissions <- orThrow (dbRead AggSelectSubmissions
        (gradedSubmissionsOf ownerId assignmentId)) ;;
      let sampleCount := Z.of_nat (length gradedSubmissions) in
      if sampleCount <? TAG_MIN_SAMPLE_COUNT then
        orThrow (dbWrite AggInsufficientUpdate
          (updateState ownerId assignmentId
             {| p_status := Some insufficient_samples;
                p_sample_count := Some (Some sampleCount);
                p_window_started_at := None; p_last_event_at := None;
                p_next_run_at := None; p_last_generated_at := None;
                p_dirty := None; p_manual_locked := None;
                p_model := None; p_prompt_version := None;
                p_updated_at := Some (Some nowIso) |})) ;;;
        ret (mkRunResult RunInsufficientSamples sampleCount)
      else
        match issueStatsOf gradedSubmissions with
        | [] =>
            _ <- dbWrite AggEmptyDelete (deleteAggregates ownerId assignmentId) ;;
            finalizeAssignmentTagState ownerId assignmentId nowIso sampleCount
              TAG_MODEL TAG_PROMPT_VERSION ;;;
            refreshDomainTagAggregatesQuietly ownerId assignmentDomain ;;;
            ret (mkRunResult RunReady sampleCount)
        | _ =>
            dictionaryRows <- orThrow (dbRead AggSelectDictionary (fun st =>
              List.filter
                (fun row => bool_decide (td_owner_id row = ownerId)
                            && bool_decide (td_status row = active))
                (tag_dictionary st))) ;;
            clusterStep nowIso ownerId assignmentId sampleCount dictionaryRows ;;;
            refreshDomainTagAggregatesQuietly ownerId assignmentDomain ;;;
            ret (mkRunResult RunReady sampleCount)
        end.

(** *** The sweep of [handleAggregateTags] *)

(** The filter that keeps the due states; [Date.parse] of a [null] column
    is not finite. *)
Definition isDue (nowMs : Z) (row : AssignmentTagState) : bool :=
  let quietDue :=
    if match st_next_run_at row with
       | Some nextRunAtMs => nextRunAtMs <=? nowMs
       | None => false
       end
    then true
    else match st_last_event_at row with
         | Some lastEventMs =>
             TAG_QUIET_MINUTES * 60 * 1000 <=? nowMs - lastEventMs
         | None => false
         end in
  let maxWaitDue :=
    match st_window_started_at row with
    | Some windowStartMs =>
        TAG_MAX_WAIT_MINUTES * 60 * 1000 <=? nowMs - windowStartMs
    | None => false
    end in
  quietDue || maxWaitDue.

(** The request of a sweep: the optional owner and assignment filters,
    [force] and [scope === 'all' || forceAll]. *)
Record SweepRequest := mkSweepRequest {
  sw_ownerId : option jsstring;
  sw_assignmentId : option jsstring;
  sw_force : bool;
  sw_includeReady : bool
}.

Definition sweepSelects (req : SweepRequest) (row : AssignmentTagState) : bool :=
  from_option (fun o => bool_decide (st_owner_id row = o)) true (sw_ownerId req)
  && from_option (fun a => bool_decide (st_assignment_id row = a)) true
       (sw_assignmentId req)
  && (if sw_includeReady req
      then bool_decide (st_status row ∈ [pending; ready; failed; insufficient_samples])
      else bool_decide (st_status row = pending)).

Definition dueStatesOf (req : SweepRequest) (nowMs : Z)
    (states : list AssignmentTagState) : list AssignmentTagState :=
  if sw_force req then states else List.filter (isDue nowMs) states.

(** One turn of the loop over the due states. *)
Definition sweepOne (nowMs : Z) (stateRow : AssignmentTagState) :
    M (jsstring * Outcome RunResult) :=
  tryCatch
    (result <- aggregateAssignmentTags nowMs stateRow ;;
     ret (st_assignment_id stateRow, Ok result))
    (fun message =>
       _ <- dbWrite SweepFailedUpdate
              (updateState (st_owner_id stateRow) (st_assignment_id stateRow)
                 {| p_status := Some failed; p_sample_count := None;
                    p_window_started_at := None; p_last_event_at := None;
                    p_next_run_at := None; p_last_generated_at := None;
                    p_dirty := None; p_manual_locked := None;
                    p_model := None; p_prompt_version := None;
                    p_updated_at := Some (Some nowMs) |}) ;;
       ret (st_assignment_id stateRow, Throw message)).

Fixpoint sweepLoop (nowMs : Z) (dueStates : list AssignmentTagState) :
    M (list (jsstring * Outcome RunResult)) :=
  match dueStates with
  | [] => ret []
  | stateRow :: rest =>
      result <- sweepOne nowMs stateRow ;;
      results <- sweepLoop nowMs rest ;;
      ret (result :: results)
  end.

(** [handleAggregateTags] up to the cascade to the domain and ability
    layers: the answer is the error of the select, or the list of results. *)
Definition handleAggregateTags (req : SweepRequest) (nowMs : Z) :
    M (DbResult (list (jsstring * Outcome RunResult))) :=
  selected <- dbRead SweepSelectStates (fun st =>
    List.filter (sweepSelects req) (assignment_tag_state st)) ;;
  match selected with
  | DbError message => ret (DbError message)
  | DbData states =>
      results <- sweepLoop nowMs (dueStatesOf req nowMs states) ;;
      ret (DbData results)
  end.

(** *** The [override] and [unlock] intents of [handleTags] *)

(** A request parameter: a boolean, a string, or anything else. *)
Inductive JsParam :=
| ParamBool (b : bool)
| ParamString (s : jsstring)
| ParamOther.

Definition parseBooleanParam (value : JsParam) (fallback : bool) : bool :=
  match value with
  | ParamBool b => b
  | ParamString s =>
      let normalized := toLowerCase (trim s) in
      if bool_decide (normalized = js "1") || bool_decide (normalized = js "true")
      then true
      else if bool_decide (normalized = js "0")
              || bool_decide (normalized = js "false")
      then false
      else fallback
  | ParamOther => fallback
  end.

(** The body of an [override] request: [ownerId] and [assignmentId] when
    they are strings, [tags] when it is an array (the empty list otherwise)
    and [manualLocked ?? locked]. *)
Record OverridePayload := mkOverridePayload {
  ov_ownerId : option jsstring;
  ov_assignmentId : option jsstring;
  ov_tags : list RawTag;
  ov_manualLocked : JsParam
}.

Definition normalizeOverrideTag (tag : RawTag) : option NormalizedTag :=
  let label := tagLabelOf tag in
  if isEmpty label then None
  else
    match rt_count tag with
    | None => None
    | Some count =>
        if count <=? 0 then None
        else Some {| nt_label := label; nt_count := count;
                     nt_examples := tagExamplesOf tag |}
    end.

Definition MANUAL : jsstring := js "manual".

Definition overrideStatePatch (nowIso : Z) (sampleCount : option Z)
    (manualLocked : bool) : TagStatePatch :=
  {| p_status := Some ready;
     p_sample_count := Some sampleCount;
     p_window_started_at := None;
     p_last_event_at := None;
     p_next_run_at := if manualLocked then Some None else None;
     p_last_generated_at := Some (Some nowIso);
     p_dirty := Some false;
     p_manual_locked := Some manualLocked;
     p_model := Some MANUAL;
     p_prompt_version := Some MANUAL;
     p_updated_at := Some (Some nowIso) |}.

Definition MISSING_IDS : jsstring := js "Missing ownerId or assignmentId".
(** The message asking for at least one tag. *)
Definition NO_TAGS : jsstring :=
  [35531; 36664; 20837; 33267; 23569; 19968; 20491; 27161; 31844]%N.

Definition handleTagsOverride (nowIso : Z) (payload : OverridePayload) :
    M Response :=
  let ownerIdValue := from_option trim [] (ov_ownerId payload) in
  let assignmentIdValue := from_option trim [] (ov_assignmentId payload) in
  if isEmpty ownerIdValue || isEmpty assignmentIdValue
  then ret (mkResponse 400 (BodyError MISSING_IDS))
  else
    let normalizedTags := omap normalizeOverrideTag (ov_tags payload) in
    match normalizedTags with
    | [] => ret (mkResponse 400 (BodyError NO_TAGS))
    | _ =>
        let manualLocked := parseBooleanParam (ov_manualLocked payload) true in
        stateRow <- dbRead OverrideSelectState
                      (selectState ownerIdValue assignmentIdValue) ;;
        let sampleCount :=
          match stateRow with
          | DbData (Some row) => st_sample_count row
          | _ => None
          end in
        dictionary <- dbRead OverrideSelectDictionary (fun st =>
          List.filter (fun row => bool_decide (td_owner_id row = ownerIdValue))
            (tag_dictionary st)) ;;
        match dictionary with
        | DbError message => ret (mkResponse 500 (BodyError message))
        | DbData dictionaryRows =>
            let dictionaryMap :=
              jsMapOf ((fun row => (normalizedOf row, row)) <$> dictionaryRows) in
            let newDictionaryRows :=
              newDictionaryRowsOf dictionaryMap normalizedTags in
            inserted <-
              (match newDictionaryRows with
               | [] => ret (DbData [])
               | _ => dbCall OverrideInsertDictionary
                        (insertDictionaryRows ownerIdValue nowIso newDictionaryRows)
               end) ;;
            match inserted with
            | DbError message => ret (mkResponse 500 (BodyError message))
            | DbData _ =>
                replaced <-
                  (_ <- dbWrite OverrideDeleteAggregates
                          (deleteAggregates ownerIdValue assignmentIdValue) ;;
                   dbWrite OverrideInsertAggregates
                     (insertAggregates
                        (aggregateRowOf ownerIdValue assignmentIdValue nowIso
                           MANUAL MANUAL <$> normalizedTags))) ;;
                match replaced with
                | DbError message => ret (mkResponse 500 (BodyError message))
                | DbData _ =>
                    upserted <- dbWrite OverrideUpsertState
                      (upsertState ownerIdValue assignmentIdValue
                         (overrideStatePatch nowIso sampleCount manualLocked)) ;;
                    match upserted with
                    | DbError message => ret (mkResponse 500 (BodyError message))
                    | DbData _ =>
                        (* the domain of the assignment is read inside the
                           try block of the rollup *)
                        refreshDomainTagAggregatesQuietly ownerIdValue [] ;;;
                        ret (mkResponse 200 BodySuccess)
                    end
                end
            end
        end
    end.

Definition handleTagsUnlock (nowIso : Z) (ownerId assignmentId : option jsstring) :
    M Response :=
  let ownerIdValue := from_option trim [] ownerId in
  let assignmentIdValue := from_option trim [] assignmentId in
  if isEmpty ownerIdValue || isEmpty assignmentIdValue
  then ret (mkResponse 400 (BodyError MISSING_IDS))
  else
    updated <- dbWrite UnlockUpdate
      (updateState ownerIdValue assignmentIdValue
         {| p_status := None; p_sample_count := None;
            p_window_started_at := None; p_last_event_at := None;
            p_next_run_at := None; p_last_generated_at := None;
            p_dirty := None; p_manual_locked := Some false;
            p_model := None; p_prompt_version := None;
            p_updated_at := Some (Some nowIso) |}) ;;
    match updated with
    | DbError message => ret (mkResponse 500 (BodyError message))
    | DbData _ => ret (mkResponse 200 BodySuccess)
    end.

(** *** [mergeDictionaryForOwner] *)

(** A group of the answer of the model: [canonical] when it is a string and,
    when [members] is an array, its entries. *)
Record RawGroup := mkRawGroup {
  rg_canonical : option jsstring;
  rg_members : option (list (option jsstring))
}.

(** [callGeminiText] on the merge prompt of an owner followed by
    [extractJsonFromText] and the reading of [parsed.groups]. *)
Variable callGeminiGroups : jsstring -> Outcome (list RawGroup).
(** [updateAbilityMappingForOwner]: it reads the dictionary and writes the
    ability tables only, which the store does not hold; it may throw. *)
Variable updateAbilityMappingForOwner : jsstring -> Outcome ().

Inductive MergeResult :=
| MergeSkipped (reason : jsstring) (labelCount : nat)
| MergeNothing (labelCount : nat)
| MergeDone (groups mergedCount canonicalCount : nat).

Definition normalizeGroup (group : RawGroup) : option (jsstring * list jsstring) :=
  let canonical := from_option trim [] (rg_canonical group) in
  let members :=
    match rg_members group with
    | Some items => filter nonEmpty ((fun item => from_option trim [] item) <$> items)
    | None => []
    end in
  if isEmpty canonical || bool_decide (members = []) then None
  else
    let members :=
      if existsb (fun item => bool_decide
                    (normalizeTagLabel item = normalizeTagLabel canonical)) members
      then members else canonical :: members in
    let uniqueMembers := uniqueList members in
    if (length uniqueMembers <? 2)%nat then None
    else Some (canonical, uniqueMembers).

(** The variables of the loop over the groups; a dictionary row is used
    through its id. *)
Record MergeAcc := mkMergeAcc {
  ma_idByNormalized : gmap jsstring N;
  ma_canonicalIds : gset N;
  ma_mergeUpdates : list (N * N);
  ma_mergedMemberIds : gset N
}.

Definition mergeMember (canonicalNormalized : jsstring) (canonicalId : N)
    (idByNormalized : gmap jsstring N)
    (acc : list (N * N) * gset N) (member : jsstring) : list (N * N) * gset N :=
  let memberNormalized := normalizeTagLabel member in
  if isEmpty memberNormalized
     || bool_decide (memberNormalized = canonicalNormalized)
  then acc
  else
    match idByNormalized !! memberNormalized with
    | None => acc
    | Some memberId =>
        if decide (memberId ∈ acc.2) then acc
        else (acc.1 ++ [(memberId, canonicalId)], {[memberId]} ∪ acc.2)
    end.

Definition insertDictionaryRow (ownerId : jsstring) (nowIso : Z)
    (label normalized : jsstring) (st : Store) : Store * TagDictionaryEntry :=
  let entry :=
    {| td_id := next_id st; td_owner_id := ownerId; td_label := label;
       td_normalized_label := normalized; td_status := active;
       td_merged_to_tag_id := None;
       td_created_at := nowIso; td_updated_at := nowIso |} in
  (with_tag_dictionary (tag_dictionary st ++ [entry]) (next_id st + 1)%N st,
   entry).

Definition mergeGroup (ownerId : jsstring) (nowIso : Z) (acc : MergeAcc)
    (group : jsstring * list jsstring) : M MergeAcc :=
  let canonicalNormalized := normalizeTagLabel group.1 in
  if isEmpty canonicalNormalized then ret acc
  else
    found <-
      (match ma_idByNormalized acc !! canonicalNormalized with
       | Some canonicalId => ret (canonicalId, ma_idByNormalized acc)
       | None =>
           canonicalRow <- orThrow (dbCall MergeInsertCanonical
             (insertDictionaryRow ownerId nowIso group.1 canonicalNormalized)) ;;
           ret (td_id canonicalRow,
                <[canonicalNormalized := td_id canonicalRow]>
                  (ma_idByNormalized acc))
       end) ;;
    let canonicalId := found.1 in
    let idByNormalized := found.2 in
    let merged :=
      foldl (mergeMember canonicalNormalized canonicalId idByNormalized)
        (ma_mergeUpdates acc, ma_mergedMemberIds acc) group.2 in
    ret {| ma_idByNormalized := idByNormalized;
           ma_canonicalIds := {[canonicalId]} ∪ ma_canonicalIds acc;
           ma_mergeUpdates := merged.1;
           ma_mergedMemberIds := merged.2 |}.

Fixpoint mergeGroups (ownerId : jsstring) (nowIso : Z) (acc : MergeAcc)
    (groups : list (jsstring * list jsstring)) : M MergeAcc :=
  match groups with
  | [] => ret acc
  | group :: rest =>
      acc' <- mergeGroup ownerId nowIso acc group ;;
      mergeGroups ownerId nowIso acc' rest
  end.

(** [.update({ status: 'active', merged_to_tag_id: null, .. }).in('id', ids)] *)
Definition updateCanonicals (ids : gset N) (nowIso : Z) (st : Store) : Store :=
  with_tag_dictionary
    ((fun row =>
        if decide (td_id row ∈ ids)
        then mkDictEntry (td_id row) (td_owner_id row) (td_label row)
               (td_normalized_label row) active None (td_created_at row) nowIso
        else row) <$> tag_dictionary st) (next_id st) st.

(** [.upsert(mergeUpdates.map(..))] on the primary key: every id is the id
    of a stored row. *)
Definition upsertMergedMembers (updates : list (N * N)) (nowIso : Z)
    (st : Store) : Store :=
  foldl (fun st update =>
           with_tag_dictionary
             ((fun row =>
                 if decide (td_id row = update.1)
                 then mkDictEntry (td_id row) (td_owner_id row) (td_label row)
                        (td_normalized_label row) merged (Some update.2)
                        (td_created_at row) nowIso
                 else row) <$> tag_dictionary st) (next_id st) st)
    st updates.

Definition mergeDictionaryForOwner (nowIso : Z) (ownerId : jsstring) :
    M MergeResult :=
  if isEmpty ownerId then throw (js "Missing owner_id for dictionary merge")
  else
    activeRows <- orThrow (dbRead MergeSelectActive (fun st =>
      List.filter
        (fun row => bool_decide (td_owner_id row = ownerId)
                    && bool_decide (td_status row = active))
        (tag_dictionary st))) ;;
    if (length activeRows <? DICT_MERGE_MIN_LABELS)%nat
    then ret (MergeSkipped (js "insufficient_labels") (length activeRows))
    else if (DICT_MERGE_MAX_LABELS <? length activeRows)%nat
    then ret (MergeSkipped (js "too_many_labels") (length activeRows))
    else
      (* the usage statistics only feed the prompt *)
      _ <- orThrow (dbRead MergeSelectUsage (aggregatesOfOwner ownerId)) ;;
      rawGroups <- (fun st => (st, callGeminiGroups ownerId)) ;;
      let idByNormalized :=
        jsMapOf
          ((fun row => (normalizedOf row, td_id row))
             <$> List.filter (fun row => negb (isEmpty (normalizedOf row)))
                   activeRows) in
      let groups := omap normalizeGroup rawGroups in
      match groups with
      | [] =>
          (fun st => (st, updateAbilityMappingForOwner ownerId)) ;;;
          ret (MergeNothing (length activeRows))
      | _ =>
          acc <- mergeGroups ownerId nowIso
                   (mkMergeAcc idByNormalized ∅ [] ∅) groups ;;
          (if decide (ma_canonicalIds acc = ∅) then ret ()
           else orThrow (dbWrite MergeUpdateCanonicals
                  (updateCanonicals (ma_canonicalIds acc) nowIso))) ;;;
          (match ma_mergeUpdates acc with
           | [] => ret ()
           | updates => orThrow (dbWrite MergeUpsertMembers
                          (upsertMergedMembers updates nowIso))
           end) ;;;
          (fun st => (st, updateAbilityMappingForOwner ownerId)) ;;;
          ret (MergeDone (length groups) (length (ma_mergeUpdates acc))
                 (size (ma_canonicalIds acc)))
      end.
End Pipeline.

(** ** [refreshAbilityAggregates]

    The totals are JavaScript numbers.  The rollup is stated over any
    arithmetic: a type of numbers with the conversion from integers, [+],
    [*], [Number.isFinite] and [Math.round]. *)
Section AbilityRollup.
Variable toLowerCase : jsstring -> jsstring.
Variable num : Type.
Variable num_of_Z : Z -> num.
Variables num_add num_mul : num -> num -> num.
Variable num_isFinite : num -> bool.
Variable Math_round : num -> Z.

(** [tag_ability_map], as far as the rollup reads it; the confidence is a
    number or [null]. *)
Record TagAbilityMapping := mkMapping {
  tam_tag_id : N;
  tam_ability_id : N;
  tam_confidence : option num
}.

(** [ability_aggregates], key [(owner_id, ability_id)]. *)
Record AbilityAggregate := mkAbilityAggregate {
  aa_owner_id : jsstring;
  aa_ability_id : N;
  aa_total_count : Z;
  aa_assignment_count : nat;
  aa_domain_count : nat;
  aa_generated_at : Z
}.

Record AbilityBucket := mkBucket {
  ab_total : num;
  ab_assignments : gset jsstring;
  ab_domains : gset jsstring
}.

(** The calls of [refreshAbilityAggregates]. *)
Inductive AbilityCall :=
| AbilitySelectMappings | AbilitySelectTags | AbilitySelectAggregates
| AbilitySelectAssignments | AbilityDelete | AbilityInsert.

Variable abilityFails : AbilityCall -> option jsstring.

(** [tagLabelById]: the normalized label of every dictionary row. *)
Definition tagLabelById (tagRows : list TagDictionaryEntry) : gmap N jsstring :=
  foldl (fun m row => <[td_id row := normalizedOf toLowerCase row]> m) ∅ tagRows.

(** [abilityByTag]: the mapping row of a normalized label; a later row
    replaces an earlier one. *)
Definition abilityByTag (tagRows : list TagDictionaryEntry)
    (mappingRows : list TagAbilityMapping) : gmap jsstring TagAbilityMapping :=
  foldl (fun m row =>
           match tagLabelById tagRows !! tam_tag_id row with
           | Some tagNormalized =>
               if isEmpty tagNormalized then m else <[tagNormalized := row]> m
           | None => m
           end) ∅ mappingRows.

(** [domainByAssignment] *)
Definition domainByAssignment (assignmentRows : list Assignment) :
    gmap jsstring jsstring :=
  jsMapOf ((fun row => (as_id row, orElse (as_domain row) (js "uncategorized")))
             <$> assignmentRows).

(** [Number.isFinite(Number(mapping.confidence)) ? .. : 1], where
    [Number(null)] is [0]. *)
Definition weightOf (mapping : TagAbilityMapping) : num :=
  let confidence := from_option id (num_of_Z 0) (tam_confidence mapping) in
  if num_isFinite confidence then confidence else num_of_Z 1.

(** The mapping that a row of the assignment aggregates contributes
    through, if any. *)
Definition mappingOf (byTag : gmap jsstring TagAbilityMapping)
    (row : AssignmentTagAggregate) : option TagAbilityMapping :=
  let normalized := normalizeTagLabel toLowerCase (agg_tag_label row) in
  if isEmpty normalized then None else byTag !! normalized.

(** [domainByAssignment.get(row.assignment_id) || 'uncategorized'] *)
Definition domainOf (byAssignment : gmap jsstring jsstring)
    (assignmentId : jsstring) : jsstring :=
  orElse (default [] (byAssignment !! assignmentId)) (js "uncategorized").

Definition emptyBucket : AbilityBucket := mkBucket (num_of_Z 0) ∅ ∅.

Definition addToAbilityBucket (byAssignment : gmap jsstring jsstring)
    (row : AssignmentTagAggregate) (mapping : TagAbilityMapping)
    (bucket : AbilityBucket) : AbilityBucket :=
  {| ab_total :=
       num_add (ab_total bucket)
         (num_mul (num_of_Z (agg_tag_count row)) (weightOf mapping));
     ab_assignments :=
       if isEmpty (agg_assignment_id row) then ab_assignments bucket
       else {[agg_assignment_id row]} ∪ ab_assignments bucket;
     ab_domains :=
       if isEmpty (agg_assignment_id row) then ab_domains bucket
       else {[domainOf byAssignment (agg_assignment_id row)]} ∪ ab_domains bucket |}.

(** [abilityStats], a [Map] in insertion order. *)
Definition updateAbilityStats (abilityId : N) (f : AbilityBucket -> AbilityBucket)
    (stats : list (N * AbilityBucket)) : list (N * AbilityBucket) :=
  assocUpdate abilityId emptyBucket f stats.

Definition abilityStatsOf (byTag : gmap jsstring TagAbilityMapping)
    (byAssignment : gmap jsstring jsstring)
    (aggRows : list AssignmentTagAggregate) : list (N * AbilityBucket) :=
  foldl (fun stats row =>
           match mappingOf byTag row with
           | None => stats
           | Some mapping =>
               updateAbilityStats (tam_ability_id mapping)
                 (addToAbilityBucket byAssignment row mapping) stats
           end) [] aggRows.

Definition abilityRowsOf (ownerId : jsstring) (nowIso : Z)
    (stats : list (N * AbilityBucket)) : list AbilityAggregate :=
  (fun entry =>
     {| aa_owner_id := ownerId;
        aa_ability_id := entry.1;
        aa_total_count := Z.max 1 (Math_round (ab_total entry.2));
        aa_assignment_count := size (ab_assignments entry.2);
        aa_domain_count := size (ab_domains entry.2);
        aa_generated_at := nowIso |}) <$> stats.

(** The rows that a rollup hands to the insert. *)
Definition abilityRollup (ownerId : jsstring) (nowIso : Z)
    (mappingRows : list TagAbilityMapping) (tagRows : list TagDictionaryEntry)
    (aggRows : list AssignmentTagAggregate) (assignmentRows : list Assignment) :
    list AbilityAggregate :=
  abilityRowsOf ownerId nowIso
    (abilityStatsOf (abilityByTag tagRows mappingRows)
       (domainByAssignment assignmentRows) aggRows).

(** *** What the rollup is expected to compute *)

(** The rows of the assignment aggregates whose tag is mapped to an
    ability. *)
Definition contributions (byTag : gmap jsstring TagAbilityMapping)
    (abilityId : N) (aggRows : list AssignmentTagAggregate) :
    list AssignmentTagAggregate :=
  filter (fun row => tam_ability_id <$> mappingOf byTag row = Some abilityId)
    aggRows.

(** The confidence of a mapping, 1 when it is absent. *)
Definition confidenceOr1 (mapping : TagAbilityMapping) : num :=
  default (num_of_Z 1) (tam_confidence mapping).

(** The sum, row after row, of [tag_count * weight]. *)
Definition weightedSum (weight : TagAbilityMapping -> num)
    (byTag : gmap jsstring TagAbilityMapping)
    (rows : list AssignmentTagAggregate) : num :=
  foldl (fun total row =>
           match mappingOf byTag row with
           | Some mapping =>
               num_add total
                 (num_mul (num_of_Z (agg_tag_count row)) (weight mapping))
           | None => total
           end) (num_of_Z 0) rows.

Definition assignmentsOf (rows : list AssignmentTagAggregate) : gset jsstring :=
  list_to_set (filter nonEmpty (agg_assignment_id <$> rows)).

Definition domainsOf (byAssignment : gmap jsstring jsstring)
    (rows : list AssignmentTagAggregate) : gset jsstring :=
  list_to_set
    (domainOf byAssignment <$> filter nonEmpty (agg_assignment_id <$> rows)).

(** The bucket that the contributing rows of an ability add up to. *)
Definition bucketOf (byTag : gmap jsstring TagAbilityMapping)
    (byAssignment : gmap jsstring jsstring)
    (rows : list AssignmentTagAggregate) : AbilityBucket :=
  mkBucket (weightedSum weightOf byTag rows) (assignmentsOf rows)
    (domainsOf byAssignment rows).

(** [refreshAbilityAggregates] on the four tables it reads, threading
    [ability_aggregates]. *)
Definition refreshAbilityAggregates (ownerId : jsstring) (nowIso : Z)
    (tag_ability_map : list (jsstring * TagAbilityMapping))
    (tag_dictionary : list TagDictionaryEntry)
    (assignment_tag_aggregates : list AssignmentTagAggregate)
    (assignments : list Assignment)
    (ability_aggregates : list AbilityAggregate) :
    list AbilityAggregate * Outcome () :=
  if isEmpty ownerId then (ability_aggregates, Ok ())
  else
    match abilityFails AbilitySelectMappings, abilityFails AbilitySelectTags,
          abilityFails AbilitySelectAggregates,
          abilityFails AbilitySelectAssignments with
    | Some message, _, _, _
    | None, Some message, _, _
    | None, None, Some message, _
    | None, None, None, Some message => (ability_aggregates, Throw message)
    | None, None, None, None =>
        let mappingRows :=
          snd <$> List.filter (fun row => bool_decide (row.1 = ownerId))
                    tag_ability_map in
        let tagRows :=
          List.filter (fun row => bool_decide (td_owner_id row = ownerId))
            tag_dictionary in
        let aggRows :=
          List.filter (fun row => bool_decide (agg_owner_id row = ownerId))
            assignment_tag_aggregates in
        let assignmentIds :=
          List.filter (fun a => negb (isEmpty a))
            (agg_assignment_id <$> aggRows) in
        let assignmentRows :=
          List.filter
            (fun row => bool_decide (as_owner_id row = ownerId)
                        && bool_decide (as_id row ∈ assignmentIds))
            assignments in
        let rows :=
          abilityRollup ownerId nowIso mappingRows tagRows aggRows
            assignmentRows in
        let deleted :=
          match abilityFails AbilityDelete with
          | Some _ => ability_aggregates
          | None =>
              List.filter (fun row => negb (bool_decide (aa_owner_id row = ownerId)))
                ability_aggregates
          end in
        match rows with
        | [] => (deleted, Ok ())
        | _ =>
            match abilityFails AbilityInsert with
            | Some message => (deleted, Throw message)
            | None => (deleted ++ rows, Ok ())
            end
        end
    end.
End AbilityRollup.

(** ** Invariants of the tables *)



(** A graded-submission event: its time, the owner and the assignments of
    the graded submissions. *)
Record GradedEvent := mkGradedEvent {
  ev_time : Z;
  ev_owner : jsstring;
  ev_assignments : list jsstring
}.

Definition afterEvents (fails : DbCall -> option jsstring)
    (events : list GradedEvent) (st : Store) : Store :=
  foldl (fun st ev =>
           (touchAssignmentTagStates fails (ev_time ev) (ev_owner ev)
              (ev_assignments ev) st).1) st events.

(** No two active entries of an owner share a normalized label. *)
Definition activeLabelsUnique (ownerId : jsstring)
    (dictionary : list TagDictionaryEntry) : Prop :=
  NoDup (td_normalized_label
           <$> List.filter
                 (fun row => bool_decide (td_owner_id row = ownerId)
                             && bool_decide (td_status row = active))
                 dictionary).




(** The rows of an assignment in [assignment_tag_state]; the key of the table
    allows one at most. *)
Definition stateRowsOf (o a : jsstring) (st : Store) : list AssignmentTagState :=
  List.filter (isStateOf o a) (assignment_tag_state st).

Definition keyUnique (o a : jsstring) (st : Store) : Prop :=
  (length (stateRowsOf o a st) <= 1)%nat.

(** What an upsert leaves as the rows of an assignment. *)
Definition upserted (o a : jsstring) (p : TagStatePatch)
    (rows : list AssignmentTagState) : list AssignmentTagState :=
  match rows with
  | [] => [applyTagStatePatch p (blankTagState o a)]
  | _ => applyTagStatePatch p <$> rows
  end.


(** A handler keeps a relation between the store it starts from and the
    store it leaves, whether it returns or throws. *)
Definition keeps {A} (R : Store -> Store -> Prop) (c : M A) : Prop :=
  forall st, R st (c st).1.

(** The aggregate rows of an assignment are the same in both stores. *)
Definition sameAggregatesOf (o a : jsstring) (st st' : Store) : Prop :=
  aggregatesOf o a st' = aggregatesOf o a st.

(** The whole aggregate table is the same. *)
Definition sameAggregateTable (st st' : Store) : Prop :=
  assignment_tag_aggregates st' = assignment_tag_aggregates st.

(** ** Normal forms of the normalised strings *)

(** The second half of [trim]: the white space at the end is dropped. *)
Definition trimEnd (s : jsstring) : jsstring :=
  reverse (trimStart (reverse s)).

(** White space occurs only as single spaces (U+0020), never two in a row;
    [inRun] tells that white space precedes the string. *)
Fixpoint singleSpaced (inRun : bool) (s : jsstring) : bool :=
  match s with
  | [] => true
  | c :: r =>
      if isWhiteSpace c
      then negb inRun && (c =? 32)%N && singleSpaced true r
      else singleSpaced false r
  end.


(** ** What a run leaves of an assignment *)

(** The state rows of an assignment are the same in both stores. *)
Definition sameStateRowsOf (o a : jsstring) (st st' : Store) : Prop :=
  stateRowsOf o a st' = stateRowsOf o a st.

(** ** The loop of the dictionary merge *)

(** The updates of the loop over the groups name pairwise distinct members,
    the ones recorded in [mergedMemberIds], and point at canonicals. *)
Definition mergeInvariant (acc : MergeAcc) : Prop :=
  NoDup (ma_mergeUpdates acc).*1
  /\ (forall id, id ∈ ma_mergedMemberIds acc <-> id ∈ (ma_mergeUpdates acc).*1)
  /\ forall update, update ∈ ma_mergeUpdates acc ->
       update.2 ∈ ma_canonicalIds acc.

(** ** The answer-key cache ([api/proxy.js])

    [answerKeyCache] is a [Map] from [`${userId}:${hash}`] to the answer key
    and the time at which it expires; the functions thread it. *)
Section AnswerKeyCache.
Context {AnswerKey : Type}.

Record CacheEntry := mkCacheEntry {
  ce_answerKey : AnswerKey;
  ce_expiresAt : Z
}.

Definition ANSWER_KEY_CACHE_TTL : Z := 30 * 60 * 1000.

(** [`${userId}:${hash}`] *)
Definition cacheKeyOf (userId hash : jsstring) : jsstring :=
  userId ++ 58%N :: hash.

Definition cacheAnswerKey (now : Z) (userId hash : jsstring)
    (answerKey : AnswerKey) (answerKeyCache : gmap jsstring CacheEntry) :
    gmap jsstring CacheEntry :=
  <[cacheKeyOf userId hash :=
      mkCacheEntry answerKey (now + ANSWER_KEY_CACHE_TTL)]> answerKeyCache.

(** The cache it leaves and the answer key, [None] for [null]. *)
Definition getCachedAnswerKey (now : Z) (userId hash : jsstring)
    (answerKeyCache : gmap jsstring CacheEntry) :
    gmap jsstring CacheEntry * option AnswerKey :=
  let cacheKey := cacheKeyOf userId hash in
  match answerKeyCache !! cacheKey with
  | None => (answerKeyCache, None)
  | Some cached =>
      if ce_expiresAt cached <? now
      then (delete cacheKey answerKeyCache, None)
      else (answerKeyCache, Some (ce_answerKey cached))
  end.

(** The entries with [now > value.expiresAt] are deleted. *)
Definition cleanupExpiredCache (now : Z)
    (answerKeyCache : gmap jsstring CacheEntry) : gmap jsstring CacheEntry :=
  filter (fun entry => now <= ce_expiresAt entry.2) answerKeyCache.
End AnswerKeyCache.
Arguments CacheEntry : clear implicits.

(** ** The sync of the client tables ([api/data/[action].js])

    The tables that the client mirrors, as far as the sync reads them, and
    the tombstones of [deleted_records]. *)

Inductive SyncTable := Classrooms | Students | Assignments | Submissions | Folders.

#[global] Instance SyncTable_eq_dec : EqDecision SyncTable.
Proof. solve_decision. Defined.

(** A row of a mirrored table; [updated_at] as [toMillis] reads it back. *)
Record SyncedRow := mkSyncedRow {
  sy_table : SyncTable;
  sy_id : jsstring;
  sy_owner_id : jsstring;
  sy_updated_at : option Z
}.

(** [deleted_records], key [(owner_id, table_name, record_id)]. *)
Record DeletedRecord := mkDeletedRecord {
  dr_owner_id : jsstring;
  dr_table_name : SyncTable;
  dr_record_id : jsstring;
  dr_deleted_at : Z
}.

Record SyncDb := mkSyncDb {
  synced_rows : list SyncedRow;
  deleted_records : list DeletedRecord
}.

(** A JSON value read as a time: a number of milliseconds, a string, or
    anything else. *)
Inductive JsTime :=
| TimeMs (ms : Z)
| TimeText (text : jsstring)
| TimeOther.

(** A JSON value read as an identifier: a string, another value that is
    truthy, or another value that is falsy. *)
Inductive JsField :=
| FieldString (s : jsstring)
| FieldTruthy
| FieldFalsy.

(** An entry of a list of deletions: a string, an object (its [id],
    [recordId] and [deletedAt]), or anything else. *)
Inductive DeletedItem :=
| DeletedString (id : jsstring)
| DeletedObject (id recordId : JsField) (deletedAt : JsTime)
| DeletedOther.

(** The calls of the database client in the POST branch of [handleSync], per
    table. *)
Inductive SyncCall :=
| SyncUpsertTombstones (tableName : SyncTable)
| SyncDeleteRows (tableName : SyncTable)
| SyncFetchExisting (tableName : SyncTable)
| SyncFetchDeleted (tableName : SyncTable).

(** The range of times that a [Date] holds; [toISOString] throws outside. *)
Definition validDate (ms : Z) : bool :=
  (-8640000000000000 <=? ms) && (ms <=? 8640000000000000).

Definition INVALID_TIME : jsstring := js "Invalid time value".

Section Sync.
(** [Date.parse], [None] for [NaN]. *)
Variable Date_parse : jsstring -> option Z.
Variable syncFails : SyncCall -> option jsstring.

(** [toMillis] *)
Definition toMillis (value : JsTime) : option Z :=
  match value with
  | TimeMs ms => Some ms
  | TimeText text => Date_parse text
  | TimeOther => None
  end.

(** [a || b] *)
Definition orField (a b : JsField) : JsField :=
  match a with
  | FieldString [] | FieldFalsy => b
  | _ => a
  end.

(** [normalizeDeletedList]; [items] is [None] when it is not an array. *)
Definition normalizeDeletedList (items : option (list DeletedItem)) :
    list (jsstring * option Z) :=
  match items with
  | None => []
  | Some items =>
      omap (fun item =>
              match item with
              | DeletedString id => Some (id, None)
              | DeletedObject id recordId deletedAt =>
                  match orField id recordId with
                  | FieldString (c :: s) => Some (c :: s, toMillis deletedAt)
                  | _ => None
                  end
              | DeletedOther => None
              end) items
  end.

Definition isTombstoneOf (ownerId : jsstring) (tableName : SyncTable)
    (recordId : jsstring) (row : DeletedRecord) : bool :=
  bool_decide (dr_owner_id row = ownerId)
  && bool_decide (dr_table_name row = tableName)
  && bool_decide (dr_record_id row = recordId).

(** [.upsert(row, { onConflict: 'owner_id,table_name,record_id' })] *)
Definition upsertTombstone (rows : list DeletedRecord) (row : DeletedRecord) :
    list DeletedRecord :=
  let same := isTombstoneOf (dr_owner_id row) (dr_table_name row)
                (dr_record_id row) in
  if existsb same rows
  then (fun old => if same old then row else old) <$> rows
  else rows ++ [row].

(** [list.map(..)] of [applyDeletes]: [toIsoTimestamp(item.deletedAt) ??
    nowIso], where [toISOString] throws on a time out of range. *)
Fixpoint deleteRowsOf (nowIso : Z) (userId : jsstring) (tableName : SyncTable)
    (entries : list (jsstring * option Z)) : Outcome (list DeletedRecord) :=
  match entries with
  | [] => Ok []
  | (id, deletedAt) :: rest =>
      if from_option validDate true deletedAt then
        match deleteRowsOf nowIso userId tableName rest with
        | Ok rows =>
            Ok (mkDeletedRecord userId tableName id (default nowIso deletedAt)
                  :: rows)
        | Throw message => Throw message
        end
      else Throw INVALID_TIME
  end.

(** [applyDeletes]: the tombstones are written, then the rows are deleted.
    The files of the submissions, which are removed first, are not part of
    the model; what their removal answers or throws is only logged. *)
Definition applyDeletes (nowIso : Z) (userId : jsstring) (tableName : SyncTable)
    (items : option (list DeletedItem)) (db : SyncDb) : SyncDb * Outcome () :=
  match normalizeDeletedList items with
  | [] => (db, Ok ())
  | entries =>
      match deleteRowsOf nowIso userId tableName entries with
      | Throw message => (db, Throw message)
      | Ok deleteRows =>
          match syncFails (SyncUpsertTombstones tableName) with
          | Some message => (db, Throw message)
          | None =>
              let db1 :=
                mkSyncDb (synced_rows db)
                  (foldl upsertTombstone (deleted_records db) deleteRows) in
              match syncFails (SyncDeleteRows tableName) with
              | Some message => (db1, Throw message)
              | None =>
                  (mkSyncDb
                     (List.filter
                        (fun row =>
                           negb (bool_decide (sy_table row = tableName)
                                 && bool_decide (sy_id row ∈ entries.*1)
                                 && bool_decide (sy_owner_id row = userId)))
                        (synced_rows db1))
                     (deleted_records db1),
                   Ok ())
              end
          end
      end
  end.

(** [fetchExistingUpdatedMap], after its check of the error. *)
Definition fetchExistingUpdatedMap (tableName : SyncTable) (ids : list jsstring)
    (ownerId : jsstring) (db : SyncDb) : gmap jsstring (option Z) :=
  match ids with
  | [] => ∅
  | _ =>
      jsMapOf
        ((fun row => (sy_id row, sy_updated_at row))
           <$> List.filter
                 (fun row => bool_decide (sy_table row = tableName)
                             && bool_decide (sy_owner_id row = ownerId)
                             && bool_decide (sy_id row ∈ ids))
                 (synced_rows db))
  end.

(** [fetchDeletedSet], after its check of the error. *)
Definition fetchDeletedSet (tableName : SyncTable) (ids : list jsstring)
    (ownerId : jsstring) (db : SyncDb) : gset jsstring :=
  match ids with
  | [] => ∅
  | _ =>
      list_to_set
        (dr_record_id
           <$> List.filter
                 (fun row => bool_decide (dr_owner_id row = ownerId)
                             && bool_decide (dr_table_name row = tableName)
                             && bool_decide (dr_record_id row ∈ ids))
                 (deleted_records db))
  end.

(** A truthy time: neither [null] nor [0]. *)
Definition truthyTime (t : option Z) : bool :=
  match t with
  | Some ms => negb (ms =? 0)
  | None => false
  end.

Section BuildUpsertRows.
(** An item of the request: [item?.id] (empty when it is falsy),
    [item.updatedAt ?? item.updated_at], and the row that the mapper of
    its table makes of it. *)
Context {Item Row : Type}.
Variable itemId : Item -> jsstring.
Variable itemUpdatedAt : Item -> JsTime.
Variable mapper : Item -> Row.

(** The test of the loop: the item is written. *)
Definition keepsItem (existingMap : gmap jsstring (option Z))
    (deletedSet : gset jsstring) (item : Item) : bool :=
  if decide (itemId item ∈ deletedSet) then false
  else
    match existingMap !! itemId item with
    | None => true
    | Some existingUpdatedAt =>
        let incomingUpdatedAt := toMillis (itemUpdatedAt item) in
        negb (negb (truthyTime incomingUpdatedAt)
              || truthyTime existingUpdatedAt
                 && bool_decide (default 0 incomingUpdatedAt
                                 <= default 0 existingUpdatedAt))
    end.

(** [buildUpsertRows].  The two reads run side by side; when both fail
    the message is taken from the first. *)
Definition buildUpsertRows (userId : jsstring) (tableName : SyncTable)
    (items : list Item) (db : SyncDb) : Outcome (list Row) :=
  match List.filter (fun item => negb (isEmpty (itemId item))) items with
  | [] => Ok []
  | filtered =>
      let ids := itemId <$> filtered in
      match syncFails (SyncFetchExisting tableName),
            syncFails (SyncFetchDeleted tableName) with
      | Some message, _ | None, Some message => Throw message
      | None, None =>
          let existingMap := fetchExistingUpdatedMap tableName ids userId db in
          let deletedSet := fetchDeletedSet tableName ids userId db in
          Ok (mapper <$> List.filter (keepsItem existingMap deletedSet) filtered)
      end
  end.
End BuildUpsertRows.

(** A tombstone of the record is stored. *)
Definition tombstoned (ownerId : jsstring) (tableName : SyncTable)
    (recordId : jsstring) (db : SyncDb) : Prop :=
  exists row, row ∈ deleted_records db
              /\ isTombstoneOf ownerId tableName recordId row = true.

(** The time of the stored row of a record, as the map of
    [fetchExistingUpdatedMap] gives it: that of the last row with the id. *)
Definition storedUpdatedAt (ownerId : jsstring) (tableName : SyncTable)
    (recordId : jsstring) (db : SyncDb) : option (option Z) :=
  last (sy_updated_at
          <$> List.filter
                (fun row => bool_decide (sy_table row = tableName)
                            && bool_decide (sy_owner_id row = ownerId)
                            && bool_decide (sy_id row = recordId))
                (synced_rows db)).

(** The deletions of a request, table after table. *)
Definition applyAllDeletes (nowIso : Z) (userId : jsstring)
    (deletions : list (SyncTable * option (list DeletedItem))) (db : SyncDb) :
    SyncDb :=
  foldl (fun db deletion =>
           (applyDeletes nowIso userId deletion.1 deletion.2 db).1)
    db deletions.
End Sync.

(** ** [refreshDomainTagAggregates] ([api/admin/[action].js])

    The rollup of the assignment aggregates of a domain; the counts are
    integer columns, so the totals are integers and [Math.round] leaves them
    as they are. *)

(** [assignments], with its nullable [domain]. *)
Record AssignmentDomain := mkAssignmentDomain {
  ad_id : jsstring;
  ad_owner_id : jsstring;
  ad_domain : option jsstring
}.

(** [domain_tag_aggregates], key [(owner_id, domain, tag_label)]. *)
Record DomainTagAggregate := mkDomainAggregate {
  da_owner_id : jsstring;
  da_domain : jsstring;
  da_tag_label : jsstring;
  da_tag_count : Z;
  da_assignment_count : nat;
  da_sample_count : Z;
  da_generated_at : Z;
  da_model : jsstring;
  da_prompt_version : jsstring;
  da_updated_at : Z
}.

Record DomainBucket := mkDomainBucket {
  dbk_total : Z;
  dbk_assignments : gset jsstring
}.

(** The calls of [refreshDomainTagAggregates]. *)
Inductive DomainCall :=
| DomainSelectAssignments | DomainDelete | DomainSelectTags
| DomainSelectStates | DomainInsert.

Definition DOMAIN_AGG_MODEL : jsstring := js "rule".
Definition DOMAIN_AGG_PROMPT_VERSION : jsstring := js "v1.0".
Definition UNCATEGORIZED : jsstring := js "uncategorized".

(** The sum of a list of integers, from the left as [reduce] goes. *)
Definition sumZ (l : list Z) : Z := foldl Z.add 0 l.

Section DomainRollup.
Variable domainFails : DomainCall -> option jsstring.

(** The filter on [domain] of the query of the assignments. *)
Definition inDomain (domain : jsstring) (row : AssignmentDomain) : bool :=
  if bool_decide (domain = UNCATEGORIZED)
  then match ad_domain row with
       | None => true
       | Some d => bool_decide (d = UNCATEGORIZED)
       end
  else bool_decide (ad_domain row = Some domain).

Definition domainAssignmentIds (ownerId domain : jsstring)
    (assignmentRows : list AssignmentDomain) : list jsstring :=
  List.filter (fun id => negb (isEmpty id))
    (ad_id <$> List.filter
                 (fun row => bool_decide (ad_owner_id row = ownerId)
                             && inDomain domain row)
                 assignmentRows).

Definition isDomainRowOf (ownerId domain : jsstring) (row : DomainTagAggregate) :
    bool :=
  bool_decide (da_owner_id row = ownerId) && bool_decide (da_domain row = domain).

Definition emptyDomainBucket : DomainBucket := mkDomainBucket 0 ∅.

Definition addToDomainBucket (row : AssignmentTagAggregate)
    (bucket : DomainBucket) : DomainBucket :=
  {| dbk_total := dbk_total bucket + agg_tag_count row;
     dbk_assignments :=
       if isEmpty (agg_assignment_id row) then dbk_assignments bucket
       else {[agg_assignment_id row]} ∪ dbk_assignments bucket |}.

(** [tagMap], a [Map] in insertion order. *)
Definition domainTagMap (tagRows : list AssignmentTagAggregate) :
    list (jsstring * DomainBucket) :=
  foldl (fun tagMap row =>
           if isEmpty (agg_tag_label row) then tagMap
           else assocUpdate (agg_tag_label row) emptyDomainBucket
                  (addToDomainBucket row) tagMap) [] tagRows.

(** [(stateRows || []).reduce((sum, row) => sum + (Number(row.sample_count) || 0), 0)] *)
Definition sampleTotalOf (stateRows : list AssignmentTagState) : Z :=
  sumZ ((fun row => default 0 (st_sample_count row)) <$> stateRows).

Definition domainRowsOf (ownerId domain : jsstring) (nowIso sampleTotal : Z)
    (tagMap : list (jsstring * DomainBucket)) : list DomainTagAggregate :=
  (fun entry =>
     {| da_owner_id := ownerId; da_domain := domain;
        da_tag_label := entry.1;
        da_tag_count := Z.max 1 (dbk_total entry.2);
        da_assignment_count := size (dbk_assignments entry.2);
        da_sample_count := sampleTotal;
        da_generated_at := nowIso;
        da_model := DOMAIN_AGG_MODEL;
        da_prompt_version := DOMAIN_AGG_PROMPT_VERSION;
        da_updated_at := nowIso |}) <$> tagMap.

(** The aggregate rows and the state rows that the rollup reads. *)
Definition domainTagRows (ownerId : jsstring) (assignmentIds : list jsstring)
    (assignment_tag_aggregates : list AssignmentTagAggregate) :
    list AssignmentTagAggregate :=
  List.filter (fun row => bool_decide (agg_owner_id row = ownerId)
                          && bool_decide (agg_assignment_id row ∈ assignmentIds))
    assignment_tag_aggregates.

Definition domainStateRows (ownerId : jsstring) (assignmentIds : list jsstring)
    (assignment_tag_state : list AssignmentTagState) : list AssignmentTagState :=
  List.filter (fun row => bool_decide (st_owner_id row = ownerId)
                          && bool_decide (st_assignment_id row ∈ assignmentIds))
    assignment_tag_state.

(** [refreshDomainTagAggregates] on the three tables it reads, threading
    [domain_tag_aggregates].  What the delete answers is not looked at. *)
Definition refreshDomainTagAggregates (ownerId domain : jsstring) (nowIso : Z)
    (assignmentRows : list AssignmentDomain)
    (assignment_tag_aggregates : list AssignmentTagAggregate)
    (assignment_tag_state : list AssignmentTagState)
    (domain_tag_aggregates : list DomainTagAggregate) :
    list DomainTagAggregate * Outcome () :=
  if isEmpty ownerId || isEmpty domain then (domain_tag_aggregates, Ok ())
  else
    match domainFails DomainSelectAssignments with
    | Some message => (domain_tag_aggregates, Throw message)
    | None =>
        let assignmentIds := domainAssignmentIds ownerId domain assignmentRows in
        let deleted :=
          match domainFails DomainDelete with
          | Some _ => domain_tag_aggregates
          | None =>
              List.filter (fun row => negb (isDomainRowOf ownerId domain row))
                domain_tag_aggregates
          end in
        match assignmentIds with
        | [] => (deleted, Ok ())
        | _ =>
            match domainFails DomainSelectTags with
            | Some message => (deleted, Throw message)
            | None =>
                match domainFails DomainSelectStates with
                | Some message => (deleted, Throw message)
                | None =>
                    let tagRows :=
                      domainTagRows ownerId assignmentIds
                        assignment_tag_aggregates in
                    let stateRows :=
                      domainStateRows ownerId assignmentIds
                        assignment_tag_state in
                    let sampleTotal := sampleTotalOf stateRows in
                    match domainTagMap tagRows with
                    | [] => (deleted, Ok ())
                    | tagMap =>
                        match domainFails DomainInsert with
                        | Some message => (deleted, Throw message)
                        | None =>
                            (deleted
                               ++ domainRowsOf ownerId domain nowIso sampleTotal
                                    tagMap,
                             Ok ())
                        end
                    end
                end
            end
        end
    end.

(** The rows of a label among the aggregate rows read. *)
Definition rowsOfLabel (label : jsstring) (tagRows : list AssignmentTagAggregate) :
    list AssignmentTagAggregate :=
  filter (fun row => agg_tag_label row = label) tagRows.

(** The bucket that the rows of a label add up to. *)
Definition domainBucketOf (rows : list AssignmentTagAggregate) : DomainBucket :=
  mkDomainBucket (sumZ (agg_tag_count <$> rows))
    (list_to_set (filter nonEmpty (agg_assignment_id <$> rows))).
End DomainRollup.

(** ** [processDictionaryMergeQueue] ([api/admin/[action].js])

    The columns [last_merged_at], [model] and [prompt_version] of
    [tag_dictionary_state], which the queue writes and nothing reads, are
    not part of the store. *)

(** The calls of the queue. *)
Inductive QueueCall :=
| QueueSelectStates | QueueRunningUpdate | QueueIdleUpdate | QueueFailedUpdate.

Section MergeQueue.
Variable toLowerCase : jsstring -> jsstring.
Variable fails : DbCall -> option jsstring.
Variable callGeminiGroups : jsstring -> Outcome (list RawGroup).
Variable updateAbilityMappingForOwner : jsstring -> Outcome ().
Variable queueFails : QueueCall -> option jsstring.

Definition queueCall {A} (call : QueueCall) (op : Store -> Store * A) :
    M (DbResult A) :=
  fun st =>
    match queueFails call with
    | Some message => (st, Ok (DbError message))
    | None => let '(st', a) := op st in (st', Ok (DbData a))
    end.

(** [.eq('status', 'pending')] and, when [ownerIds] is a non-empty array,
    [.in('owner_id', ownerIds)]. *)
Definition queueSelects (ownerIds : option (list jsstring))
    (row : TagDictionaryState) : bool :=
  match ds_status row with merge_pending => true | _ => false end
  && match ownerIds with
     | Some (id :: ids) => bool_decide (ds_owner_id row ∈ id :: ids)
     | _ => true
     end.

(** The filter that keeps the due states. *)
Definition isMergeDue (force : bool) (nowMs : Z) (row : TagDictionaryState) :
    bool :=
  if force then true
  else match ds_next_run_at row with
       | None => true
       | Some nextRunAtMs => nextRunAtMs <=? nowMs
       end.

(** [.update(..).eq('owner_id', ..)], with [.eq('status', 'pending')] when
    [onlyPending]. *)
Definition updateMergeState (ownerId : jsstring) (onlyPending : bool)
    (status : MergeStatus) (errorMessage : option jsstring) (nowIso : Z)
    (st : Store) : Store :=
  with_tag_dictionary_state
    ((fun row =>
        if bool_decide (ds_owner_id row = ownerId)
           && (negb onlyPending
               || match ds_status row with merge_pending => true | _ => false end)
        then mkDictState (ds_owner_id row) status (ds_next_run_at row)
               errorMessage nowIso
        else row) <$> tag_dictionary_state st) st.

(** One turn of the loop over the due states: the owner, and the result of
    the merge or the message of the failure. *)
Definition processMergeState (nowIso : Z) (stateRow : TagDictionaryState) :
    M (jsstring * Outcome MergeResult) :=
  let ownerId := ds_owner_id stateRow in
  runningUpdate <- queueCall QueueRunningUpdate (fun st =>
    (updateMergeState ownerId true merge_running None nowIso st, ())) ;;
  match runningUpdate with
  | DbError message => ret (ownerId, Throw message)
  | DbData _ =>
      tryCatch
        (mergeResult <- mergeDictionaryForOwner toLowerCase fails callGeminiGroups
                          updateAbilityMappingForOwner nowIso ownerId ;;
         _ <- queueCall QueueIdleUpdate (fun st =>
                (updateMergeState ownerId false merge_idle None nowIso st, ())) ;;
         ret (ownerId, Ok mergeResult))
        (fun errorMessage =>
           _ <- queueCall QueueFailedUpdate (fun st =>
                  (updateMergeState ownerId false merge_failed
                     (Some errorMessage) nowIso st, ())) ;;
           ret (ownerId, Throw errorMessage))
  end.

Fixpoint processMergeStates (nowIso : Z) (dueStates : list TagDictionaryState) :
    M (list (jsstring * Outcome MergeResult)) :=
  match dueStates with
  | [] => ret []
  | stateRow :: rest =>
      result <- processMergeState nowIso stateRow ;;
      results <- processMergeStates nowIso rest ;;
      ret (result :: results)
  end.

Definition processDictionaryMergeQueue (ownerIds : option (list jsstring))
    (force : bool) (nowIso : Z) : M (list (jsstring * Outcome MergeResult)) :=
  selected <- queueCall QueueSelectStates (fun st =>
    (st, List.filter (queueSelects ownerIds) (tag_dictionary_state st))) ;;
  match selected with
  | DbError message => throw message
  | DbData states =>
      processMergeStates nowIso (List.filter (isMergeDue force nowIso) states)
  end.
End MergeQueue.

(** The table [tag_dictionary_state] is the same in both stores. *)
Definition sameDictionaryStates (st st' : Store) : Prop :=
  tag_dictionary_state st' = tag_dictionary_state st.
(** ** Issue statistics of scenario B: six students, one phrase each. *)
Definition phraseSubmission (n : N) (phrase : string) : Submission :=
  {| sub_id := [n]; sub_owner_id := js "teacher"; sub_assignment_id := js "hw1";
     sub_student_id := 48%N :: [n];
     sub_grading_result := GradingParsed (mkGrading [] [js phrase]);
     sub_status := js "graded" |}.

Definition scenarioB : list Submission :=
  [ phraseSubmission 1 "missing units"; phraseSubmission 2 "missing  units ";
    phraseSubmission 3 "sign error"; phraseSubmission 4 "wrong formula";
    phraseSubmission 5 "sign error"; phraseSubmission 6 "sign error" ].

(** ** A class of six graded submissions *)

Definition noFaults : DbCall -> option jsstring := fun _ => None.

Definition failsOnly (call : DbCall) (message : string) :
    DbCall -> option jsstring :=
  fun c => if decide (c = call) then Some (js message) else None.

Definition teacher : jsstring := js "teacher".
Definition hw1 : jsstring := js "hw1".

Definition rawTag (label : string) (count : Z) : RawTag :=
  mkRawTag (Some (js label)) None (Some count) None.

Definition pendingState : AssignmentTagState :=
  {| st_owner_id := teacher; st_assignment_id := hw1; st_status := pending;
     st_sample_count := None; st_window_started_at := Some 0;
     st_last_event_at := Some 0; st_next_run_at := Some 300000;
     st_last_generated_at := None; st_dirty := false;
     st_manual_locked := false; st_model := []; st_prompt_version := [];
     st_updated_at := Some 0 |}.

Definition oldAggregate : AssignmentTagAggregate :=
  mkAggregate teacher hw1 (js "old tag") 4 None 0
    (js "gemini-3-flash-preview") (js "v1.0") 0.

Definition classStore : Store :=
  mkStore scenarioB [mkAssignment hw1 teacher (js "math")] [] [pendingState]
    [oldAggregate] [] [] 1.

Definition answerTags : jsstring -> jsstring -> Outcome (list RawTag) :=
  fun _ _ => Ok [rawTag "Units" 9; rawTag "Signs" 3].

(** A run started at minute 25 on a window opened at minute 0; a submission
    was graded at minute 26, during the run. *)
Definition minutes (n : Z) : Z := n * 60 * 1000.

Definition dirtyRunningState : AssignmentTagState :=
  {| st_owner_id := teacher; st_assignment_id := hw1; st_status := running;
     st_sample_count := None; st_window_started_at := Some (minutes 0);
     st_last_event_at := Some (minutes 26); st_next_run_at := Some (minutes 31);
     st_last_generated_at := None; st_dirty := true;
     st_manual_locked := false; st_model := []; st_prompt_version := [];
     st_updated_at := Some (minutes 26) |}.

Definition dirtyStore : Store :=
  mkStore [] [] [] [dirtyRunningState] [] [] [] 1.

(** A running row that records no window start. *)
Definition runningWithoutWindow : AssignmentTagState :=
  {| st_owner_id := teacher; st_assignment_id := hw1; st_status := running;
     st_sample_count := None; st_window_started_at := None;
     st_last_event_at := None; st_next_run_at := None;
     st_last_generated_at := Some (minutes 1); st_dirty := false;
     st_manual_locked := false; st_model := js "manual";
     st_prompt_version := js "manual"; st_updated_at := Some (minutes 2) |}.

(** The number of states that an unforced sweep over every owner runs at
    minute 30. *)
Definition handleAggregateTagsSelection (st : Store) : nat :=
  length (dueStatesOf (mkSweepRequest None None false false) (minutes 30)
            (List.filter (sweepSelects (mkSweepRequest None None false false))
               (assignment_tag_state st))).

(** A sync request that marks one submission graded. *)
Definition gradedRow : SubmissionRow :=
  {| sr_id := js "sub-1"; sr_assignment_id := hw1; sr_student_id := js "amy";
     sr_status := Some (js "graded");
     sr_grading_result := Some (GradingParsed (mkGrading [] [js "sign error"])) |}.

Definition emptyStore : Store := mkStore [] [] [] [] [] [] [] 1.

(** Scenario D: the administrator posts one tag for an assignment. *)
Definition scenarioD : OverridePayload :=
  {| ov_ownerId := Some teacher; ov_assignmentId := Some hw1;
     ov_tags := [mkRawTag (Some [35336; 31639; 37679; 35492]%N) None (Some 12) None];
     ov_manualLocked := ParamOther |}.

(** Two tags whose labels differ by white space only. *)
Definition twoSpellings : list RawTag :=
  [rawTag "sign error" 3; rawTag "sign  error" 2].

Definition postedTwoSpellings : OverridePayload :=
  mkOverridePayload (Some teacher) (Some hw1) twoSpellings ParamOther.

(** A dictionary of four active labels and an answer of the merge model
    whose second group takes a member of the first as its canonical. *)
Definition dictionaryEntry (id : N) (label : string) : TagDictionaryEntry :=
  mkDictEntry id teacher (js label) (removeWhiteSpace (js label)) active None 0 0.

Definition fourLabels : Store :=
  mkStore [] [] [] [] []
    [ dictionaryEntry 1 "units"; dictionaryEntry 2 "unit";
      dictionaryEntry 3 "no units"; dictionaryEntry 4 "sign error" ] [] 5.

Definition rawGroup (canonical : string) (members : list string) : RawGroup :=
  mkRawGroup (Some (js canonical)) (Some ((fun m => Some (js m)) <$> members)).

Definition overlappingGroups : jsstring -> Outcome (list RawGroup) :=
  fun _ => Ok [ rawGroup "units" ["units"; "unit"]%string;
                rawGroup "unit" ["unit"; "no units"]%string ].

(** ** A rollup over the rationals

    [Math.round] rounds to the nearest integer, a half upwards. *)
Definition roundQ (q : Q) : Z := Qfloor (Qplus q (1 # 2)).

Definition rollupQ (mappingRows : list (TagAbilityMapping Q))
    (aggRows : list AssignmentTagAggregate) : list AbilityAggregate :=
  abilityRollup asciiLowerCase Q inject_Z Qplus Qmult (fun _ => true) roundQ
    teacher 1000 mappingRows [dictionaryEntry 1 "units"] aggRows
    [mkAssignment hw1 teacher (js "math")].

(** One tag counted three times, mapped to ability 7. *)
Definition unitsThreeTimes : list AssignmentTagAggregate :=
  [mkAggregate teacher hw1 (js "Units") 3 None 0 (js "gemini-3-flash-preview")
     (js "v1.0") 0].

(** A model that cannot be reached. *)
Definition brokenModel : jsstring -> jsstring -> Outcome (list RawTag) :=
  fun _ _ => Throw (js "model unavailable").

(** A submission that was graded without any mistake or weakness. *)
Definition flawlessSubmission (n : N) : Submission :=
  {| sub_id := [115; n]%N; sub_owner_id := js "teacher";
     sub_assignment_id := js "hw1"; sub_student_id := [116; n]%N;
     sub_grading_result := GradingParsed (mkGrading [] []);
     sub_status := js "graded" |}.

Definition flawlessClass : Store :=
  mkStore (flawlessSubmission <$> [49; 50; 51; 52; 53]%N)
    [mkAssignment hw1 teacher (js "math")] [] [pendingState] [oldAggregate] [] [] 1.

(** Two graded submissions only. *)
Definition smallClass : Store :=
  mkStore (take 2 scenarioB) [mkAssignment hw1 teacher (js "math")] []
    [pendingState] [oldAggregate] [] [] 1.

(** A state that a manual override pinned. *)
Definition lockedState : AssignmentTagState :=
  {| st_owner_id := teacher; st_assignment_id := hw1; st_status := ready;
     st_sample_count := Some 6; st_window_started_at := Some (minutes 0);
     st_last_event_at := Some (minutes 0); st_next_run_at := None;
     st_last_generated_at := Some (minutes 40); st_dirty := false;
     st_manual_locked := true; st_model := js "manual";
     st_prompt_version := js "manual"; st_updated_at := Some (minutes 40) |}.

(** An answer of the merge model with one group. *)
Definition oneGroup : jsstring -> Outcome (list RawGroup) :=
  fun _ => Ok [ rawGroup "units" ["units"; "unit"; "no units"]%string ].

(** A classroom stored at time 1000, and a request that deletes it and
    sends it again with a later time, together with a new classroom. *)
Definition noSyncFaults : SyncCall -> option jsstring := fun _ => None.

Definition neverParses : jsstring -> option Z := fun _ => None.

Definition oneClassroom : SyncDb :=
  mkSyncDb [mkSyncedRow Classrooms (js "c1") teacher (Some 1000)] [].

Definition sentClassrooms : list (jsstring * JsTime) :=
  [(js "c1", TimeMs 2000); (js "c2", TimeMs 2000)].

(** The four labels, with a merge queued for minute 10. *)
Definition noQueueFaults : QueueCall -> option jsstring := fun _ => None.

Definition queuedMerge : TagDictionaryState :=
  mkDictState teacher merge_pending (Some (minutes 10)) None 0.

Definition queuedLabels : Store :=
  mkStore [] [] [] [] [] (tag_dictionary fourLabels) [queuedMerge] 5.

(** * Properties *)

(** ** The stable descending sort *)
Section SortDescFacts.
Context {A : Type} (key : A -> Z).

Lemma insertDesc_Forall (P : A -> Prop) x l :
  P x -> Forall P l -> Forall P (insertDesc key x l).
Proof.
  intros Hx Hl. induction Hl as [|y r Hy Hr IH]; simpl.
  - by constructor.
  - destruct (key y <=? key x); repeat constructor; auto.
Qed.

Lemma insertDesc_descending x l :
  descending key l -> descending key (insertDesc key x l).
Proof.
  unfold descending. induction 1 as [|y r Hr IH Hy]; simpl.
  - repeat constructor.
  - destruct (key y <=? key x) eqn:E.
    + apply Z.leb_le in E. constructor; [by constructor|].
      constructor; [done|].
      eapply Forall_impl; [exact Hy|]. simpl. intros; lia.
    + apply Z.leb_gt in E. constructor; [done|].
      apply insertDesc_Forall; [lia|done].
Qed.

Lemma sortDesc_descending l : descending key (sortDesc key l).
Proof.
  induction l as [|x l IH]; simpl.
  - constructor.
  - by apply insertDesc_descending.
Qed.

Lemma insertDesc_Permutation x l : insertDesc key x l ≡ₚ x :: l.
Proof.
  induction l as [|y r IH]; simpl; [done|].
  destruct (key y <=? key x); [done|].
  rewrite IH. apply Permutation_swap.
Qed.

Lemma sortDesc_Permutation l : sortDesc key l ≡ₚ l.
Proof.
  induction l as [|x l IH]; simpl; [done|].
  by rewrite insertDesc_Permutation, IH.
Qed.

Lemma sortDesc_length l : length (sortDesc key l) = length l.
Proof. apply Permutation_length, sortDesc_Permutation. Qed.

Lemma sortDesc_elem_of x l : x ∈ sortDesc key l <-> x ∈ l.
Proof. by rewrite sortDesc_Permutation. Qed.

Lemma sortDesc_Forall (P : A -> Prop) l :
  Forall P (sortDesc key l) <-> Forall P l.
Proof. by rewrite sortDesc_Permutation. Qed.

(** A prefix of a descending list dominates what it leaves out. *)
Lemma descending_take_drop n l x y :
  descending key l -> x ∈ take n l -> y ∈ drop n l -> key y <= key x.
Proof.
  unfold descending. intros Hs. revert n.
  induction Hs as [|a r Hr IH Ha]; intros n Hx Hy.
  - rewrite take_nil in Hx. by apply elem_of_nil in Hx.
  - destruct n as [|n]; simpl in *.
    + by apply elem_of_nil in Hx.
    + apply elem_of_cons in Hx as [->|Hx].
      * rewrite Forall_forall in Ha. apply Ha.
        by apply (subseteq_drop n r).
      * eauto.
Qed.

Lemma descending_take n l : descending key l -> descending key (take n l).
Proof.
  unfold descending. intros Hs. revert n.
  induction Hs as [|a r Hr IH Ha]; intros [|n]; simpl; try constructor.
  - apply IH.
  - rewrite Forall_forall in Ha |- *. intros x Hx. apply Ha.
    by apply (subseteq_take n r).
Qed.
End SortDescFacts.

(** ** Maps in insertion order *)
Section OrderedMapFacts.
Context {K V : Type} `{EqDecision K}.
Implicit Types (m : list (K * V)) (k j : K) (f : V -> V).

Lemma assocGet_update_eq k init f m :
  assocGet k (assocUpdate k init f m) = Some (f (default init (assocGet k m))).
Proof.
  induction m as [|[j v] m IH]; simpl.
  - by rewrite decide_True.
  - destruct (decide (j = k)) as [->|Hne]; simpl.
    + by rewrite decide_True.
    + by rewrite decide_False.
Qed.

Lemma assocGet_update_ne k j init f m :
  j <> k -> assocGet j (assocUpdate k init f m) = assocGet j m.
Proof.
  intros Hne. induction m as [|[j' v] m IH]; simpl.
  - rewrite decide_False; [done|congruence].
  - destruct (decide (j' = k)) as [->|Hne']; simpl.
    + rewrite !decide_False by congruence. done.
    + by rewrite IH.
Qed.

Lemma keys_assocUpdate k init f m :
  (assocUpdate k init f m).*1 = if decide (k ∈ m.*1) then m.*1 else m.*1 ++ [k].
Proof.
  induction m as [|[j v] m IH].
  - case_decide as Hk; [|done]. by apply elem_of_nil in Hk.
  - cbn [assocUpdate]. destruct (decide (j = k)) as [->|Hne].
    + clear IH. rewrite !fmap_cons. cbn [fst].
      rewrite decide_True; [done|]. apply elem_of_cons. by left.
    + rewrite !fmap_cons. cbn [fst]. rewrite IH. clear IH.
      destruct (decide (k ∈ m.*1)) as [Hi|Hi].
      * rewrite decide_True; [done|]. apply elem_of_cons. by right.
      * rewrite decide_False; [done|].
        intros [->|?]%elem_of_cons; done.
Qed.

Lemma keys_assocUpdate_NoDup k init f m :
  NoDup m.*1 -> NoDup (assocUpdate k init f m).*1.
Proof.
  intros Hm. rewrite keys_assocUpdate.
  destruct (decide (k ∈ m.*1)); [done|].
  apply NoDup_app. split; [done|]. split.
  - intros x Hx Hx'. apply list_elem_of_singleton in Hx'. by subst.
  - apply NoDup_singleton.
Qed.

Lemma assocGet_Some_elem_of k m v : assocGet k m = Some v -> (k, v) ∈ m.
Proof.
  induction m as [|[j v'] m IH]; simpl; [done|].
  destruct (decide (j = k)) as [->|Hne].
  - intros [= ->]. apply elem_of_cons; by left.
  - intros Hg. apply elem_of_cons; right; auto.
Qed.

Lemma elem_of_assocGet k m v :
  NoDup m.*1 -> (k, v) ∈ m -> assocGet k m = Some v.
Proof.
  induction m as [|[j v'] m IH]; simpl; intros Hnd Hin.
  - by apply elem_of_nil in Hin.
  - apply NoDup_cons in Hnd as [Hj Hnd].
    apply elem_of_cons in Hin as [[= <- <-]|Hin].
    + by rewrite decide_True.
    + rewrite decide_False; [auto|].
      intros ->. apply Hj. apply list_elem_of_fmap. by exists (k, v).
Qed.

Lemma assocGet_None k m : assocGet k m = None <-> k ∉ m.*1.
Proof.
  induction m as [|[j v] m IH]; simpl.
  - split; [intros _; apply not_elem_of_nil|done].
  - rewrite not_elem_of_cons. destruct (decide (j = k)) as [->|Hne].
    + split; [done|]. intros [? _]; done.
    + rewrite IH. split; [intros ?; split; [congruence|done]|tauto].
Qed.
End OrderedMapFacts.

(** ** The issue statistics *)
Section IssueStats.
Implicit Types (m : list (jsstring * gset jsstring)) (i j k x : jsstring).

Lemma elem_of_uniqueList x (l : list jsstring) : x ∈ uniqueList l <-> x ∈ l.
Proof.
  unfold uniqueList.
  assert (G : forall acc : list jsstring,
    x ∈ foldl (fun acc x => if decide (x ∈ acc) then acc else acc ++ [x]) acc l
    <-> x ∈ acc \/ x ∈ l).
  { induction l as [|y l IH]; intros acc; simpl.
    - rewrite elem_of_nil. tauto.
    - rewrite IH, elem_of_cons. destruct (decide (y ∈ acc)) as [Hy|Hy].
      + split; [tauto|]. intros [?|[->|?]]; tauto.
      + rewrite elem_of_app, list_elem_of_singleton. tauto. }
  rewrite G, elem_of_nil. tauto.
Qed.

Lemma addKey_idemp k (b : gset jsstring) : addKey k (addKey k b) = addKey k b.
Proof. unfold addKey. destruct (isEmpty k); [done|]. set_solver. Qed.

Lemma elem_of_addKey x k (b : gset jsstring) :
  x ∈ addKey k b <-> (x = k /\ k <> []) \/ x ∈ b.
Proof.
  unfold addKey. destruct k as [|c k]; simpl.
  - split; [tauto|]. intros [[_ H]|H]; [done|exact H].
  - rewrite elem_of_union, elem_of_singleton. split.
    + intros [->|?]; [left; done|tauto].
    + intros [[-> _]|?]; tauto.
Qed.

(** One pass over the phrases of a submission. *)
Lemma assocGet_fold_addToBucket j k (l : list jsstring) m :
  assocGet j (foldl (fun m issue => addToBucket issue k m) m l)
  = if decide (j ∈ l) then Some (addKey k (default ∅ (assocGet j m)))
    else assocGet j m.
Proof.
  revert m. induction l as [|i l IH]; intros m; cbn [foldl].
  - rewrite decide_False; [done|]. apply not_elem_of_nil.
  - rewrite IH. clear IH. destruct (decide (i = j)) as [->|Hne].
    + unfold addToBucket. rewrite assocGet_update_eq. cbn [default from_option id].
      rewrite addKey_idemp.
      rewrite (decide_True (P := j ∈ j :: l)); [|apply elem_of_cons; by left].
      by destruct (decide (j ∈ l)).
    + unfold addToBucket. rewrite assocGet_update_ne by done.
      destruct (decide (j ∈ l)) as [Hj|Hj].
      * rewrite decide_True; [done|]. apply elem_of_cons; by right.
      * rewrite decide_False; [done|].
        intros [->|?]%elem_of_cons; done.
Qed.

Lemma keys_fold_addToBucket_NoDup k (l : list jsstring) m :
  NoDup m.*1 -> NoDup (foldl (fun m issue => addToBucket issue k m) m l).*1.
Proof.
  revert m. induction l as [|i l IH]; intros m Hm; simpl; [done|].
  by apply IH, keys_assocUpdate_NoDup.
Qed.

Lemma assocGet_addSubmission j m (s : Submission) :
  assocGet j (addSubmission m s)
  = if decide (j ∈ issuesOf s)
    then Some (addKey (ownerKeyOf s) (default ∅ (assocGet j m)))
    else assocGet j m.
Proof.
  unfold addSubmission. rewrite assocGet_fold_addToBucket.
  destruct (decide (j ∈ uniqueList (issuesOf s))) as [H|H];
    rewrite elem_of_uniqueList in H.
  - by rewrite decide_True.
  - by rewrite decide_False.
Qed.

Lemma buildIssueMap_NoDup (subs : list Submission) :
  NoDup (buildIssueMap subs).*1.
Proof.
  unfold buildIssueMap.
  assert (G : forall m, NoDup m.*1 -> NoDup (foldl addSubmission m subs).*1).
  { induction subs as [|s subs IH]; intros m Hm; simpl; [done|].
    apply IH. unfold addSubmission. by apply keys_fold_addToBucket_NoDup. }
  apply G. constructor.
Qed.

(** The bucket of a phrase holds the owner keys of the submissions that
    list it, and a phrase has a bucket exactly when some submission lists
    it. *)
Lemma buildIssueMap_spec (subs : list Submission) j :
  match assocGet j (buildIssueMap subs) with
  | None => forall s, s ∈ subs -> j ∉ issuesOf s
  | Some b =>
      (exists s, s ∈ subs /\ j ∈ issuesOf s) /\
      forall x, x ∈ b <->
        exists s, s ∈ subs /\ j ∈ issuesOf s /\ ownerKeyOf s = x /\ x <> []
  end.
Proof.
  unfold buildIssueMap.
  induction subs as [|s subs IH] using rev_ind; simpl.
  - intros s Hs. by apply elem_of_nil in Hs.
  - rewrite foldl_snoc, assocGet_addSubmission.
    destruct (decide (j ∈ issuesOf s)) as [Hj|Hj].
    + split.
      * exists s. split; [|done]. apply elem_of_app. right.
        by apply list_elem_of_singleton.
      * intros x. rewrite elem_of_addKey.
        destruct (assocGet j (foldl addSubmission [] subs)) as [b|]; simpl.
        -- destruct IH as [_ IH]. rewrite IH. split.
           ++ intros [[-> Hne]|(s' & Hs' & ? & ? & ?)].
              ** exists s. split_and!; try done.
                 apply elem_of_app. right. by apply list_elem_of_singleton.
              ** exists s'. split_and!; try done.
                 apply elem_of_app. by left.
           ++ intros (s' & Hs' & Hj' & Hk & Hne).
              apply elem_of_app in Hs' as [Hs'|Hs'].
              ** right. by exists s'.
              ** apply list_elem_of_singleton in Hs'. subst s'.
                 left. split; [done|]. by rewrite Hk.
        -- split.
           ++ intros [[-> Hne]|Hx]; [|by apply not_elem_of_empty in Hx].
              exists s. split_and!; try done.
              apply elem_of_app. right. by apply list_elem_of_singleton.
           ++ intros (s' & Hs' & Hj' & Hk & Hne).
              apply elem_of_app in Hs' as [Hs'|Hs'].
              ** by apply IH in Hs'.
              ** apply list_elem_of_singleton in Hs'. subst s'.
                 left. split; [done|]. by rewrite Hk.
    + destruct (assocGet j (foldl addSubmission [] subs)) as [b|].
      * destruct IH as [(s' & Hs' & Hj') IH]. split.
        -- exists s'. split; [|done]. apply elem_of_app. by left.
        -- intros x. rewrite IH. split.
           ++ intros (s0 & Hs0 & ?). exists s0. split; [|done].
              apply elem_of_app. by left.
           ++ intros (s0 & Hs0 & Hj0 & ?).
              apply elem_of_app in Hs0 as [Hs0|Hs0].
              ** by exists s0.
              ** apply list_elem_of_singleton in Hs0. by subst s0.
      * intros s0 Hs0. apply elem_of_app in Hs0 as [Hs0|Hs0]; [by apply IH|].
        apply list_elem_of_singleton in Hs0. by subst s0.
Qed.
End IssueStats.

Lemma ownerKeyOf_student (s : Submission) :
  sub_student_id s <> [] -> ownerKeyOf s = sub_student_id s.
Proof. unfold ownerKeyOf, orElse. by destruct (sub_student_id s). Qed.

Lemma buildIssueStats_Permutation (subs : list Submission) :
  buildIssueStats subs ≡ₚ
  (fun entry => mkIssueStat (fst entry) (Z.of_nat (size (snd entry))))
    <$> buildIssueMap subs.
Proof. apply sortDesc_Permutation. Qed.

Lemma buildIssueStats_issues (subs : list Submission) :
  is_issue <$> buildIssueStats subs ≡ₚ (buildIssueMap subs).*1.
Proof.
  rewrite buildIssueStats_Permutation, <- list_fmap_compose.
  apply reflexive_eq, list_fmap_ext. by intros ? [].
Qed.

(** C7. The issue statistics built from the graded submissions of an
    assignment, each carrying its student identifier: every phrase produced
    by some submission has exactly one entry; the count of an entry is the
    number of distinct students whose submissions list the phrase (so a
    phrase repeated inside a submission, or by the same student, counts
    once); the entries are in descending order of count; and the table
    handed to the prompt is the first 50 entries, which dominate the
    entries left out. *)
Theorem C7_issue_stats_count_distinct_students (subs : list Submission) :
  (forall s, s ∈ subs -> sub_student_id s <> []) ->
  let stats := buildIssueStats subs in
  NoDup (is_issue <$> stats)
  /\ (forall issue, issue ∈ (is_issue <$> stats) <->
        exists s, s ∈ subs /\ issue ∈ issuesOf s)
  /\ (forall e, e ∈ stats ->
        is_count e = Z.of_nat (size (studentsWith (is_issue e) subs)))
  /\ descending is_count stats
  /\ issueStatsOf subs = take 50 stats
  /\ (length (issueStatsOf subs) <= 50)%nat
  /\ (forall kept dropped, kept ∈ issueStatsOf subs -> dropped ∈ drop 50 stats ->
        is_count dropped <= is_count kept).
Proof.
  intros Hstudent stats. subst stats. split_and!.
  - rewrite buildIssueStats_issues. apply buildIssueMap_NoDup.
  - intros issue. rewrite buildIssueStats_issues.
    pose proof (buildIssueMap_spec subs issue) as Hspec.
    destruct (assocGet issue (buildIssueMap subs)) as [b|] eqn:E.
    + destruct Hspec as [Hex _]. split; [done|]. intros _.
      apply assocGet_Some_elem_of in E.
      apply list_elem_of_fmap. by exists (issue, b).
    + apply assocGet_None in E. split; [done|].
      intros (s & Hs & Hi). by apply Hspec in Hs.
  - intros e He. rewrite buildIssueStats_Permutation in He.
    apply list_elem_of_fmap in He as ([i b] & -> & Hin). simpl.
    f_equal. f_equal.
    apply elem_of_assocGet in Hin; [|apply buildIssueMap_NoDup].
    pose proof (buildIssueMap_spec subs i) as Hspec. rewrite Hin in Hspec.
    destruct Hspec as [_ Hb]. apply set_eq. intros x. rewrite Hb.
    unfold studentsWith. rewrite elem_of_list_to_set, list_elem_of_fmap.
    split.
    + intros (s & Hs & Hi & Hk & Hne). exists s. split.
      * by rewrite <- Hk, ownerKeyOf_student by auto.
      * apply list_elem_of_filter. done.
    + intros (s & -> & [Hi Hs]%list_elem_of_filter). exists s.
      split_and!; try done; auto using ownerKeyOf_student.
  - apply sortDesc_descending.
  - done.
  - unfold issueStatsOf, TAG_TOP_ISSUES. rewrite length_take. lia.
  - intros kept dropped Hk Hd.
    eapply (descending_take_drop is_count); [apply sortDesc_descending|exact Hk|exact Hd].
Qed.

Example scenarioB_stats :
  buildIssueStats scenarioB =
  [ mkIssueStat (js "sign error") 3; mkIssueStat (js "missing units") 2;
    mkIssueStat (js "wrong formula") 1 ].
Proof. vm_compute. reflexivity. Qed.

(** A student who repeats a phrase, inside a submission and across two
    submissions, counts once. *)
Example repeated_phrase_counts_once :
  buildIssueStats
    [ {| sub_id := js "s1"; sub_owner_id := js "t"; sub_assignment_id := js "a";
         sub_student_id := js "amy";
         sub_grading_result :=
           GradingParsed (mkGrading [] [js "sign error"; js "sign   error"]);
         sub_status := js "graded" |};
      {| sub_id := js "s2"; sub_owner_id := js "t"; sub_assignment_id := js "a";
         sub_student_id := js "amy";
         sub_grading_result :=
           GradingParsed
             (mkGrading [MistakeObject (js "sign") (js "error")] []);
         sub_status := js "graded" |} ]
  = [ mkIssueStat (js "sign error") 1 ].
Proof. vm_compute. reflexivity. Qed.

Lemma C7_issue_stats_witness :
  (forall s, s ∈ scenarioB -> sub_student_id s <> [])
  /\ (forall e, e ∈ buildIssueStats scenarioB ->
        is_count e = Z.of_nat (size (studentsWith (is_issue e) scenarioB)))
  /\ descending is_count (buildIssueStats scenarioB).
Proof.
  assert (H : forall s, s ∈ scenarioB -> sub_student_id s <> []).
  { intros s Hs. unfold scenarioB in Hs.
    repeat (apply elem_of_cons in Hs as [->|Hs]; [discriminate|]).
    by apply elem_of_nil in Hs. }
  split; [exact H|].
  pose proof (C7_issue_stats_count_distinct_students scenarioB H) as T.
  simpl in T. destruct T as (_ & _ & Hcount & Hsorted & _).
  split; [exact Hcount|exact Hsorted].
Defined.

(** ** Running the handlers *)

(** Unfolds the plumbing of a handler and splits on the answers of the
    database calls. *)
Ltac unfold_monad :=
  unfold orThrow, dbWrite, dbRead, dbCall, bind, ret, throw, tryCatch in *.

Ltac step_monad :=
  repeat (simpl in *; simplify_eq;
          match goal with
          | |- context [match ?f ?c with Some _ => _ | None => _ end] =>
              match type of c with DbCall => destruct (f c) eqn:? end
          | H : context [match ?f ?c with Some _ => _ | None => _ end] |- _ =>
              match type of c with DbCall => destruct (f c) eqn:? end
          end).

Section StoreFacts.
Variable toLowerCase : jsstring -> jsstring.
Variable fails : DbCall -> option jsstring.

Lemma updateState_aggregates o a p st :
  assignment_tag_aggregates (updateState o a p st) = assignment_tag_aggregates st.
Proof. done. Qed.


Lemma finalize_aggregates o a now n model version st :
  assignment_tag_aggregates
    (finalizeAssignmentTagState fails o a now n model version st).1
  = assignment_tag_aggregates st.
Proof.
  unfold finalizeAssignmentTagState. unfold_monad. step_monad; try done;
    destruct (from_option st_dirty false (selectState o a st)); done.
Qed.

Lemma touchDictionaryMergeState_aggregates o now st :
  assignment_tag_aggregates (touchDictionaryMergeState fails o now st).1
  = assignment_tag_aggregates st.
Proof.
  unfold touchDictionaryMergeState. destruct (isEmpty o); [done|].
  unfold_monad. step_monad; done.
Qed.
End StoreFacts.

Lemma bind_Ok {A B} (c : M A) (k : A -> M B) st st' b :
  bind c k st = (st', Ok b) ->
  exists st1 a, c st = (st1, Ok a) /\ k a st1 = (st', Ok b).
Proof.
  unfold bind. destruct (c st) as [st1 [a|m]]; [|done]. intros Hk. eauto.
Qed.

Lemma bind_run {A B} (c : M A) (k : A -> M B) st :
  bind c k st =
  match c st with
  | (st1, Ok a) => k a st1
  | (st1, Throw message) => (st1, Throw message)
  end.
Proof. done. Qed.

(** ** The aggregate rows of an assignment *)
Section Aggregates.
Variable toLowerCase : jsstring -> jsstring.
Variable fails : DbCall -> option jsstring.
Variable callGeminiTags : jsstring -> jsstring -> Outcome (list RawTag).
Implicit Types (o a : jsstring) (st : Store).

Lemma isAggregateOf_true o a row :
  isAggregateOf o a row = true <-> agg_owner_id row = o /\ agg_assignment_id row = a.
Proof.
  unfold isAggregateOf. rewrite andb_true_iff, !bool_decide_eq_true. done.
Qed.

Lemma aggregatesOf_delete o a st : aggregatesOf o a (deleteAggregates o a st) = [].
Proof.
  unfold aggregatesOf, deleteAggregates. simpl.
  induction (assignment_tag_aggregates st) as [|row rows IH]; simpl; [done|].
  destruct (isAggregateOf o a row) eqn:E; simpl; [done|]. by rewrite E.
Qed.

Lemma aggregatesOf_delete_other o a o' a' st :
  (o', a') <> (o, a) ->
  aggregatesOf o' a' (deleteAggregates o a st) = aggregatesOf o' a' st.
Proof.
  intros Hne. unfold aggregatesOf, deleteAggregates. simpl.
  induction (assignment_tag_aggregates st) as [|row rows IH]; simpl; [done|].
  destruct (isAggregateOf o a row) eqn:E; simpl.
  - destruct (isAggregateOf o' a' row) eqn:E'; [|done].
    apply isAggregateOf_true in E as [<- <-].
    apply isAggregateOf_true in E' as [<- <-]. done.
  - by rewrite IH.
Qed.

Lemma aggregatesOf_insert o a rows st :
  aggregatesOf o a (insertAggregates rows st)
  = aggregatesOf o a st ++ List.filter (isAggregateOf o a) rows.
Proof. unfold aggregatesOf, insertAggregates. simpl. apply List.filter_app. Qed.

Lemma filter_own_rows o a now model version (tags : list NormalizedTag) :
  List.filter (isAggregateOf o a) (aggregateRowOf o a now model version <$> tags)
  = aggregateRowOf o a now model version <$> tags.
Proof.
  induction tags as [|t tags IH]; [done|]. rewrite fmap_cons. simpl.
  unfold isAggregateOf at 1. simpl. rewrite !bool_decide_true by done. simpl.
  by rewrite IH.
Qed.

Lemma filter_other_rows o a o' a' now model version (tags : list NormalizedTag) :
  (o', a') <> (o, a) ->
  List.filter (isAggregateOf o' a') (aggregateRowOf o a now model version <$> tags)
  = [].
Proof.
  intros Hne. induction tags as [|t tags IH]; [done|]. rewrite fmap_cons. simpl.
  destruct (isAggregateOf o' a' _) eqn:E; [|done].
  apply isAggregateOf_true in E as [<- <-]. done.
Qed.

(** What the replacement does to the store, by the answers of its two
    calls. *)
Lemma replaceAggregates_run del ins o a rows st :
  replaceAggregates fails del ins o a rows st =
  let st1 := match fails del with
             | Some _ => st
             | None => deleteAggregates o a st
             end in
  match fails ins with
  | Some message => (st1, Throw message)
  | None => (insertAggregates rows st1, Ok ())
  end.
Proof.
  unfold replaceAggregates. unfold_monad.
  destruct (fails del), (fails ins); done.
Qed.
End Aggregates.

Section ClusterStep.
Variable toLowerCase : jsstring -> jsstring.
Variable fails : DbCall -> option jsstring.
Variable callGeminiTags : jsstring -> jsstring -> Outcome (list RawTag).
Implicit Types (o a : jsstring) (st : Store).

Lemma insertNewDictionaryRows_aggregates now o rows st :
  assignment_tag_aggregates (insertNewDictionaryRows fails now o rows st).1
  = assignment_tag_aggregates st.
Proof.
  unfold insertNewDictionaryRows. destruct rows as [|r rows]; [done|].
  rewrite bind_run. unfold orThrow at 1. unfold dbCall. rewrite bind_run.
  destruct (fails AggInsertDictionary); [done|].
  unfold insertDictionaryRows. cbn [ret].
  by rewrite touchDictionaryMergeState_aggregates.
Qed.

(** The aggregate table after a model step that returns. *)
Lemma clusterStep_Ok now o a n dict st st' :
  clusterStep toLowerCase fails callGeminiTags now o a n dict st = (st', Ok ()) ->
  exists rawTags,
    callGeminiTags o a = Ok rawTags /\
    assignment_tag_aggregates st'
    = assignment_tag_aggregates
        (match fails AggDeleteAggregates with
         | Some _ => st
         | None => deleteAggregates o a st
         end)
      ++ (aggregateRowOf o a now TAG_MODEL TAG_PROMPT_VERSION
            <$> normalizedModelTags n rawTags).
Proof.
  unfold clusterStep. rewrite bind_run.
  destruct (callGeminiTags o a) as [rawTags|m]; [|done].
  intros Hrun. exists rawTags. split; [done|].
  destruct (normalizedModelTags n rawTags) as [|t tags] eqn:Etags; [done|].
  apply bind_Ok in Hrun as (st1 & [] & Hdict & Hrun).
  apply bind_Ok in Hrun as (st2 & [] & Hrepl & Hfin).
  pose proof (insertNewDictionaryRows_aggregates now o
    (newDictionaryRowsOf toLowerCase
       (jsMapOf ((fun row => (normalizedOf toLowerCase row, row)) <$> dict))
       (t :: tags)) st) as Hagg1.
  rewrite Hdict in Hagg1. simpl in Hagg1.
  pose proof (finalize_aggregates fails o a now n TAG_MODEL TAG_PROMPT_VERSION st2)
    as Hagg3.
  rewrite Hfin in Hagg3. simpl in Hagg3. rewrite Hagg3.
  rewrite replaceAggregates_run in Hrepl. cbn zeta in Hrepl.
  destruct (fails AggInsertAggregates); [done|].
  injection Hrepl as <-.
  destruct (fails AggDeleteAggregates); simpl; by rewrite Hagg1.
Qed.
End ClusterStep.

Section Runs.
Variable toLowerCase : jsstring -> jsstring.
Variable fails : DbCall -> option jsstring.
Variable callGeminiTags : jsstring -> jsstring -> Outcome (list RawTag).
Implicit Types (o a : jsstring) (st : Store).

Lemma orThrow_dbRead_Ok {A} call (query : Store -> A) st st' x :
  orThrow (dbRead fails call query) st = (st', Ok x) ->
  fails call = None /\ st' = st /\ x = query st.
Proof.
  unfold_monad. destruct (fails call); [done|]. by intros [= <- <-].
Qed.

Lemma orThrow_dbWrite_Ok call (write : Store -> Store) st st' x :
  orThrow (dbWrite fails call write) st = (st', Ok x) ->
  fails call = None /\ st' = write st.
Proof.
  unfold_monad. destruct (fails call); [done|]. by intros [= <-].
Qed.

Lemma normalizeModelTag_Some n tag t :
  normalizeModelTag n tag = Some t -> nt_count t <= n.
Proof.
  unfold normalizeModelTag. destruct (rt_count tag) as [count|]; [|done].
  destruct (isEmpty (tagLabelOf tag) || (count <=? 0)); [done|].
  intros [= <-]. simpl. lia.
Qed.

(** The tags kept from an answer of the model: at most eight, each count
    at most the sample count, in descending order of count. *)
Lemma normalizedModelTags_bounds n rawTags :
  (length (normalizedModelTags n rawTags) <= 8)%nat
  /\ Forall (fun t => nt_count t <= n) (normalizedModelTags n rawTags)
  /\ descending nt_count (normalizedModelTags n rawTags).
Proof.
  unfold normalizedModelTags, TAG_LIMIT. split_and!.
  - rewrite length_take. lia.
  - apply Forall_take, sortDesc_Forall, Forall_forall.
    intros t (tag & _ & Ht)%list_elem_of_omap.
    by apply normalizeModelTag_Some in Ht.
  - apply descending_take, sortDesc_descending.
Qed.

Lemma descending_fmap {A B} (f : A -> B) (key : B -> Z) (l : list A) :
  descending (fun x => key (f x)) l -> descending key (f <$> l).
Proof.
  unfold descending. induction 1 as [|x l Hl IH Hx]; simpl; constructor.
  - done.
  - by apply Forall_fmap.
Qed.

(** C1. A clustering run that reaches the model step and returns has
    written to the aggregate of its assignment the rows of the tags kept
    from the answer of the model: each count of the answer clamped to the
    number of graded submissions, the tags sorted in descending order of
    count and cut to the first eight.  So it has written at most 8 rows,
    and every written count is at most the number of graded submissions. *)
Theorem C1_cluster_run_writes_bounded_tags now stateRow st st' result :
  let o := st_owner_id stateRow in
  let a := st_assignment_id stateRow in
  let sampleCount := Z.of_nat (length (gradedSubmissionsOf o a st)) in
  aggregateAssignmentTags toLowerCase fails callGeminiTags now stateRow st
    = (st', Ok result) ->
  rr_status result = RunReady ->
  issueStatsOf (gradedSubmissionsOf o a st) <> [] ->
  exists rawTags,
    callGeminiTags o a = Ok rawTags /\
    let written :=
      aggregateRowOf o a now TAG_MODEL TAG_PROMPT_VERSION
        <$> normalizedModelTags sampleCount rawTags in
    assignment_tag_aggregates st'
    = assignment_tag_aggregates
        (match fails AggDeleteAggregates with
         | Some _ => st
         | None => deleteAggregates o a st
         end) ++ written
    /\ (length written <= 8)%nat
    /\ Forall (fun row => agg_tag_count row <= sampleCount) written
    /\ descending agg_tag_count written
    /\ rr_sampleCount result = sampleCount.
Proof.
  intros o a sampleCount Hrun Hready Hstats.
  unfold aggregateAssignmentTags in Hrun. fold o a in Hrun.
  destruct (isEmpty o); [done|].
  apply bind_Ok in Hrun as (st1 & assignmentRow & Hsel & Hrun).
  apply orThrow_dbRead_Ok in Hsel as (_ & -> & _).
  destruct (st_manual_locked stateRow).
  { apply bind_Ok in Hrun as (? & ? & _ & Hret).
    injection Hret as <- <-. done. }
  apply bind_Ok in Hrun as (st2 & [] & Hrunning & Hrun).
  apply orThrow_dbWrite_Ok in Hrunning as (_ & ->).
  apply bind_Ok in Hrun as (st3 & graded & Hsubs & Hrun).
  apply orThrow_dbRead_Ok in Hsubs as (_ & -> & ->).
  change (gradedSubmissionsOf o a (updateState o a _ st))
    with (gradedSubmissionsOf o a st) in Hrun.
  fold sampleCount in Hrun.
  destruct (sampleCount <? TAG_MIN_SAMPLE_COUNT).
  { apply bind_Ok in Hrun as (? & ? & _ & Hret).
    injection Hret as <- <-. done. }
  destruct (issueStatsOf (gradedSubmissionsOf o a st)) as [|e stats]; [done|].
  apply bind_Ok in Hrun as (st4 & dict & Hdict & Hrun).
  apply orThrow_dbRead_Ok in Hdict as (_ & -> & _).
  apply bind_Ok in Hrun as (st5 & [] & Hcluster & Hrun).
  apply bind_Ok in Hrun as (st6 & [] & Hdomain & Hret).
  injection Hdomain as <-. injection Hret as <- <-.
  apply clusterStep_Ok in Hcluster as (rawTags & Hllm & Hagg).
  exists rawTags. split; [done|]. cbn zeta.
  destruct (normalizedModelTags_bounds sampleCount rawTags) as (Hlen & Hcount & Hdesc).
  split_and!.
  - rewrite Hagg. by destruct (fails AggDeleteAggregates).
  - by rewrite length_fmap.
  - apply Forall_fmap. exact Hcount.
  - apply descending_fmap. exact Hdesc.
  - done.
Qed.
End Runs.

Lemma C1_cluster_run_witness :
  let run := aggregateAssignmentTags asciiLowerCase noFaults answerTags 1000
               pendingState classStore in
  run.2 = Ok (mkRunResult RunReady 6)
  /\ issueStatsOf (gradedSubmissionsOf teacher hw1 classStore) <> []
  /\ exists rawTags,
       answerTags teacher hw1 = Ok rawTags /\
       (length (aggregateRowOf teacher hw1 1000 TAG_MODEL TAG_PROMPT_VERSION
                  <$> normalizedModelTags 6 rawTags) <= 8)%nat
       /\ Forall (fun row => agg_tag_count row <= 6)
            (aggregateRowOf teacher hw1 1000 TAG_MODEL TAG_PROMPT_VERSION
               <$> normalizedModelTags 6 rawTags).
Proof.
  assert (Hstats : issueStatsOf (gradedSubmissionsOf teacher hw1 classStore) <> [])
    by (vm_compute; discriminate).
  split; [vm_compute; reflexivity|]. split; [exact Hstats|].
  destruct (C1_cluster_run_writes_bounded_tags asciiLowerCase noFaults answerTags
              1000 pendingState classStore
              (aggregateAssignmentTags asciiLowerCase noFaults answerTags 1000
                 pendingState classStore).1
              (mkRunResult RunReady 6))
    as (rawTags & Hllm & _ & Hlen & Hcount & _).
  - vm_compute. reflexivity.
  - reflexivity.
  - exact Hstats.
  - exists rawTags. split; [exact Hllm|]. split; [exact Hlen|exact Hcount].
Defined.

Example class_run_clamps_and_sorts :
  aggregatesOf teacher hw1
    (aggregateAssignmentTags asciiLowerCase noFaults answerTags 1000
       pendingState classStore).1
  = [ mkAggregate teacher hw1 (js "Units") 6 None 1000 TAG_MODEL TAG_PROMPT_VERSION 1000;
      mkAggregate teacher hw1 (js "Signs") 3 None 1000 TAG_MODEL TAG_PROMPT_VERSION 1000 ].
Proof. vm_compute. reflexivity. Qed.

(** C3, as stated, fails: the insert that follows the delete fails, the run
    throws, and the rows stored before the run are gone. *)
Lemma C3_counterexample :
  let run := aggregateAssignmentTags asciiLowerCase
               (failsOnly AggInsertAggregates "insert failed") answerTags 1000
               pendingState classStore in
  run.2 = Throw (js "insert failed")
  /\ aggregatesOf teacher hw1 classStore = [oldAggregate]
  /\ aggregatesOf teacher hw1 run.1 = [].
Proof. vm_compute. done. Qed.

(** C3, amended. The replacement of the aggregate rows of an assignment is
    a delete followed by an insert, in two calls.  Rows of other assignments
    are never touched.  When both calls succeed the assignment holds exactly
    the new rows.  When the insert fails after the delete, the run throws and
    the assignment is left with no row: the rows stored before are not put
    back.  When the delete fails, which the run does not look at, the rows
    stored before stay, followed by the new rows if the insert succeeds.  And
    a model step that fails before the replacement, because the request
    throws or the answer holds no valid tag, leaves the store as it was. *)
Theorem C3_replacement_is_delete_then_insert
    (toLowerCase : jsstring -> jsstring) (fails : DbCall -> option jsstring)
    (callGeminiTags : jsstring -> jsstring -> Outcome (list RawTag))
    (o a : jsstring) (now n : Z) (tags : list NormalizedTag)
    (dict : list TagDictionaryEntry) (st : Store) :
  let rows := aggregateRowOf o a now TAG_MODEL TAG_PROMPT_VERSION <$> tags in
  let run := replaceAggregates fails AggDeleteAggregates AggInsertAggregates
               o a rows st in
  (forall o' a', (o', a') <> (o, a) ->
     aggregatesOf o' a' run.1 = aggregatesOf o' a' st)
  /\ match fails AggDeleteAggregates, fails AggInsertAggregates with
     | None, None => run.2 = Ok () /\ aggregatesOf o a run.1 = rows
     | None, Some message =>
         run.2 = Throw message /\ aggregatesOf o a run.1 = []
     | Some _, None =>
         run.2 = Ok () /\ aggregatesOf o a run.1 = aggregatesOf o a st ++ rows
     | Some _, Some message =>
         run.2 = Throw message /\ aggregatesOf o a run.1 = aggregatesOf o a st
     end
  /\ match callGeminiTags o a with
     | Throw message =>
         clusterStep toLowerCase fails callGeminiTags now o a n dict st
         = (st, Throw message)
     | Ok rawTags =>
         normalizedModelTags n rawTags = [] ->
         clusterStep toLowerCase fails callGeminiTags now o a n dict st
         = (st, Throw (js "Gemini tag output invalid"))
     end.
Proof.
  intros rows run. subst run. rewrite replaceAggregates_run. cbn zeta.
  split_and!.
  - intros o' a' Hne.
    destruct (fails AggDeleteAggregates), (fails AggInsertAggregates); simpl;
      rewrite ?aggregatesOf_insert, ?aggregatesOf_delete_other by done;
      subst rows; rewrite ?filter_other_rows by done;
      by rewrite ?app_nil_r.
  - destruct (fails AggDeleteAggregates), (fails AggInsertAggregates); simpl;
      (split; [done|]);
      rewrite ?aggregatesOf_insert, ?aggregatesOf_delete;
      subst rows; rewrite ?filter_own_rows; done.
  - unfold clusterStep. rewrite bind_run.
    destruct (callGeminiTags o a) as [rawTags|message]; [|done].
    by intros ->.
Qed.

(** ** The assignment tag state *)
Section TagState.
Variable fails : DbCall -> option jsstring.
Implicit Types (o a : jsstring) (st : Store) (row : AssignmentTagState).

Lemma selectState_updateState o a p st :
  selectState o a (updateState o a p st)
  = applyTagStatePatch p <$> selectState o a st.
Proof.
  unfold selectState, updateState. simpl.
  induction (assignment_tag_state st) as [|row rows IH]; [done|].
  rewrite fmap_cons. simpl.
  destruct (isStateOf o a row) eqn:E; simpl.
  - change (isStateOf o a (applyTagStatePatch p row)) with (isStateOf o a row).
    by rewrite E.
  - by rewrite E.
Qed.

(** C10. When the state was marked dirty again during a run,
    finalisation re-opens it: the status is pending, the dirty flag is
    cleared, and both the window start and the quiet deadline are taken
    from the latest event (from the time of the run when the row records no
    event): [window_started_at] becomes [last_event_at] and [next_run_at]
    becomes [last_event_at] plus five minutes, whatever the window start was
    before. *)
Theorem C10_finalize_dirty_restarts_window o a now n model version st row :
  selectState o a st = Some row ->
  st_dirty row = true ->
  fails FinalizeSelect = None ->
  fails FinalizeUpdatePending = None ->
  let run := finalizeAssignmentTagState fails o a now n model version st in
  let lastEventAt := default now (st_last_event_at row) in
  run.2 = Ok ()
  /\ exists row',
       selectState o a run.1 = Some row'
       /\ st_status row' = pending
       /\ st_dirty row' = false
       /\ st_window_started_at row' = Some lastEventAt
       /\ st_next_run_at row' = Some (lastEventAt + 5 * 60 * 1000)
       /\ st_last_event_at row' = st_last_event_at row
       /\ st_sample_count row' = Some n.
Proof.
  intros Hsel Hdirty Hf1 Hf2 run lastEventAt. subst run.
  unfold finalizeAssignmentTagState. unfold_monad.
  rewrite Hf1, Hsel. cbn [from_option]. rewrite Hdirty, Hf2.
  cbn [fst snd]. split; [done|].
  rewrite selectState_updateState, Hsel. cbn [fmap option_fmap option_map].
  eexists. split; [reflexivity|]. cbn. split_and!; done.
Qed.
End TagState.

Lemma C10_finalize_dirty_witness :
  let run := finalizeAssignmentTagState noFaults teacher hw1 (minutes 27) 6
               (js "gemini-3-flash-preview") (js "v1.0") dirtyStore in
  selectState teacher hw1 dirtyStore = Some dirtyRunningState
  /\ run.2 = Ok ()
  /\ exists row',
       selectState teacher hw1 run.1 = Some row'
       /\ st_status row' = pending
       /\ st_window_started_at row' = Some (minutes 26)
       /\ st_next_run_at row' = Some (minutes 26 + 5 * 60 * 1000).
Proof.
  split; [reflexivity|].
  destruct (C10_finalize_dirty_restarts_window noFaults teacher hw1 (minutes 27) 6
              (js "gemini-3-flash-preview") (js "v1.0") dirtyStore dirtyRunningState)
    as (Hok & row' & Hsel & Hstatus & _ & Hwindow & Hnext & _);
    [reflexivity|reflexivity|reflexivity|reflexivity|].
  split; [exact Hok|]. exists row'.
  split; [exact Hsel|]. split; [exact Hstatus|].
  split; [exact Hwindow|exact Hnext].
Defined.

Section Debounce.
Implicit Types (o a : jsstring) (row : AssignmentTagState).

Lemma isDue_spec t row next w :
  st_next_run_at row = Some next ->
  st_last_event_at row = Some (next - 5 * 60 * 1000) ->
  st_window_started_at row = Some w ->
  isDue t row = true <-> next <= t \/ 30 * 60 * 1000 <= t - w.
Proof.
  intros Hn He Hw. unfold isDue, TAG_QUIET_MINUTES, TAG_MAX_WAIT_MINUTES.
  rewrite Hn, He, Hw.
  destruct (next <=? t) eqn:E1; [apply Z.leb_le in E1|apply Z.leb_gt in E1].
  - simpl. split; [|done]. intros _. by left.
  - rewrite orb_true_iff, !Z.leb_le. split; intros [?|?]; lia.
Qed.

Lemma touchedState_unlocked now o a (existing : option AssignmentTagState) :
  from_option st_manual_locked false existing = false ->
  let row' := touchedState now o a existing in
  st_manual_locked row' = false
  /\ st_last_event_at row' = Some now
  /\ st_next_run_at row' = Some (now + 5 * 60 * 1000)
  /\ st_window_started_at row' = Some (windowAfterTouch now existing)
  /\ st_status row' =
       (if bool_decide (from_option st_status idle existing = running)
        then running else pending).
Proof.
  intros Hlock. unfold touchedState, touchRow, windowAfterTouch.
  rewrite Hlock. cbn -[bool_decide elem_of].
  unfold addMinutesIso, TAG_QUIET_MINUTES. split_and!.
  - done.
  - done.
  - done.
  - destruct existing as [row|]; [|done]. cbn -[bool_decide elem_of].
    destruct (st_window_started_at row) as [w|]; [|done].
    destruct (st_status row); done.
  - done.
Qed.
End Debounce.

Section DebounceCeiling.
Implicit Types (o a : jsstring) (row : AssignmentTagState).

Lemma touchedState_open_window t o a row w :
  st_manual_locked row = false ->
  st_status row = pending \/ st_status row = running ->
  st_window_started_at row = Some w ->
  let row' := touchedState t o a (Some row) in
  st_manual_locked row' = false
  /\ st_status row' = st_status row
  /\ st_window_started_at row' = Some w.
Proof.
  intros Hlock Hstatus Hw.
  destruct (touchedState_unlocked t o a (Some row) Hlock)
    as (Hl & _ & _ & Hwin & Hst).
  cbn zeta. split; [done|]. split.
  - rewrite Hst. simpl. by destruct Hstatus as [->| ->].
  - rewrite Hwin. unfold windowAfterTouch. rewrite Hw.
    by destruct Hstatus as [->| ->].
Qed.

Lemma isDue_max_wait t row w :
  st_window_started_at row = Some w ->
  30 * 60 * 1000 <= t - w -> isDue t row = true.
Proof.
  intros Hw Ht. unfold isDue, TAG_MAX_WAIT_MINUTES. rewrite Hw.
  apply orb_true_iff. right. apply Z.leb_le. lia.
Qed.

End DebounceCeiling.

(** The debounce scenario: events at minutes 0, 3 and 29. *)
Example debounce_scenario :
  let touch t st := (touchAssignmentTagStates noFaults (minutes t) teacher [hw1] st).1 in
  let st0 := touch 0 (mkStore [] [] [] [] [] [] [] 1) in
  let st3 := touch 3 st0 in
  let st29 := touch 29 st3 in
  (st_next_run_at <$> selectState teacher hw1 st0) = Some (Some (minutes 5))
  /\ (st_next_run_at <$> selectState teacher hw1 st3) = Some (Some (minutes 8))
  /\ (st_window_started_at <$> selectState teacher hw1 st3) = Some (Some (minutes 0))
  /\ (st_next_run_at <$> selectState teacher hw1 st29) = Some (Some (minutes 34))
  /\ (isDue (minutes 30) <$> selectState teacher hw1 st29) = Some true
  /\ handleAggregateTagsSelection st29 = 1%nat.
Proof. vm_compute. done. Qed.

(** ** The sync request *)

(** C4, as stated, fails: the touch of the tag state fails and the sync
    request, whose submission is already written, answers 500. *)
Lemma C4_counterexample :
  let run := handleSyncPost (failsOnly TouchUpsertStates "state upsert failed")
               (minutes 1) teacher [gradedRow] [] emptyStore in
  run.2 = mkResponse 500 (BodyError (js "state upsert failed"))
  /\ sub_id <$> submissions run.1 = [js "sub-1"].
Proof. vm_compute. done. Qed.

(** C4, amended. A failure of the touch of the tag states is not
    swallowed.  When a sync request marks submissions graded and either call
    of the touch fails, the error is thrown to the handler of the request,
    which answers 500 with the message of the error.  The submission rows
    upserted before the touch stay written, the tag states are as they were,
    and the folders of the request are not written. *)
Theorem C4_touch_failure_fails_sync
    (fails : DbCall -> option jsstring) (now : Z) (user : jsstring)
    (rows : list SubmissionRow) (folderRows : list Folder) (st : Store)
    (message : jsstring) :
  touchedAssignments rows <> [] ->
  fails SyncUpsertSubmissions = None ->
  fails TouchSelectStates = Some message
  \/ (fails TouchSelectStates = None /\ fails TouchUpsertStates = Some message) ->
  let run := handleSyncPost fails now user rows folderRows st in
  run.2 = mkResponse 500 (BodyError message)
  /\ submissions run.1
     = foldl (fun subs row => upsertSubmission user row subs) (submissions st) rows
  /\ assignment_tag_state run.1 = assignment_tag_state st
  /\ folders run.1 = folders st.
Proof.
  intros Htouched Hsub Htouch run. subst run.
  unfold handleSyncPost, syncWrites.
  destruct rows as [|row rows]; [done|].
  destruct (touchedAssignments (row :: rows)) as [|id ids] eqn:E; [done|].
  unfold touchAssignmentTagStates. unfold_monad. rewrite Hsub.
  destruct Htouch as [Hsel|[Hsel Hup]].
  - rewrite Hsel. done.
  - rewrite Hsel, Hup. done.
Qed.

Lemma C4_touch_failure_witness :
  touchedAssignments [gradedRow] <> []
  /\ (handleSyncPost (failsOnly TouchSelectStates "state select failed")
        (minutes 1) teacher [gradedRow] [] emptyStore).2
     = mkResponse 500 (BodyError (js "state select failed")).
Proof.
  assert (H : touchedAssignments [gradedRow] <> []) by (vm_compute; discriminate).
  split; [exact H|].
  apply (C4_touch_failure_fails_sync (failsOnly TouchSelectStates "state select failed")
           (minutes 1) teacher [gradedRow] [] emptyStore
           (js "state select failed") H).
  - reflexivity.
  - left. reflexivity.
Defined.

Example sync_succeeds_when_touch_succeeds :
  (handleSyncPost noFaults (minutes 1) teacher [gradedRow] [] emptyStore).2
  = mkResponse 200 BodySuccess.
Proof. vm_compute. done. Qed.

(** ** The manual override *)
Section JsMap.
Context {V : Type}.
Implicit Types (l : list (jsstring * V)) (k : jsstring).

Lemma foldl_insert_lookup l (m0 : gmap jsstring V) k v :
  foldl (fun m kv => <[fst kv := snd kv]> m) m0 l !! k = Some v ->
  (k, v) ∈ l \/ m0 !! k = Some v.
Proof.
  revert m0. induction l as [|[k' v'] l IH]; intros m0 Hl; simpl in *; [by right|].
  apply IH in Hl as [Hl|Hl].
  - left. apply elem_of_cons. by right.
  - destruct (decide (k' = k)) as [->|Hne].
    + rewrite lookup_insert_eq in Hl. injection Hl as ->.
      left. apply elem_of_cons. by left.
    + rewrite lookup_insert_ne in Hl by done. by right.
Qed.

Lemma foldl_insert_is_Some l (m0 : gmap jsstring V) k :
  k ∈ l.*1 \/ is_Some (m0 !! k) ->
  is_Some (foldl (fun m kv => <[fst kv := snd kv]> m) m0 l !! k).
Proof.
  revert m0. induction l as [|[k' v'] l IH]; intros m0 Hk; simpl in *.
  - destruct Hk as [Hk|Hk]; [by apply elem_of_nil in Hk|done].
  - apply IH. destruct Hk as [[->|Hk]%elem_of_cons|Hk].
    + right. rewrite lookup_insert_eq. eauto.
    + by left.
    + right. destruct (decide (k' = k)) as [->|Hne].
      * rewrite lookup_insert_eq. eauto.
      * by rewrite lookup_insert_ne.
Qed.

Lemma jsMapOf_lookup_Some l k v : jsMapOf l !! k = Some v -> (k, v) ∈ l.
Proof.
  unfold jsMapOf. intros [H|H]%foldl_insert_lookup; [done|].
  by rewrite lookup_empty in H.
Qed.

Lemma jsMapOf_lookup_is_Some l k : k ∈ l.*1 -> is_Some (jsMapOf l !! k).
Proof. intros Hk. apply foldl_insert_is_Some. by left. Qed.
End JsMap.

Section Pinned.
Variable fails : DbCall -> option jsstring.
Implicit Types (o a : jsstring) (st : Store) (row : AssignmentTagState)
  (p : TagStatePatch).

Lemma isStateOf_true o a row :
  isStateOf o a row = true <-> st_owner_id row = o /\ st_assignment_id row = a.
Proof. unfold isStateOf. by rewrite andb_true_iff, !bool_decide_eq_true. Qed.

Lemma elem_of_List_filter {A} (f : A -> bool) (l : list A) x :
  x ∈ List.filter f l <-> x ∈ l /\ f x = true.
Proof. rewrite !list_elem_of_In. apply List.filter_In. Qed.









End Pinned.

(** ** The dictionary *)

(** C5 fails on the code.  Two tags of one batch whose labels differ by
    white space only are both new to the dictionary map, which is not updated
    inside the loop, and both are inserted as active entries with the same
    normalized label: by a manual override and by a clustering run alike. *)
Lemma C5_duplicate_active_labels :
  let manual := handleTagsOverride asciiLowerCase noFaults 1000 postedTwoSpellings
                  emptyStore in
  let cluster := aggregateAssignmentTags asciiLowerCase noFaults
                   (fun _ _ => Ok twoSpellings) 1000 pendingState classStore in
  activeLabelsUnique teacher (tag_dictionary emptyStore)
  /\ manual.2 = Ok (mkResponse 200 BodySuccess)
  /\ ((fun row => (td_label row, td_normalized_label row, td_status row))
        <$> tag_dictionary manual.1)
     = [ (js "sign error", js "signerror", active);
         (js "sign  error", js "signerror", active) ]
  /\ ~ activeLabelsUnique teacher (tag_dictionary manual.1)
  /\ activeLabelsUnique teacher (tag_dictionary classStore)
  /\ cluster.2 = Ok (mkRunResult RunReady 6)
  /\ ~ activeLabelsUnique teacher (tag_dictionary cluster.1).
Proof.
  cbn zeta. split_and!.
  - apply NoDup_nil_2.
  - vm_compute. reflexivity.
  - vm_compute. reflexivity.
  - unfold activeLabelsUnique. vm_compute.
    intros [Hnot _]%NoDup_cons. apply Hnot. apply elem_of_cons. by left.
  - apply NoDup_nil_2.
  - vm_compute. reflexivity.
  - unfold activeLabelsUnique. vm_compute.
    intros [Hnot _]%NoDup_cons. apply Hnot. apply elem_of_cons. by left.
Qed.


(** ** The ability rollup *)
Section AbilityRollupFacts.
Variable toLowerCase : jsstring -> jsstring.
Variable num : Type.
Variable num_of_Z : Z -> num.
Variables num_add num_mul : num -> num -> num.
Variable num_isFinite : num -> bool.
Variable Math_round : num -> Z.

Local Abbreviation Mapping := (TagAbilityMapping num).
Local Abbreviation Bucket := (AbilityBucket num).
Local Abbreviation codeWeight := (weightOf num num_of_Z num_isFinite).
Local Abbreviation total := (weightedSum toLowerCase num num_of_Z num_add num_mul).
Local Abbreviation contributing := (contributions toLowerCase num).

Implicit Types (byTag : gmap jsstring Mapping)
  (byAssignment : gmap jsstring jsstring)
  (rows : list AssignmentTagAggregate) (row : AssignmentTagAggregate)
  (stats : list (N * Bucket)).

Local Abbreviation bucketOf :=
  (bucketOf toLowerCase num num_of_Z num_add num_mul num_isFinite).

Lemma bucketOf_nil byTag byAssignment :
  bucketOf byTag byAssignment [] = emptyBucket num num_of_Z.
Proof. done. Qed.

Lemma bucketOf_snoc byTag byAssignment rows row mapping :
  mappingOf toLowerCase num byTag row = Some mapping ->
  addToAbilityBucket num num_of_Z num_add num_mul num_isFinite byAssignment
    row mapping (bucketOf byTag byAssignment rows)
  = bucketOf byTag byAssignment (rows ++ [row]).
Proof.
  intros Hm. unfold addToAbilityBucket, bucketOf. simpl. f_equal.
  - unfold weightedSum. by rewrite foldl_snoc, Hm.
  - unfold assignmentsOf. rewrite fmap_app, filter_app. simpl.
    destruct (agg_assignment_id row) as [|c r] eqn:E; simpl.
    + rewrite filter_cons_False by (unfold nonEmpty; naive_solver).
      rewrite filter_nil. by rewrite app_nil_r.
    + rewrite filter_cons_True by done. rewrite filter_nil.
      rewrite list_to_set_app_L. simpl. set_solver.
  - unfold domainsOf. rewrite fmap_app, filter_app. simpl.
    destruct (agg_assignment_id row) as [|c r] eqn:E; simpl.
    + rewrite filter_cons_False by (unfold nonEmpty; naive_solver).
      rewrite filter_nil. by rewrite app_nil_r.
    + rewrite filter_cons_True by done. rewrite filter_nil.
      rewrite fmap_app, list_to_set_app_L. simpl. set_solver.
Qed.

Lemma contributions_snoc byTag abilityId rows row :
  contributing byTag abilityId (rows ++ [row])
  = contributing byTag abilityId rows
    ++ (if decide (tam_ability_id num <$> mappingOf toLowerCase num byTag row
                   = Some abilityId)
        then [row] else []).
Proof.
  unfold contributions. by rewrite filter_app.
Qed.

(** The statistics after the loop over the rows: an ability has a bucket
    exactly when some row contributes to it, and the bucket is what its
    contributing rows add up to. *)
Lemma abilityStatsOf_spec byTag byAssignment rows :
  let stats := abilityStatsOf toLowerCase num num_of_Z num_add num_mul
                 num_isFinite byTag byAssignment rows in
  NoDup stats.*1
  /\ forall abilityId,
       assocGet abilityId stats
       = if decide (contributing byTag abilityId rows = []) then None
         else Some (bucketOf byTag byAssignment
                      (contributing byTag abilityId rows)).
Proof.
  unfold abilityStatsOf.
  induction rows as [|row rows IH] using rev_ind.
  - split; [constructor|]. intros abilityId. done.
  - cbn zeta in IH |- *. destruct IH as [Hnd IH]. rewrite foldl_snoc.
    destruct (mappingOf toLowerCase num byTag row) as [mapping|] eqn:Hm.
    + split; [by apply keys_assocUpdate_NoDup|].
      intros abilityId. rewrite contributions_snoc, Hm. simpl.
      unfold updateAbilityStats.
      destruct (decide (tam_ability_id num mapping = abilityId)) as [<-|Hne].
      * rewrite assocGet_update_eq, IH.
        rewrite (decide_True (P := Some _ = Some _)) by done.
        rewrite (decide_False (P := _ ++ [row] = [])) 
          by (intros [_ ?]%app_eq_nil; done).
        f_equal. rewrite <- (bucketOf_snoc _ _ _ _ mapping Hm).
        f_equal. case_decide as E; [by rewrite E|done].
      * rewrite assocGet_update_ne by done. rewrite IH.
        rewrite (decide_False (P := Some _ = Some _)) by congruence.
        by rewrite app_nil_r.
    + split; [done|]. intros abilityId. rewrite contributions_snoc, Hm.
      simpl. by rewrite app_nil_r.
Qed.
End AbilityRollupFacts.

Section AbilityRollupTheorem.
Variable toLowerCase : jsstring -> jsstring.
Variable num : Type.
Variable num_of_Z : Z -> num.
Variables num_add num_mul : num -> num -> num.
Variable num_isFinite : num -> bool.
Variable Math_round : num -> Z.

Local Abbreviation Mapping := (TagAbilityMapping num).
Local Abbreviation codeWeight := (weightOf num num_of_Z num_isFinite).
Local Abbreviation total := (weightedSum toLowerCase num num_of_Z num_add num_mul).
Local Abbreviation contributing := (contributions toLowerCase num).

Implicit Types (byTag : gmap jsstring Mapping)
  (rows : list AssignmentTagAggregate) (mappingRows : list Mapping).

Lemma abilityByTag_lookup tagRows mappingRows k (m : Mapping) :
  abilityByTag toLowerCase num tagRows mappingRows !! k = Some m ->
  m ∈ mappingRows.
Proof.
  unfold abilityByTag.
  assert (G : forall (m0 : gmap jsstring Mapping),
    foldl (fun acc row =>
             match tagLabelById toLowerCase tagRows !! tam_tag_id num row with
             | Some tagNormalized =>
                 if isEmpty tagNormalized then acc
                 else <[tagNormalized := row]> acc
             | None => acc
             end) m0 mappingRows !! k = Some m ->
    m ∈ mappingRows \/ m0 !! k = Some m).
  { induction mappingRows as [|row l IH]; intros m0 Hl; simpl in *; [by right|].
    apply IH in Hl as [Hl|Hl]; [left; apply elem_of_cons; by right|].
    destruct (tagLabelById toLowerCase tagRows !! tam_tag_id num row)
      as [label|]; [|by right].
    destruct (isEmpty label); [by right|].
    destruct (decide (label = k)) as [->|Hne].
    - rewrite lookup_insert_eq in Hl. injection Hl as ->.
      left. apply elem_of_cons. by left.
    - rewrite lookup_insert_ne in Hl by done. by right. }
  intros [H|H]%G; [done|]. by rewrite lookup_empty in H.
Qed.

Lemma weightedSum_ext (w1 w2 : Mapping -> num) byTag rows :
  (forall k m, byTag !! k = Some m -> w1 m = w2 m) ->
  total w1 byTag rows = total w2 byTag rows.
Proof.
  intros Hw. unfold weightedSum. generalize (num_of_Z 0).
  induction rows as [|row rows IH]; intros acc; simpl; [done|].
  destruct (mappingOf toLowerCase num byTag row) as [m|] eqn:Hm; [|done].
  unfold mappingOf in Hm.
  destruct (isEmpty (normalizeTagLabel toLowerCase (agg_tag_label row)));
    [done|].
  by rewrite (Hw _ _ Hm), IH.
Qed.

(** C9, amended. The rollup writes one row per ability that some row of
    the assignment aggregates contributes to, a row contributing through the
    mapping of its tag (rows of unmapped tags are skipped).  With every
    mapping carrying a numeric confidence, the [total_count] of the row is
    [max(1, round(s))], where [s] is the sum over the contributing rows, in
    order, of [tag_count * confidence]; its [assignment_count] and
    [domain_count] are the numbers of distinct contributing assignments and
    of their distinct domains. *)
Theorem C9_ability_rollup ownerId now mappingRows tagRows rows assignmentRows :
  (forall m, m ∈ mappingRows ->
     exists c, tam_confidence num m = Some c /\ num_isFinite c = true) ->
  let byTag := abilityByTag toLowerCase num tagRows mappingRows in
  let byAssignment := domainByAssignment assignmentRows in
  let written := abilityRollup toLowerCase num num_of_Z num_add num_mul
                   num_isFinite Math_round ownerId now mappingRows tagRows
                   rows assignmentRows in
  NoDup (aa_ability_id <$> written)
  /\ (forall abilityId,
        abilityId ∈ aa_ability_id <$> written <->
        contributing byTag abilityId rows <> [])
  /\ forall r, r ∈ written ->
       let cs := contributing byTag (aa_ability_id r) rows in
       aa_owner_id r = ownerId
       /\ aa_total_count r
          = Z.max 1 (Math_round (total (confidenceOr1 num num_of_Z) byTag cs))
       /\ aa_assignment_count r = size (assignmentsOf cs)
       /\ aa_domain_count r = size (domainsOf byAssignment cs).
Proof.
  intros Hconf byTag byAssignment written.
  destruct (abilityStatsOf_spec toLowerCase num num_of_Z num_add num_mul
              num_isFinite byTag byAssignment rows) as [Hnd Hget].
  set (stats := abilityStatsOf _ _ _ _ _ _ byTag byAssignment rows) in *.
  assert (Hids : aa_ability_id <$> written = stats.*1).
  { unfold written, abilityRollup, abilityRowsOf. fold byTag byAssignment stats.
    rewrite <- list_fmap_compose. by apply list_fmap_ext. }
  split_and!.
  - by rewrite Hids.
  - intros abilityId. rewrite Hids. specialize (Hget abilityId).
    destruct (decide (contributing byTag abilityId rows = [])) as [E|E].
    + apply assocGet_None in Hget. split; [done|]. intros H. done.
    + split; [done|]. intros _.
      apply assocGet_Some_elem_of in Hget.
      apply list_elem_of_fmap. by eexists (_, _).
  - intros r Hr cs. unfold written, abilityRollup, abilityRowsOf in Hr.
    fold byTag byAssignment stats in Hr.
    apply list_elem_of_fmap in Hr as ([abilityId bucket] & -> & Hin).
    subst cs. simpl.
    apply elem_of_assocGet in Hin; [|done].
    rewrite Hget in Hin.
    destruct (decide (contributing byTag abilityId rows = [])); [done|].
    injection Hin as <-. simpl. split_and!; try done.
    f_equal. f_equal. apply weightedSum_ext.
    intros k m Hm. apply abilityByTag_lookup in Hm.
    destruct (Hconf m Hm) as (c & Hc & Hfin).
    unfold weightOf, confidenceOr1. rewrite Hc. simpl. by rewrite Hfin.
Qed.
End AbilityRollupTheorem.

(** C9, as stated, fails: three occurrences of a tag mapped with confidence
    one half add up to three halves, and the row written has total 2. *)
Lemma C9_counterexample :
  let mapping := [mkMapping Q 1 7 (Some (1 # 2)%Q)] in
  rollupQ mapping unitsThreeTimes = [mkAbilityAggregate teacher 7 2 1 1 1000]
  /\ Qeq (weightedSum asciiLowerCase Q inject_Z Qplus Qmult (confidenceOr1 Q inject_Z)
            (abilityByTag asciiLowerCase Q [dictionaryEntry 1 "units"] mapping)
            unitsThreeTimes) (3 # 2)%Q
  /\ ~ Qeq (inject_Z 2) (3 # 2)%Q.
Proof.
  cbn zeta. split_and!.
  - vm_compute. reflexivity.
  - vm_compute. reflexivity.
  - vm_compute. discriminate.
Qed.

(** A mapping whose confidence is [null] weighs 0, not 1: [Number(null)] is
    [0], which is finite. *)
Example null_confidence_weighs_zero :
  rollupQ [mkMapping Q 1 7 None] unitsThreeTimes
  = [mkAbilityAggregate teacher 7 1 1 1 1000]
  /\ weightOf Q inject_Z (fun _ => true) (mkMapping Q 1 7 None) = inject_Z 0.
Proof. vm_compute. done. Qed.

Lemma C9_ability_rollup_witness :
  let mappingRows := [mkMapping Q 1 7 (Some (1 # 2)%Q)] in
  (forall m, m ∈ mappingRows -> exists c, tam_confidence Q m = Some c /\ true = true)
  /\ NoDup (aa_ability_id <$> rollupQ mappingRows unitsThreeTimes).
Proof.
  cbn zeta.
  assert (H : forall m, m ∈ [mkMapping Q 1 7 (Some (1 # 2)%Q)] ->
                exists c, tam_confidence Q m = Some c /\ true = true).
  { intros m Hm. apply list_elem_of_singleton in Hm. subst m.
    exists (1 # 2)%Q. done. }
  split; [exact H|].
  apply (C9_ability_rollup asciiLowerCase Q inject_Z Qplus Qmult (fun _ => true)
           roundQ teacher 1000 [mkMapping Q 1 7 (Some (1 # 2)%Q)]
           [dictionaryEntry 1 "units"] unitsThreeTimes
           [mkAssignment hw1 teacher (js "math")] H).
Defined.

(** ** An event, on the store *)
Section TouchOnStore.
Variable fails : DbCall -> option jsstring.
Implicit Types (o a : jsstring) (st : Store) (p : TagStatePatch).

Lemma jsMapOf_lookup_last {V} (l : list (jsstring * V)) k :
  jsMapOf l !! k
  = last (snd <$> List.filter (fun kv => bool_decide (kv.1 = k)) l).
Proof.
  unfold jsMapOf.
  assert (G : forall m0 : gmap jsstring V,
    foldl (fun m kv => <[kv.1 := kv.2]> m) m0 l !! k
    = match last (snd <$> List.filter (fun kv => bool_decide (kv.1 = k)) l) with
      | Some v => Some v
      | None => m0 !! k
      end).
  { induction l as [|[k' v] l IH]; intros m0; simpl; [done|].
    rewrite IH. case_bool_decide as E; simpl in *.
    - subst k'. rewrite last_cons.
      change (list_fmap (jsstring * V)%type V snd ?x) with (snd <$> x).
      destruct (last _); [done|]. by rewrite lookup_insert_eq.
    - destruct (last _); [done|]. by rewrite lookup_insert_ne. }
  rewrite G. destruct (last _); [done|]. by rewrite lookup_empty.
Qed.

Lemma selectState_head o a st : selectState o a st = head (stateRowsOf o a st).
Proof. done. Qed.

Lemma stateRowsOf_updateState_same o a p st :
  stateRowsOf o a (updateState o a p st)
  = applyTagStatePatch p <$> stateRowsOf o a st.
Proof.
  unfold stateRowsOf, updateState. simpl.
  induction (assignment_tag_state st) as [|row rows IH]; [done|].
  rewrite fmap_cons. simpl. destruct (isStateOf o a row) eqn:E; simpl.
  - change (isStateOf o a (applyTagStatePatch p row)) with (isStateOf o a row).
    by rewrite E, IH.
  - by rewrite E.
Qed.

Lemma stateRowsOf_updateState_other o a o' a' p st :
  (o', a') <> (o, a) ->
  stateRowsOf o a (updateState o' a' p st) = stateRowsOf o a st.
Proof.
  intros Hne. unfold stateRowsOf, updateState. simpl.
  induction (assignment_tag_state st) as [|row rows IH]; [done|].
  rewrite fmap_cons. simpl. destruct (isStateOf o' a' row) eqn:E'.
  - change (isStateOf o a (applyTagStatePatch p row)) with (isStateOf o a row).
    destruct (isStateOf o a row) eqn:E; [|done].
    apply isStateOf_true in E as [<- <-].
    apply isStateOf_true in E' as [<- <-]. done.
  - by rewrite IH.
Qed.

Lemma stateRowsOf_upsertState_same o a p st :
  stateRowsOf o a (upsertState o a p st) = upserted o a p (stateRowsOf o a st).
Proof.
  unfold upsertState. rewrite selectState_head.
  destruct (stateRowsOf o a st) as [|r rows] eqn:E; simpl.
  - unfold stateRowsOf in *. simpl. rewrite List.filter_app, E. simpl.
    change (isStateOf o a (applyTagStatePatch p (blankTagState o a)))
      with (isStateOf o a (blankTagState o a)).
    assert (Hk : isStateOf o a (blankTagState o a) = true)
      by by apply isStateOf_true.
    by rewrite Hk.
  - by rewrite stateRowsOf_updateState_same, E.
Qed.

Lemma stateRowsOf_upsertState_other o a o' a' p st :
  (o', a') <> (o, a) ->
  stateRowsOf o a (upsertState o' a' p st) = stateRowsOf o a st.
Proof.
  intros Hne. unfold upsertState.
  destruct (selectState o' a' st); [by apply stateRowsOf_updateState_other|].
  unfold stateRowsOf. simpl. rewrite List.filter_app. simpl.
  change (isStateOf o a (applyTagStatePatch p (blankTagState o' a')))
    with (isStateOf o a (blankTagState o' a')).
  destruct (isStateOf o a (blankTagState o' a')) eqn:E.
  - apply isStateOf_true in E as [<- <-]. done.
  - by rewrite app_nil_r.
Qed.

Lemma applyTagStatePatch_touchRow_idemp now existing row :
  applyTagStatePatch (touchRow now existing)
    (applyTagStatePatch (touchRow now existing) row)
  = applyTagStatePatch (touchRow now existing) row.
Proof.
  unfold applyTagStatePatch, touchRow. simpl.
  by destruct (from_option st_manual_locked false existing).
Qed.

Lemma upserted_touchRow_idemp o a now existing rows :
  upserted o a (touchRow now existing) (upserted o a (touchRow now existing) rows)
  = upserted o a (touchRow now existing) rows.
Proof.
  destruct rows as [|r rows]; simpl.
  - by rewrite applyTagStatePatch_touchRow_idemp.
  - rewrite applyTagStatePatch_touchRow_idemp. f_equal.
    rewrite <- list_fmap_compose. apply list_fmap_ext.
    intros i x _. apply applyTagStatePatch_touchRow_idemp.
Qed.

Lemma stateRowsOf_foldl_upsert o a now existing
    (rows : list (jsstring * TagStatePatch)) st :
  (forall id p, (id, p) ∈ rows -> id = a -> p = touchRow now existing) ->
  stateRowsOf o a
    (foldl (fun st r => upsertState o (fst r) (snd r) st) st rows)
  = if decide (a ∈ rows.*1)
    then upserted o a (touchRow now existing) (stateRowsOf o a st)
    else stateRowsOf o a st.
Proof.
  revert st. induction rows as [|[id p] rows IH]; intros st Hrows.
  - case_decide as H; [by apply elem_of_nil in H|done].
  - cbn [foldl fst snd]. rewrite fmap_cons. cbn [fst]. rewrite IH
      by (intros id' p' Hin; apply Hrows; apply elem_of_cons; by right).
    destruct (decide (id = a)) as [->|Hne].
    + rewrite (Hrows a p) by (done || (apply elem_of_cons; by left)).
      rewrite stateRowsOf_upsertState_same.
      rewrite (decide_True (P := a ∈ a :: rows.*1))
        by (apply elem_of_cons; by left).
      destruct (decide (a ∈ rows.*1)); [|done].
      apply upserted_touchRow_idemp.
    + rewrite stateRowsOf_upsertState_other by congruence.
      destruct (decide (a ∈ rows.*1)) as [Hin|Hin].
      * rewrite decide_True; [done|]. apply elem_of_cons. by right.
      * rewrite decide_False; [done|]. by intros [?|?]%elem_of_cons.
Qed.

(** The row that [touchAssignmentTagStates] reads for an assignment of the
    event is the row of the assignment. *)
Lemma stateMap_lookup o a (ids : list jsstring) st :
  a ∈ ids -> keyUnique o a st ->
  jsMapOf ((fun row => (st_assignment_id row, row))
             <$> List.filter
                   (fun row => bool_decide (st_owner_id row = o)
                               && bool_decide (st_assignment_id row ∈ ids))
                   (assignment_tag_state st)) !! a
  = selectState o a st.
Proof.
  intros Hin Huniq. rewrite jsMapOf_lookup_last, selectState_head.
  assert (Heq : snd <$> List.filter (fun kv => bool_decide (kv.1 = a))
                  ((fun row => (st_assignment_id row, row))
                     <$> List.filter
                           (fun row => bool_decide (st_owner_id row = o)
                                       && bool_decide (st_assignment_id row ∈ ids))
                           (assignment_tag_state st))
                = stateRowsOf o a st).
  { unfold stateRowsOf.
    induction (assignment_tag_state st) as [|row rows IH]; [done|].
    cbn [List.filter]. unfold isStateOf at 1.
    destruct (bool_decide (st_owner_id row = o)) eqn:Eo; cbn [andb];
      [|exact IH].
    destruct (decide (st_assignment_id row = a)) as [Ea|Ea].
    - rewrite Ea. rewrite !bool_decide_true by done.
      rewrite fmap_cons. cbn [List.filter fst].
      rewrite bool_decide_true by done. rewrite fmap_cons. cbn [snd].
      f_equal. exact IH.
    - rewrite (bool_decide_false _ Ea).
      destruct (bool_decide (st_assignment_id row ∈ ids)); [|exact IH].
      rewrite fmap_cons. cbn [List.filter fst].
      rewrite (bool_decide_false _ Ea). exact IH. }
  rewrite Heq. unfold keyUnique in Huniq.
  destruct (stateRowsOf o a st) as [|r [|r' rows]]; simpl in *; [done|done|lia].
Qed.

(** After an event, the assignment has one row: the touched one. *)
Lemma touch_on_store now o a (ids : list jsstring) st :
  fails TouchSelectStates = None ->
  fails TouchUpsertStates = None ->
  a ∈ ids -> keyUnique o a st ->
  let st' := (touchAssignmentTagStates fails now o ids st).1 in
  selectState o a st' = Some (touchedState now o a (selectState o a st))
  /\ keyUnique o a st'.
Proof.
  intros Hf1 Hf2 Hin Huniq. unfold touchAssignmentTagStates.
  destruct ids as [|id0 ids0]; [by apply elem_of_nil in Hin|].
  set (ids := id0 :: ids0) in *. unfold_monad. rewrite Hf1, Hf2. cbn [fst].
  set (data := List.filter _ (assignment_tag_state st)).
  set (stateMap := jsMapOf _).
  assert (Hrows : stateRowsOf o a
            (foldl (fun st r => upsertState o (fst r) (snd r) st) st
               ((fun id => (id, touchRow now (stateMap !! id))) <$> ids))
          = upserted o a (touchRow now (selectState o a st)) (stateRowsOf o a st)).
  { rewrite (stateRowsOf_foldl_upsert o a now (selectState o a st)).
    - rewrite decide_True; [done|].
      rewrite <- list_fmap_compose. simpl. by rewrite list_fmap_id.
    - intros id p (id' & [= -> ->] & _)%list_elem_of_fmap ->.
      f_equal. by apply stateMap_lookup. }
  cbn zeta. rewrite selectState_head. unfold keyUnique. rewrite Hrows.
  unfold touchedState. rewrite selectState_head.
  unfold keyUnique in Huniq.
  destruct (stateRowsOf o a st) as [|r [|r' rows]]; simpl in *;
    [done|done|lia].
Qed.
End TouchOnStore.

Section EventOnStore.
Variable fails : DbCall -> option jsstring.
Hypothesis select_ok : fails TouchSelectStates = None.
Hypothesis upsert_ok : fails TouchUpsertStates = None.
Implicit Types (o a : jsstring) (st : Store).

Lemma touch_other now o' (ids : list jsstring) o a st :
  o' <> o \/ a ∉ ids ->
  stateRowsOf o a (touchAssignmentTagStates fails now o' ids st).1
  = stateRowsOf o a st.
Proof.
  intros Hother. unfold touchAssignmentTagStates.
  destruct ids as [|id0 ids0]; [done|].
  set (ids := id0 :: ids0) in *. unfold_monad.
  rewrite select_ok, upsert_ok. cbn [fst].
  match goal with
  | |- context [foldl _ st (?f <$> ids)] => set (rows := f <$> ids)
  end.
  assert (Hrows : forall id p, (id, p) ∈ rows -> (o', id) <> (o, a)).
  { intros id p (id' & [= -> ->] & Hid)%list_elem_of_fmap [= -> ->].
    destruct Hother as [?|?]; done. }
  clearbody rows. revert st.
  induction rows as [|[id p] rows IH]; intros st; [done|].
  cbn [foldl fst snd]. rewrite IH.
  - apply stateRowsOf_upsertState_other. eapply Hrows. apply elem_of_cons. by left.
  - intros id' p' Hin. apply (Hrows id' p'). apply elem_of_cons. by right.
Qed.

(** Events on an open window keep its start. *)
Lemma afterEvents_open_window o a (events : list GradedEvent) st row w :
  keyUnique o a st ->
  selectState o a st = Some row ->
  st_manual_locked row = false ->
  st_status row = pending \/ st_status row = running ->
  st_window_started_at row = Some w ->
  exists final,
    selectState o a (afterEvents fails events st) = Some final
    /\ st_window_started_at final = Some w.
Proof.
  unfold afterEvents. revert st row.
  induction events as [|ev events IH]; intros st row Huniq Hsel Hl Hst Hw.
  - exists row. done.
  - cbn [foldl]. destruct ev as [t o' ids]. cbn [ev_time ev_owner ev_assignments].
    destruct (decide (o' = o /\ a ∈ ids)) as [[-> Ha]|Hno].
    + destruct (touch_on_store fails t o a ids st select_ok upsert_ok Ha Huniq)
        as [Hsel' Huniq'].
      rewrite Hsel in Hsel'.
      destruct (touchedState_open_window t o a row w Hl Hst Hw)
        as (Hl' & Hst' & Hw').
      eapply IH; [exact Huniq'|exact Hsel'|exact Hl'| |exact Hw'].
      by rewrite Hst'.
    + assert (Hrows : stateRowsOf o a
                (touchAssignmentTagStates fails t o' ids st).1
              = stateRowsOf o a st).
      { apply touch_other.
        destruct (decide (o' = o)); [right|by left]. naive_solver. }
      eapply IH; [| |exact Hl|exact Hst|exact Hw].
      * unfold keyUnique. by rewrite Hrows.
      * by rewrite selectState_head, Hrows.
Qed.

(** C2, amended. An event on an assignment whose state is not manually
    locked sets [last_event_at] to now and [next_run_at] to now plus five
    minutes.  It sets [window_started_at] to now when there was no state
    row, when the row recorded no window start, or when its status was
    idle, ready, failed or insufficient_samples; otherwise (status pending
    or running, with a window start) the window start is kept.  The row
    then passes the due filter of the sweep at a time [t] exactly when
    [t >= next_run_at] or [t - window_started_at] is at least 30 minutes.
    Whatever events follow, they keep the window start, so however far they
    move the quiet deadline the row passes the due filter once 30 minutes
    have gone by since the window start. *)
Theorem C2_event_debounce now o a (ids : list jsstring) st :
  a ∈ ids ->
  keyUnique o a st ->
  from_option st_manual_locked false (selectState o a st) = false ->
  let existing := selectState o a st in
  let st' := (touchAssignmentTagStates fails now o ids st).1 in
  let windowStart := windowAfterTouch now existing in
  exists row',
    selectState o a st' = Some row'
    /\ st_last_event_at row' = Some now
    /\ st_next_run_at row' = Some (now + 5 * 60 * 1000)
    /\ st_window_started_at row' = Some windowStart
    /\ (forall t, isDue t row' = true <->
          now + 5 * 60 * 1000 <= t \/ 30 * 60 * 1000 <= t - windowStart)
    /\ (forall (events : list GradedEvent) t,
          exists final,
            selectState o a (afterEvents fails events st') = Some final
            /\ st_window_started_at final = Some windowStart
            /\ (30 * 60 * 1000 <= t - windowStart -> isDue t final = true)).
Proof.
  intros Hin Huniq Hlock existing st' windowStart.
  destruct (touch_on_store fails now o a ids st select_ok upsert_ok Hin Huniq)
    as [Hsel Huniq'].
  fold st' existing in Hsel, Huniq'.
  destruct (touchedState_unlocked now o a existing Hlock)
    as (Hl & He & Hn & Hw & Hst).
  fold windowStart in Hw.
  exists (touchedState now o a existing). split_and!; try done.
  - intros t. apply isDue_spec; [done| |done].
    rewrite He. f_equal. lia.
  - intros events t.
    assert (Hopen : st_status (touchedState now o a existing) = pending
                    \/ st_status (touchedState now o a existing) = running).
    { rewrite Hst. case_bool_decide; auto. }
    destruct (afterEvents_open_window o a events st' _ windowStart
                Huniq' Hsel Hl Hopen Hw) as (final & Hfinal & Hwf).
    exists final. split; [done|]. split; [done|].
    intros Ht. by eapply isDue_max_wait.
Qed.
End EventOnStore.

Lemma C2_event_debounce_witness :
  let st := mkStore [] [] [] [pendingState] [] [] [] 1 in
  hw1 ∈ [hw1]
  /\ keyUnique teacher hw1 st
  /\ from_option st_manual_locked false (selectState teacher hw1 st) = false
  /\ exists row',
       selectState teacher hw1
         (touchAssignmentTagStates noFaults (minutes 3) teacher [hw1] st).1
       = Some row'
       /\ st_next_run_at row' = Some (minutes 3 + 5 * 60 * 1000)
       /\ st_window_started_at row' = Some 0.
Proof.
  cbn zeta.
  assert (H1 : hw1 ∈ [hw1]) by (apply elem_of_cons; by left).
  assert (H2 : keyUnique teacher hw1 (mkStore [] [] [] [pendingState] [] [] [] 1))
    by (vm_compute; lia).
  assert (H3 : from_option st_manual_locked false
                 (selectState teacher hw1
                    (mkStore [] [] [] [pendingState] [] [] [] 1)) = false)
    by reflexivity.
  split; [exact H1|]. split; [exact H2|]. split; [exact H3|].
  destruct (C2_event_debounce noFaults eq_refl eq_refl (minutes 3) teacher hw1
              [hw1] (mkStore [] [] [] [pendingState] [] [] [] 1) H1 H2 H3)
    as (row' & Hsel & _ & Hnext & Hwindow & _).
  exists row'. split; [exact Hsel|]. split; [exact Hnext|exact Hwindow].
Defined.

(** C2, as stated, fails.  The row is running, which is none of idle,
    ready, failed and insufficient_samples, and records no window start (a
    forced sweep started the run on a state that a manual override had
    created); the event does not keep that but sets the window start to its
    own time. *)
Lemma C2_counterexample :
  let before := mkStore [] [] [] [runningWithoutWindow] [] [] [] 1 in
  let run := touchAssignmentTagStates noFaults (minutes 3) teacher [hw1] before in
  st_manual_locked runningWithoutWindow = false
  /\ st_status runningWithoutWindow = running
  /\ (st_window_started_at <$> selectState teacher hw1 before) = Some None
  /\ run.2 = Ok ()
  /\ (st_window_started_at <$> selectState teacher hw1 run.1)
     = Some (Some (minutes 3)).
Proof. vm_compute. done. Qed.

(** ** What a sweep leaves untouched *)
Section Keeps.
Variable fails : DbCall -> option jsstring.
Context (R : Store -> Store -> Prop) `{!PreOrder R}.

Lemma keeps_ret {A} (x : A) : keeps R (ret x).
Proof. intros st. reflexivity. Qed.

Lemma keeps_throw {A} message : keeps R (@throw A message).
Proof. intros st. reflexivity. Qed.

Lemma keeps_bind {A B} (c : M A) (k : A -> M B) :
  keeps R c -> (forall x, keeps R (k x)) -> keeps R (bind c k).
Proof.
  intros Hc Hk st. unfold bind. specialize (Hc st).
  destruct (c st) as [st1 [x|message]]; simpl in *; [|done].
  etrans; [exact Hc|apply Hk].
Qed.

Lemma keeps_tryCatch {A} (c : M A) (handler : jsstring -> M A) :
  keeps R c -> (forall message, keeps R (handler message)) ->
  keeps R (tryCatch c handler).
Proof.
  intros Hc Hh st. unfold tryCatch. specialize (Hc st).
  destruct (c st) as [st1 [x|message]]; simpl in *; [done|].
  etrans; [exact Hc|apply Hh].
Qed.

Lemma keeps_dbCall {A} call (op : Store -> Store * A) :
  (forall st, R st (op st).1) -> keeps R (dbCall fails call op).
Proof.
  intros Hop st. unfold dbCall. destruct (fails call); [reflexivity|].
  specialize (Hop st). by destruct (op st).
Qed.

Lemma keeps_dbRead {A} call (query : Store -> A) :
  keeps R (dbRead fails call query).
Proof. apply keeps_dbCall. intros st. reflexivity. Qed.

Lemma keeps_dbWrite call (write : Store -> Store) :
  (forall st, R st (write st)) -> keeps R (dbWrite fails call write).
Proof. intros Hw. apply keeps_dbCall. exact Hw. Qed.

Lemma keeps_orThrow {A} (c : M (DbResult A)) :
  keeps R c -> keeps R (orThrow c).
Proof.
  intros Hc. apply keeps_bind; [done|].
  intros [x|message]; [apply keeps_ret|apply keeps_throw].
Qed.

Lemma keeps_pure {A} (out : Outcome A) : keeps R (fun st => (st, out)).
Proof. intros st. reflexivity. Qed.
End Keeps.

#[global] Instance sameAggregateTable_preorder : PreOrder sameAggregateTable.
Proof.
  split; [done|]. intros x y z Hxy Hyz. unfold sameAggregateTable in *. congruence.
Qed.

#[global] Instance sameAggregatesOf_preorder o a : PreOrder (sameAggregatesOf o a).
Proof.
  split; [done|]. intros x y z Hxy Hyz. unfold sameAggregatesOf in *. congruence.
Qed.

Lemma keeps_weaken {A} (R1 R2 : Store -> Store -> Prop) (c : M A) :
  (forall st st', R1 st st' -> R2 st st') -> keeps R1 c -> keeps R2 c.
Proof. intros H Hc st. apply H, Hc. Qed.

Lemma sameAggregateTable_of o a st st' :
  sameAggregateTable st st' -> sameAggregatesOf o a st st'.
Proof. unfold sameAggregateTable, sameAggregatesOf, aggregatesOf. by intros ->. Qed.

Section SweepKeeps.
Variable toLowerCase : jsstring -> jsstring.
Variable fails : DbCall -> option jsstring.
Variable callGeminiTags : jsstring -> jsstring -> Outcome (list RawTag).
Implicit Types (o a : jsstring) (st : Store).

Lemma keeps_updateState call o a p :
  keeps sameAggregateTable (orThrow (dbWrite fails call (updateState o a p))).
Proof. apply keeps_orThrow; [apply _|]. by apply keeps_dbWrite; [apply _|]. Qed.

Lemma keeps_finalize o a now n model version :
  keeps sameAggregateTable
    (finalizeAssignmentTagState fails o a now n model version).
Proof. intros st. apply finalize_aggregates. Qed.

Lemma keeps_insertNewDictionaryRows now o rows :
  keeps sameAggregateTable (insertNewDictionaryRows fails now o rows).
Proof. intros st. apply insertNewDictionaryRows_aggregates. Qed.

Lemma keeps_replaceAggregates_other del ins o a o' a' now model version
    (tags : list NormalizedTag) :
  (o', a') <> (o, a) ->
  keeps (sameAggregatesOf o a)
    (replaceAggregates fails del ins o' a'
       (aggregateRowOf o' a' now model version <$> tags)).
Proof.
  intros Hne st. rewrite replaceAggregates_run. cbn zeta.
  unfold sameAggregatesOf.
  destruct (fails del), (fails ins); simpl;
    rewrite ?aggregatesOf_insert, ?aggregatesOf_delete_other by congruence;
    rewrite ?filter_other_rows by congruence;
    by rewrite ?app_nil_r.
Qed.

Lemma keeps_clusterStep_other now o a o' a' n dict :
  (o', a') <> (o, a) ->
  keeps (sameAggregatesOf o a)
    (clusterStep toLowerCase fails callGeminiTags now o' a' n dict).
Proof.
  intros Hne. unfold clusterStep.
  apply keeps_bind; [apply _|apply keeps_pure; apply _|].
  intros rawTags.
  destruct (normalizedModelTags n rawTags) as [|t tags];
    [apply keeps_throw; apply _|].
  apply keeps_bind; [apply _| |intros _].
  { eapply keeps_weaken; [apply sameAggregateTable_of|].
    apply keeps_insertNewDictionaryRows. }
  apply keeps_bind; [apply _| |intros _].
  { by apply keeps_replaceAggregates_other. }
  eapply keeps_weaken; [apply sameAggregateTable_of|]. apply keeps_finalize.
Qed.

(** A run leaves the aggregates of every other assignment as they were,
    and those of its own when its row is manually locked. *)
Lemma keeps_aggregateAssignmentTags now row o a :
  (st_owner_id row, st_assignment_id row) <> (o, a)
  \/ st_manual_locked row = true ->
  keeps (sameAggregatesOf o a)
    (aggregateAssignmentTags toLowerCase fails callGeminiTags now row).
Proof.
  intros Hrow. unfold aggregateAssignmentTags.
  destruct (isEmpty (st_owner_id row)); [apply keeps_throw; apply _|].
  apply keeps_bind; [apply _| |intros assignmentRow].
  { apply keeps_orThrow; [apply _|]. apply keeps_dbRead. apply _. }
  destruct (st_manual_locked row) eqn:Hlocked.
  { apply keeps_bind; [apply _| |intros _; apply keeps_ret; apply _].
    eapply keeps_weaken; [apply sameAggregateTable_of|].
    apply keeps_updateState. }
  destruct Hrow as [Hne|?]; [|done].
  apply keeps_bind; [apply _| |intros _].
  { eapply keeps_weaken; [apply sameAggregateTable_of|].
    apply keeps_updateState. }
  apply keeps_bind; [apply _| |intros graded].
  { apply keeps_orThrow; [apply _|]. apply keeps_dbRead. apply _. }
  destruct (Z.of_nat (length graded) <? TAG_MIN_SAMPLE_COUNT).
  { apply keeps_bind; [apply _| |intros _; apply keeps_ret; apply _].
    eapply keeps_weaken; [apply sameAggregateTable_of|].
    apply keeps_updateState. }
  destruct (issueStatsOf graded) as [|e stats].
  - apply keeps_bind; [apply _| |intros _].
    { apply keeps_dbWrite; [apply _|]. intros st.
      by apply aggregatesOf_delete_other. }
    apply keeps_bind; [apply _| |intros _].
    { eapply keeps_weaken; [apply sameAggregateTable_of|]. apply keeps_finalize. }
    apply keeps_bind; [apply _|apply keeps_ret; apply _|intros _].
    apply keeps_ret; apply _.
  - apply keeps_bind; [apply _| |intros dict].
    { apply keeps_orThrow; [apply _|]. apply keeps_dbRead. apply _. }
    apply keeps_bind; [apply _| |intros _].
    { by apply keeps_clusterStep_other. }
    apply keeps_bind; [apply _|apply keeps_ret; apply _|intros _].
    apply keeps_ret; apply _.
Qed.

Lemma keeps_sweepOne now row o a :
  (st_owner_id row, st_assignment_id row) <> (o, a)
  \/ st_manual_locked row = true ->
  keeps (sameAggregatesOf o a)
    (sweepOne toLowerCase fails callGeminiTags now row).
Proof.
  intros Hrow. unfold sweepOne. apply keeps_tryCatch; [apply _| |intros message].
  - apply keeps_bind; [apply _| |intros result; apply keeps_ret; apply _].
    by apply keeps_aggregateAssignmentTags.
  - apply keeps_bind; [apply _| |intros _; apply keeps_ret; apply _].
    apply keeps_dbWrite; [apply _|]. intros st.
    apply sameAggregateTable_of. done.
Qed.

Lemma keeps_sweepLoop now (rows : list AssignmentTagState) o a :
  (forall row, row ∈ rows ->
     (st_owner_id row, st_assignment_id row) <> (o, a)
     \/ st_manual_locked row = true) ->
  keeps (sameAggregatesOf o a)
    (sweepLoop toLowerCase fails callGeminiTags now rows).
Proof.
  induction rows as [|row rows IH]; intros Hrows; simpl.
  - apply keeps_ret; apply _.
  - apply keeps_bind; [apply _| |intros result].
    { apply keeps_sweepOne. apply Hrows. apply elem_of_cons. by left. }
    apply keeps_bind; [apply _| |intros results; apply keeps_ret; apply _].
    apply IH. intros r Hr. apply Hrows. apply elem_of_cons. by right.
Qed.

End SweepKeeps.

Section Override.
Variable toLowerCase : jsstring -> jsstring.
Implicit Types (o a : jsstring) (st : Store) (row : AssignmentTagState)
  (p : TagStatePatch).


Lemma selectState_None o a st row :
  selectState o a st = None -> row ∈ assignment_tag_state st ->
  isStateOf o a row = false.
Proof.
  unfold selectState. intros H Hrow.
  destruct (isStateOf o a row) eqn:E; [|done].
  assert (Hin : row ∈ List.filter (isStateOf o a) (assignment_tag_state st))
    by by apply elem_of_List_filter.
  destruct (List.filter (isStateOf o a) (assignment_tag_state st)); [|done].
  by apply elem_of_nil in Hin.
Qed.



Lemma isEmpty_false (s : jsstring) : s <> [] -> isEmpty s = false.
Proof. by destruct s. Qed.


End Override.


(** Scenario D: the aggregate is the posted row, the state is ready and
    locked, and an event at minute 50 leaves it so, with no deadline. *)
Example scenarioD_run :
  let run := handleTagsOverride asciiLowerCase noFaults (minutes 40) scenarioD
               classStore in
  let later := afterEvents noFaults [mkGradedEvent (minutes 50) teacher [hw1]] run.1 in
  aggregatesOf teacher hw1 run.1
  = [ mkAggregate teacher hw1 [35336; 31639; 37679; 35492]%N 12 None (minutes 40)
        MANUAL MANUAL (minutes 40) ]
  /\ ((fun row => (st_status row, st_manual_locked row, st_dirty row, st_next_run_at row))
        <$> selectState teacher hw1 later) = Some (ready, true, false, None)
  /\ aggregatesOf teacher hw1 later = aggregatesOf teacher hw1 run.1.
Proof. vm_compute. done. Qed.


(** * Further properties of the code *)

(** ** The normalised strings *)
Section NormalForms.
Implicit Types (s t : jsstring) (c d : N).

Lemma singleSpaced_collapse b s :
  singleSpaced b (collapseWhiteSpace b s) = true.
Proof.
  revert b. induction s as [|c s IH]; intros b; [done|]. cbn [collapseWhiteSpace].
  destruct (isWhiteSpace c) eqn:E.
  - destruct b; [apply IH|]. cbn [singleSpaced].
    change (isWhiteSpace 32) with true. cbn. apply IH.
  - cbn [singleSpaced]. rewrite E. apply IH.
Qed.

Lemma singleSpaced_fixed b s :
  singleSpaced b s = true -> collapseWhiteSpace b s = s.
Proof.
  revert b. induction s as [|c s IH]; intros b; [done|]. cbn.
  destruct (isWhiteSpace c) eqn:E.
  - intros [[Hb Hc%N.eqb_eq]%andb_true_iff Hs]%andb_true_iff.
    destruct b; [done|]. subst c. f_equal. by apply IH.
  - intros Hs. f_equal. by apply IH.
Qed.

Lemma singleSpaced_weaken s :
  singleSpaced true s = true -> singleSpaced false s = true.
Proof. destruct s as [|c s]; [done|]. cbn. by destruct (isWhiteSpace c). Qed.

Lemma singleSpaced_app_l b s t :
  singleSpaced b (s ++ t) = true -> singleSpaced b s = true.
Proof.
  revert b. induction s as [|c s IH]; intros b; [done|]. cbn.
  destruct (isWhiteSpace c).
  - intros [H Hs]%andb_true_iff. rewrite H. simpl. by eapply IH.
  - apply IH.
Qed.

Lemma trimStart_head s c : head (trimStart s) = Some c -> isWhiteSpace c = false.
Proof.
  induction s as [|d s IH]; [done|]. cbn.
  destruct (isWhiteSpace d) eqn:E; [done|]. cbn. by intros [= <-].
Qed.

Lemma trimStart_fixed s :
  (forall c, head s = Some c -> isWhiteSpace c = false) -> trimStart s = s.
Proof. destruct s as [|c s]; [done|]. intros H. cbn. by rewrite H. Qed.

Lemma singleSpaced_trimStart b s :
  singleSpaced b s = true -> singleSpaced false (trimStart s) = true.
Proof.
  destruct s as [|c s]; [done|]. cbn. destruct (isWhiteSpace c) eqn:E.
  - intros [_ Hs]%andb_true_iff.
    rewrite trimStart_fixed; [by apply singleSpaced_weaken|].
    intros d Hd. destruct s as [|e s]; [done|]. injection Hd as ->.
    cbn in Hs. by destruct (isWhiteSpace d).
  - intros Hs. cbn. by rewrite E.
Qed.

Lemma trimEnd_snoc s c :
  trimEnd (s ++ [c]) = if isWhiteSpace c then trimEnd s else s ++ [c].
Proof.
  unfold trimEnd. rewrite reverse_snoc. cbn [trimStart].
  destruct (isWhiteSpace c); [done|].
  by rewrite reverse_cons, reverse_involutive.
Qed.

Lemma trimEnd_prefix s : exists w, s = trimEnd s ++ w.
Proof.
  induction s as [|c s [w IH]] using rev_ind; [by exists []|].
  rewrite trimEnd_snoc. destruct (isWhiteSpace c).
  - exists (w ++ [c]). by rewrite app_assoc, <- IH.
  - exists []. by rewrite app_nil_r.
Qed.

Lemma trimEnd_last s c : last (trimEnd s) = Some c -> isWhiteSpace c = false.
Proof.
  induction s as [|d s IH] using rev_ind; [done|].
  rewrite trimEnd_snoc. destruct (isWhiteSpace d) eqn:E; [done|].
  rewrite last_snoc. by intros [= <-].
Qed.

Lemma trimEnd_cons c s :
  isWhiteSpace c = false -> trimEnd (c :: s) = c :: trimEnd s.
Proof.
  intros Hc. induction s as [|d s IH] using rev_ind.
  - change [c] with ([] ++ [c]). by rewrite trimEnd_snoc, Hc.
  - rewrite app_comm_cons, !trimEnd_snoc. by destruct (isWhiteSpace d).
Qed.

Lemma trimEnd_fixed s :
  (forall c, last s = Some c -> isWhiteSpace c = false) -> trimEnd s = s.
Proof.
  destruct s as [|c s _] using rev_ind; [done|]. intros H.
  rewrite trimEnd_snoc, H; [done|]. by rewrite last_snoc.
Qed.

Lemma trim_trimEnd s : trim s = trimEnd (trimStart s).
Proof. done. Qed.

(** What [trim] leaves of a single-spaced string. *)
Lemma trim_singleSpaced b s :
  singleSpaced b s = true ->
  singleSpaced false (trim s) = true
  /\ (forall c, head (trim s) = Some c -> isWhiteSpace c = false)
  /\ (forall c, last (trim s) = Some c -> isWhiteSpace c = false).
Proof.
  intros Hs. rewrite trim_trimEnd. split_and!.
  - destruct (trimEnd_prefix (trimStart s)) as [w Hw].
    apply (singleSpaced_app_l _ _ w). rewrite <- Hw.
    by eapply singleSpaced_trimStart.
  - intros c. pose proof (trimStart_head s) as Hhead.
    destruct (trimStart s) as [|d u]; [done|].
    rewrite trimEnd_cons by by apply Hhead.
    cbn. intros [= <-]. by apply Hhead.
  - apply trimEnd_last.
Qed.

Lemma trim_fixed s :
  (forall c, head s = Some c -> isWhiteSpace c = false) ->
  (forall c, last s = Some c -> isWhiteSpace c = false) ->
  trim s = s.
Proof.
  intros Hh Hl. rewrite trim_trimEnd, trimStart_fixed by done.
  by apply trimEnd_fixed.
Qed.

Lemma normalizeIssueText_singleSpaced t :
  singleSpaced false (normalizeIssueText t) = true
  /\ (forall c, head (normalizeIssueText t) = Some c -> isWhiteSpace c = false)
  /\ (forall c, last (normalizeIssueText t) = Some c -> isWhiteSpace c = false).
Proof.
  unfold normalizeIssueText. destruct (isEmpty t); [done|].
  apply (trim_singleSpaced false), singleSpaced_collapse.
Qed.

Lemma normalizeIssueText_fixed t :
  normalizeIssueText (normalizeIssueText t) = normalizeIssueText t.
Proof.
  destruct (normalizeIssueText_singleSpaced t) as (Hs & Hh & Hl).
  unfold normalizeIssueText at 1.
  destruct (isEmpty (normalizeIssueText t)) eqn:E.
  - by destruct (normalizeIssueText t).
  - rewrite singleSpaced_fixed by done. by apply trim_fixed.
Qed.

Lemma singleSpaced_lookup b s i c :
  singleSpaced b s = true -> s !! i = Some c -> isWhiteSpace c = true ->
  c = 32%N /\ forall d, s !! S i = Some d -> isWhiteSpace d = false.
Proof.
  revert b i. induction s as [|e s IH]; intros b i; [done|].
  cbn [singleSpaced]. destruct i as [|i].
  - intros Hs [= ->] Hc. rewrite Hc in Hs.
    apply andb_true_iff in Hs as [[_ He%N.eqb_eq]%andb_true_iff Hs].
    split; [done|]. intros d Hd. destruct s as [|f s]; [done|].
    injection Hd as ->. cbn in Hs. by destruct (isWhiteSpace d).
  - intros Hs Hi Hc. cbn in Hi.
    destruct (isWhiteSpace e).
    + apply andb_true_iff in Hs as [_ Hs]. by eapply IH.
    + by eapply IH.
Qed.

(** X1. The text that [normalizeIssueText] returns is in normal form:
    normalising it again changes nothing, it neither starts nor ends with
    white space, and every white space in it is a single space U+0020
    standing before a code unit that is not white space. *)
Theorem normalizeIssueText_normal_form (text : jsstring) :
  let r := normalizeIssueText text in
  normalizeIssueText r = r
  /\ (forall c, head r = Some c \/ last r = Some c -> isWhiteSpace c = false)
  /\ (forall i c, r !! i = Some c -> isWhiteSpace c = true ->
        c = 32%N /\ exists d, r !! S i = Some d /\ isWhiteSpace d = false).
Proof.
  intros r. destruct (normalizeIssueText_singleSpaced text) as (Hs & Hh & Hl).
  fold r in Hs, Hh, Hl. split_and!.
  - apply normalizeIssueText_fixed.
  - intros c [H|H]; auto.
  - intros i c Hi Hc.
    destruct (singleSpaced_lookup false r i c Hs Hi Hc) as [-> Hnext].
    split; [done|]. destruct (r !! S i) as [d|] eqn:E.
    + exists d. split; [done|]. by apply Hnext.
    + exfalso. apply lookup_ge_None in E. apply lookup_lt_Some in Hi as Hlt.
      assert (Hlast : last r = Some 32%N).
      { rewrite last_lookup. replace (pred (length r)) with i by lia. done. }
      by apply Hl in Hlast.
Qed.

Lemma removeWhiteSpace_Forall s :
  Forall (fun c => isWhiteSpace c = false) (removeWhiteSpace s).
Proof.
  unfold removeWhiteSpace. induction s as [|c s IH]; cbn; [constructor|].
  destruct (isWhiteSpace c) eqn:E; cbn; [done|]. by constructor.
Qed.

Lemma trim_removeWhiteSpace s : trim (removeWhiteSpace s) = removeWhiteSpace s.
Proof.
  pose proof (removeWhiteSpace_Forall s) as H. rewrite Forall_forall in H.
  apply trim_fixed; intros c Hc; apply H.
  - by apply head_Some_elem_of.
  - by apply last_Some_elem_of.
Qed.
End NormalForms.

Section TagLabels.
Variable toLowerCase : jsstring -> jsstring.
Hypothesis toLowerCase_empty : toLowerCase [] = [].

Lemma normalizeTagLabel_removeWhiteSpace (label : jsstring) :
  normalizeTagLabel toLowerCase label = toLowerCase (removeWhiteSpace label).
Proof.
  unfold normalizeTagLabel. rewrite trim_removeWhiteSpace.
  by destruct label.
Qed.

(** X2. [normalizeTagLabel] does not see white space: the normalised label
    is the lower-cased label with all its white space removed, so two labels
    that differ only in white space, wherever it stands, get the same
    normalised label; and a label made of white space only normalises to
    the empty string. *)
Theorem normalizeTagLabel_ignores_white_space (label label' : jsstring) :
  removeWhiteSpace label = removeWhiteSpace label' ->
  normalizeTagLabel toLowerCase label = normalizeTagLabel toLowerCase label'
  /\ normalizeTagLabel toLowerCase label = toLowerCase (removeWhiteSpace label)
  /\ (removeWhiteSpace label = [] -> normalizeTagLabel toLowerCase label = []).
Proof.
  intros H. rewrite !normalizeTagLabel_removeWhiteSpace, H.
  split; [done|]. split; [done|]. rewrite <- H. by intros ->.
Qed.
End TagLabels.

Lemma normalizeTagLabel_white_space_witness :
  removeWhiteSpace (js " sign  error") = removeWhiteSpace (js "signerror ")
  /\ normalizeTagLabel asciiLowerCase (js " sign  error")
     = normalizeTagLabel asciiLowerCase (js "signerror ").
Proof.
  assert (H : removeWhiteSpace (js " sign  error")
              = removeWhiteSpace (js "signerror ")) by reflexivity.
  split; [exact H|].
  exact (proj1 (normalizeTagLabel_ignores_white_space asciiLowerCase eq_refl
                  (js " sign  error") (js "signerror ") H)).
Defined.

(** ** The issue extractor *)

(** X3. Every phrase that [extractIssuesFromGrading] returns is non-empty
    and in the normal form of [normalizeIssueText]; there are at most as many
    phrases as entries read; and the weaknesses are read only when there is no
    mistake entry at all: with a mistake entry, even one that yields no phrase,
    they are ignored. *)
Theorem extractIssuesFromGrading_phrases (grading : option Grading) :
  Forall (fun issue => issue <> [] /\ normalizeIssueText issue = issue)
    (extractIssuesFromGrading grading)
  /\ (forall g, grading = Some g ->
        (length (extractIssuesFromGrading grading)
         <= length (mistakes g) `max` length (weaknesses g))%nat)
  /\ (forall item items ws ws',
        extractIssuesFromGrading (Some (mkGrading (item :: items) ws))
        = extractIssuesFromGrading (Some (mkGrading (item :: items) ws'))).
Proof.
  split_and!.
  - destruct grading as [g|]; [|constructor]. unfold extractIssuesFromGrading.
    destruct (mistakes g) as [|item items]; apply Forall_forall;
      intros issue [Hne Hin]%list_elem_of_filter;
      apply list_elem_of_fmap in Hin as (y & -> & _);
      (split; [exact Hne|apply normalizeIssueText_fixed]).
  - intros g ->. unfold extractIssuesFromGrading.
    destruct (mistakes g) as [|item items] eqn:E.
    + etrans; [apply length_filter|]. rewrite length_fmap. lia.
    + etrans; [apply length_filter|]. rewrite !length_fmap. lia.
  - done.
Qed.


(** ** The due filter *)

(** X5. Once a state passes the due filter of the sweep it keeps passing it
    as time goes by, as long as its row is not written; and a row that
    records none of the three timestamps never passes it. *)
Theorem isDue_stays_due (t t' : Z) (row : AssignmentTagState) :
  t <= t' -> isDue t row = true ->
  isDue t' row = true
  /\ forall row',
       st_next_run_at row' = None -> st_last_event_at row' = None ->
       st_window_started_at row' = None -> isDue t' row' = false.
Proof.
  intros Ht Hdue. split.
  - unfold isDue, TAG_QUIET_MINUTES, TAG_MAX_WAIT_MINUTES in *.
    destruct (st_next_run_at row) as [next|], (st_last_event_at row) as [ev|],
      (st_window_started_at row) as [w|];
      repeat match goal with
             | H : context [?x <=? ?y] |- _ =>
                 destruct (Z.leb_spec x y); simpl in H
             | |- context [?x <=? ?y] => destruct (Z.leb_spec x y); simpl
             end; try done; lia.
  - intros row' H1 H2 H3. unfold isDue. by rewrite H1, H2, H3.
Qed.

Lemma isDue_stays_due_witness :
  minutes 5 <= minutes 9 /\ isDue (minutes 5) pendingState = true
  /\ isDue (minutes 9) pendingState = true.
Proof.
  assert (H1 : minutes 5 <= minutes 9) by (vm_compute; discriminate).
  assert (H2 : isDue (minutes 5) pendingState = true) by reflexivity.
  split; [exact H1|]. split; [exact H2|].
  exact (proj1 (isDue_stays_due (minutes 5) (minutes 9) pendingState H1 H2)).
Defined.

(** ** The end of a run *)
Section Finalize.
Variable fails : DbCall -> option jsstring.
Implicit Types (o a : jsstring) (st : Store) (row : AssignmentTagState).

Lemma with_assignment_tag_state_same st :
  with_assignment_tag_state (assignment_tag_state st) st = st.
Proof. by destruct st. Qed.

Lemma updateState_absent o a p st :
  selectState o a st = None -> updateState o a p st = st.
Proof.
  intros Hnone. unfold updateState.
  rewrite <- (with_assignment_tag_state_same st) at 3. f_equal.
  rewrite <- (list_fmap_id (assignment_tag_state st)) at 2.
  apply Forall_fmap_ext_1, Forall_forall. intros row Hrow.
  by rewrite (selectState_None o a st row Hnone Hrow).
Qed.

(** X6. Finalisation of a state that was not marked dirty during the run:
    the status becomes ready, the sample count, the generation time, the
    model and the prompt version are recorded, and the window start, the
    last event and the quiet deadline are left as they were.  A
    finalisation never creates a row: with no row for the assignment the
    store is unchanged.  And when the read of the state fails, it throws
    without writing. *)
Theorem finalize_clean_marks_ready o a now n model version st :
  fails FinalizeUpdateReady = None ->
  let run := finalizeAssignmentTagState fails o a now n model version st in
  match fails FinalizeSelect, selectState o a st with
  | Some message, _ => run = (st, Throw message)
  | None, None => run = (st, Ok ())
  | None, Some row =>
      st_dirty row = false ->
      run.2 = Ok ()
      /\ exists row',
           selectState o a run.1 = Some row'
           /\ st_status row' = ready
           /\ st_dirty row' = false
           /\ st_sample_count row' = Some n
           /\ st_last_generated_at row' = Some now
           /\ st_model row' = model
           /\ st_prompt_version row' = version
           /\ st_window_started_at row' = st_window_started_at row
           /\ st_last_event_at row' = st_last_event_at row
           /\ st_next_run_at row' = st_next_run_at row
           /\ st_manual_locked row' = st_manual_locked row
  end.
Proof.
  intros Hf run. subst run. unfold finalizeAssignmentTagState. unfold_monad.
  destruct (fails FinalizeSelect) as [message|]; [done|].
  destruct (selectState o a st) as [row|] eqn:Hsel; cbn [from_option].
  - intros Hdirty. rewrite Hdirty, Hf. cbn [fst snd]. split; [done|].
    rewrite selectState_updateState, Hsel. cbn [fmap option_fmap option_map].
    eexists. split; [reflexivity|]. cbn. split_and!; done.
  - rewrite Hf. by rewrite updateState_absent.
Qed.

(** X7. A submission graded while a run is in progress is not lost.  The
    event leaves the running state running and marks it dirty; the
    finalisation of the run then re-opens the state instead of marking it
    ready: it is pending, its window starts at the event and its quiet
    deadline is five minutes after the event, so the sweep picks it up
    again exactly from then on. *)
Theorem event_during_run_reopens o a (ids : list jsstring) t now n model version
    st row :
  fails TouchSelectStates = None -> fails TouchUpsertStates = None ->
  fails FinalizeSelect = None -> fails FinalizeUpdatePending = None ->
  a ∈ ids -> keyUnique o a st ->
  selectState o a st = Some row ->
  st_status row = running -> st_manual_locked row = false ->
  let st1 := (touchAssignmentTagStates fails t o ids st).1 in
  let run := finalizeAssignmentTagState fails o a now n model version st1 in
  exists row1 row2,
    selectState o a st1 = Some row1
    /\ st_status row1 = running /\ st_dirty row1 = true
    /\ st_last_event_at row1 = Some t
    /\ run.2 = Ok ()
    /\ selectState o a run.1 = Some row2
    /\ st_status row2 = pending /\ st_dirty row2 = false
    /\ st_window_started_at row2 = Some t
    /\ st_next_run_at row2 = Some (t + 5 * 60 * 1000)
    /\ forall t', isDue t' row2 = true <-> t + 5 * 60 * 1000 <= t'.
Proof.
  intros Hf1 Hf2 Hf3 Hf4 Hin Huniq Hsel Hrunning Hlock st1 run.
  destruct (touch_on_store fails t o a ids st Hf1 Hf2 Hin Huniq)
    as [Hsel1 _].
  fold st1 in Hsel1. rewrite Hsel in Hsel1.
  set (row1 := touchedState t o a (Some row)) in *.
  assert (Hrow1 : st_status row1 = running /\ st_dirty row1 = true
                  /\ st_last_event_at row1 = Some t).
  { unfold row1, touchedState, touchRow. cbn. by rewrite Hlock, Hrunning. }
  destruct Hrow1 as (Hs1 & Hd1 & He1).
  exists row1. subst run. unfold finalizeAssignmentTagState. unfold_monad.
  rewrite Hf3, Hsel1. cbn [from_option]. rewrite Hd1, Hf4. cbn [fst snd].
  rewrite selectState_updateState, Hsel1. cbn [fmap option_fmap option_map mbind option_bind].
  rewrite He1. cbn [default from_option id].
  eexists. split; [done|]. split; [done|]. split; [done|]. split; [done|].
  split; [done|]. split; [reflexivity|]. cbn.
  unfold addMinutesIso, TAG_QUIET_MINUTES. split_and!; try done.
  intros t'.
  rewrite (isDue_spec t' _ (t + 5 * 60 * 1000) t); cbn; try done.
  - lia.
  - f_equal. lia.
Qed.
End Finalize.

Lemma event_during_run_witness :
  let running :=
    mkStore [] [] []
      [mkTagState teacher hw1 running None (Some 0) (Some 0) (Some (minutes 5))
         None false false [] [] (Some 0)] [] [] [] 1 in
  let st1 := (touchAssignmentTagStates noFaults (minutes 26) teacher [hw1] running).1 in
  let run := finalizeAssignmentTagState noFaults teacher hw1 (minutes 27) 6
               TAG_MODEL TAG_PROMPT_VERSION st1 in
  exists row2,
    selectState teacher hw1 run.1 = Some row2
    /\ st_status row2 = pending
    /\ st_next_run_at row2 = Some (minutes 26 + 5 * 60 * 1000).
Proof.
  cbn zeta.
  destruct (event_during_run_reopens noFaults teacher hw1 [hw1] (minutes 26)
              (minutes 27) 6 TAG_MODEL TAG_PROMPT_VERSION
              (mkStore [] [] []
                 [mkTagState teacher hw1 running None (Some 0) (Some 0)
                    (Some (minutes 5)) None false false [] [] (Some 0)] [] [] [] 1)
              (mkTagState teacher hw1 running None (Some 0) (Some 0)
                 (Some (minutes 5)) None false false [] [] (Some 0))
              eq_refl eq_refl eq_refl eq_refl)
    as (row1 & row2 & _ & _ & _ & _ & _ & Hsel & Hstatus & _ & _ & Hnext & _).
  - apply elem_of_cons. by left.
  - vm_compute. lia.
  - reflexivity.
  - reflexivity.
  - reflexivity.
  - exists row2. split; [exact Hsel|]. split; [exact Hstatus|exact Hnext].
Defined.

Lemma finalize_clean_witness :
  let clean := mkStore [] [] [] [pendingState] [] [] [] 1 in
  let run := finalizeAssignmentTagState noFaults teacher hw1 (minutes 27) 6
               TAG_MODEL TAG_PROMPT_VERSION clean in
  noFaults FinalizeUpdateReady = None
  /\ run.2 = Ok ()
  /\ exists row', selectState teacher hw1 run.1 = Some row' /\ st_status row' = ready.
Proof.
  cbn zeta. split; [reflexivity|].
  pose proof (finalize_clean_marks_ready noFaults teacher hw1 (minutes 27) 6
                TAG_MODEL TAG_PROMPT_VERSION
                (mkStore [] [] [] [pendingState] [] [] [] 1) eq_refl) as H.
  cbn zeta in H. cbv beta iota delta [noFaults] in H.
  change (selectState teacher hw1 (mkStore [] [] [] [pendingState] [] [] [] 1))
    with (Some pendingState) in H. cbv beta iota in H.
  destruct (H eq_refl) as (Hok & row' & Hsel & Hstatus & _).
  split; [exact Hok|]. exists row'. split; [exact Hsel|exact Hstatus].
Defined.

(** ** Runs that do not reach the model *)
Section QuietRuns.
Variable toLowerCase : jsstring -> jsstring.
Variable fails : DbCall -> option jsstring.
Variable callGeminiTags : jsstring -> jsstring -> Outcome (list RawTag).
Hypothesis db_ok : forall call, fails call = None.
Implicit Types (o a : jsstring) (st : Store) (row : AssignmentTagState).

Lemma issueStatsOf_nil (subs : list Submission) :
  (forall s, s ∈ subs -> issuesOf s = []) -> issueStatsOf subs = [].
Proof.
  intros Hnone. unfold issueStatsOf, buildIssueStats.
  assert (Hmap : buildIssueMap subs = []).
  { destruct (buildIssueMap subs) as [|[j b] m] eqn:E; [done|]. exfalso.
    pose proof (buildIssueMap_spec subs j) as Hspec. rewrite E in Hspec.
    cbn in Hspec. rewrite decide_True in Hspec by done.
    destruct Hspec as [(s & Hs & Hj) _]. rewrite (Hnone s Hs) in Hj.
    by apply elem_of_nil in Hj. }
  by rewrite Hmap.
Qed.

(** X8. A run on an unlocked state with fewer than five graded
    submissions, the database answering without error: the run returns
    [insufficient_samples] with the number of graded submissions, the state
    takes that status and records the count, keeping its dirty flag, its
    window and its deadline; no aggregate row and no dictionary row is
    written or deleted, whatever the model would have answered. *)
Theorem run_with_too_few_samples now stateRow st :
  let o := st_owner_id stateRow in
  let a := st_assignment_id stateRow in
  let n := Z.of_nat (length (gradedSubmissionsOf o a st)) in
  o <> [] -> st_manual_locked stateRow = false -> n < 5 ->
  let run := aggregateAssignmentTags toLowerCase fails callGeminiTags now
               stateRow st in
  run.2 = Ok (mkRunResult RunInsufficientSamples n)
  /\ assignment_tag_aggregates run.1 = assignment_tag_aggregates st
  /\ tag_dictionary run.1 = tag_dictionary st
  /\ forall row, selectState o a st = Some row ->
       exists row',
         selectState o a run.1 = Some row'
         /\ st_status row' = insufficient_samples
         /\ st_sample_count row' = Some n
         /\ st_dirty row' = st_dirty row
         /\ st_window_started_at row' = st_window_started_at row
         /\ st_next_run_at row' = st_next_run_at row.
Proof.
  intros o a n Ho Hlock Hn run. subst run. unfold aggregateAssignmentTags.
  fold o a. rewrite (isEmpty_false o Ho), Hlock. unfold_monad.
  rewrite ?db_ok. cbn [fst snd].
  change (gradedSubmissionsOf o a (updateState o a _ st))
    with (gradedSubmissionsOf o a st).
  fold n. unfold TAG_MIN_SAMPLE_COUNT.
  destruct (Z.ltb_spec n 5) as [_|?]; [|lia].
  rewrite ?db_ok. cbn [fst snd]. split_and!; try done.
  intros row Hsel. rewrite !selectState_updateState, Hsel.
  cbn [fmap option_fmap option_map]. eexists. split; [reflexivity|].
  cbn. split_and!; done.
Qed.

(** X9. A run on an unlocked, clean state with at least five graded
    submissions none of which lists a phrase, the database answering
    without error: the model is not consulted, the aggregate rows of the
    assignment are deleted while those of every other assignment stay, the
    dictionary is untouched, and the state is finalised as ready with the
    number of graded submissions. *)
Theorem run_without_phrases now stateRow st row :
  let o := st_owner_id stateRow in
  let a := st_assignment_id stateRow in
  let n := Z.of_nat (length (gradedSubmissionsOf o a st)) in
  o <> [] -> st_manual_locked stateRow = false -> 5 <= n ->
  (forall s, s ∈ gradedSubmissionsOf o a st -> issuesOf s = []) ->
  selectState o a st = Some row -> st_dirty row = false ->
  let run := aggregateAssignmentTags toLowerCase fails callGeminiTags now
               stateRow st in
  run.2 = Ok (mkRunResult RunReady n)
  /\ aggregatesOf o a run.1 = []
  /\ (forall o' a', (o', a') <> (o, a) ->
        aggregatesOf o' a' run.1 = aggregatesOf o' a' st)
  /\ tag_dictionary run.1 = tag_dictionary st
  /\ exists row',
       selectState o a run.1 = Some row'
       /\ st_status row' = ready /\ st_dirty row' = false
       /\ st_sample_count row' = Some n
       /\ st_last_generated_at row' = Some now.
Proof.
  intros o a n Ho Hlock Hn Hnone Hsel Hdirty run. subst run.
  unfold aggregateAssignmentTags.
  fold o a. rewrite (isEmpty_false o Ho), Hlock. unfold_monad.
  rewrite ?db_ok. cbn [fst snd].
  change (gradedSubmissionsOf o a (updateState o a _ st))
    with (gradedSubmissionsOf o a st).
  fold n. unfold TAG_MIN_SAMPLE_COUNT.
  destruct (Z.ltb_spec n 5) as [?|_]; [lia|].
  rewrite (issueStatsOf_nil _ Hnone).
  unfold finalizeAssignmentTagState, refreshDomainTagAggregatesQuietly.
  unfold_monad. rewrite ?db_ok. cbn [fst snd].
  match goal with
  | |- context [selectState o a (deleteAggregates o a ?s)] =>
      change (selectState o a (deleteAggregates o a s)) with (selectState o a s)
  end.
  rewrite selectState_updateState, Hsel.
  cbn [fmap option_fmap option_map from_option applyTagStatePatch st_dirty
       p_dirty default id].
  rewrite Hdirty, ?db_ok. cbn [fst snd]. split_and!.
  - done.
  - apply (aggregatesOf_delete o a).
  - intros o' a' Hne.
    match goal with
    | |- aggregatesOf o' a' (updateState o a ?p (deleteAggregates o a ?s)) = _ =>
        change (aggregatesOf o' a' (updateState o a p (deleteAggregates o a s)))
          with (aggregatesOf o' a' (deleteAggregates o a s))
    end.
    by rewrite aggregatesOf_delete_other.
  - done.
  - rewrite selectState_updateState.
    match goal with
    | |- context [selectState o a (deleteAggregates o a ?s)] =>
        change (selectState o a (deleteAggregates o a s)) with (selectState o a s)
    end.
    rewrite selectState_updateState, Hsel. cbn [fmap option_fmap option_map].
    eexists. split; [reflexivity|]. cbn. split_and!; done.
Qed.
End QuietRuns.

Lemma run_with_too_few_samples_witness :
  let run := aggregateAssignmentTags asciiLowerCase noFaults brokenModel (minutes 6)
               pendingState smallClass in
  run.2 = Ok (mkRunResult RunInsufficientSamples 2)
  /\ assignment_tag_aggregates run.1 = [oldAggregate].
Proof.
  cbn zeta.
  destruct (run_with_too_few_samples asciiLowerCase noFaults brokenModel
              (fun _ => eq_refl) (minutes 6) pendingState smallClass)
    as (Hok & Hagg & _).
  - discriminate.
  - reflexivity.
  - vm_compute. reflexivity.
  - split; [exact Hok|exact Hagg].
Defined.

Lemma run_without_phrases_witness :
  let run := aggregateAssignmentTags asciiLowerCase noFaults brokenModel (minutes 6)
               pendingState flawlessClass in
  aggregatesOf teacher hw1 flawlessClass = [oldAggregate]
  /\ run.2 = Ok (mkRunResult RunReady 5)
  /\ aggregatesOf teacher hw1 run.1 = [].
Proof.
  cbn zeta. split; [reflexivity|].
  destruct (run_without_phrases asciiLowerCase noFaults brokenModel
              (fun _ => eq_refl) (minutes 6) pendingState flawlessClass pendingState)
    as (Hok & Hagg & _).
  - discriminate.
  - reflexivity.
  - vm_compute. discriminate.
  - intros s Hs. vm_compute in Hs.
    repeat (apply elem_of_cons in Hs as [->|Hs]; [reflexivity|]).
    by apply elem_of_nil in Hs.
  - reflexivity.
  - reflexivity.
  - split; [exact Hok|exact Hagg].
Defined.

(** ** The sweep *)

#[global] Instance sameStateRowsOf_preorder o a : PreOrder (sameStateRowsOf o a).
Proof.
  split; [done|]. intros x y z Hxy Hyz. unfold sameStateRowsOf in *. congruence.
Qed.

Section Sweep.
Variable toLowerCase : jsstring -> jsstring.
Variable fails : DbCall -> option jsstring.
Variable callGeminiTags : jsstring -> jsstring -> Outcome (list RawTag).
Implicit Types (o a : jsstring) (st : Store) (row : AssignmentTagState).

Lemma sweepOne_returns now row st :
  exists outcome,
    (sweepOne toLowerCase fails callGeminiTags now row st).2
    = Ok (st_assignment_id row, outcome).
Proof.
  unfold sweepOne, tryCatch, bind, ret.
  destruct (aggregateAssignmentTags _ _ _ _ _ st) as [st1 [result|message]].
  - by eexists.
  - unfold dbWrite, dbCall. destruct (fails SweepFailedUpdate); by eexists.
Qed.

Lemma sweepLoop_returns now (rows : list AssignmentTagState) st :
  exists results,
    (sweepLoop toLowerCase fails callGeminiTags now rows st).2 = Ok results
    /\ results.*1 = st_assignment_id <$> rows.
Proof.
  revert st. induction rows as [|row rows IH]; intros st.
  - by exists [].
  - cbn [sweepLoop]. unfold bind at 1.
    destruct (sweepOne_returns now row st) as [outcome Hone].
    destruct (sweepOne _ _ _ _ _ st) as [st1 one]. cbn in Hone. subst one.
    unfold bind at 1. destruct (IH st1) as (results & Hrest & Hids).
    destruct (sweepLoop _ _ _ _ _ st1) as [st2 rest]. cbn in Hrest. subst rest.
    eexists. split; [reflexivity|]. cbn. by rewrite Hids.
Qed.

(** X10. A sweep never throws.  When the selection of the states fails it
    answers with that error and writes nothing; otherwise it answers with
    one result per due state, in their order, whether the run of a state
    returned or threw: the run that fails does not stop the sweep. *)
Theorem sweep_answers_every_due_state (req : SweepRequest) (now : Z) st :
  let run := handleAggregateTags toLowerCase fails callGeminiTags req now st in
  match fails SweepSelectStates with
  | Some message => run = (st, Ok (DbError message))
  | None =>
      exists results,
        run.2 = Ok (DbData results)
        /\ results.*1
           = st_assignment_id
               <$> dueStatesOf req now
                     (List.filter (sweepSelects req) (assignment_tag_state st))
  end.
Proof.
  intros run. subst run. unfold handleAggregateTags.
  unfold dbRead, dbCall, bind at 1.
  destruct (fails SweepSelectStates) as [message|]; [done|].
  set (due := dueStatesOf _ _ _). unfold bind.
  destruct (sweepLoop_returns now due st) as (results & Hrun & Hids).
  destruct (sweepLoop _ _ _ _ _ st) as [st1 out]. cbn in Hrun. subst out.
  by exists results.
Qed.

(** X11. A run that throws leaves its state [failed]: the sweep records
    the message in its results and updates the status, keeping the other
    columns and the aggregate table as the run left them.  A failed state
    is not selected again by a sweep over pending states. *)
Theorem failed_run_marks_state_failed now stateRow st st1 message row1 :
  let o := st_owner_id stateRow in
  let a := st_assignment_id stateRow in
  aggregateAssignmentTags toLowerCase fails callGeminiTags now stateRow st
    = (st1, Throw message) ->
  fails SweepFailedUpdate = None ->
  selectState o a st1 = Some row1 ->
  let run := sweepOne toLowerCase fails callGeminiTags now stateRow st in
  run.2 = Ok (a, Throw message)
  /\ assignment_tag_aggregates run.1 = assignment_tag_aggregates st1
  /\ exists row2,
       selectState o a run.1 = Some row2
       /\ st_status row2 = failed
       /\ st_dirty row2 = st_dirty row1
       /\ st_manual_locked row2 = st_manual_locked row1
       /\ st_next_run_at row2 = st_next_run_at row1
       /\ st_window_started_at row2 = st_window_started_at row1
       /\ forall req, sw_includeReady req = false -> sweepSelects req row2 = false.
Proof.
  intros o a Hrun Hf Hsel run.
  assert (E : run = (updateState o a
                       {| p_status := Some failed; p_sample_count := None;
                          p_window_started_at := None; p_last_event_at := None;
                          p_next_run_at := None; p_last_generated_at := None;
                          p_dirty := None; p_manual_locked := None;
                          p_model := None; p_prompt_version := None;
                          p_updated_at := Some (Some now) |} st1,
                     Ok (a, Throw message))).
  { subst run. unfold sweepOne, tryCatch, bind at 1. rewrite Hrun.
    unfold_monad. by rewrite Hf. }
  rewrite E. cbn [fst snd]. split; [done|]. split; [done|].
  rewrite selectState_updateState, Hsel. cbn [fmap option_fmap option_map].
  eexists. split; [reflexivity|]. cbn. split_and!; try done.
  intros req Hreq. unfold sweepSelects. rewrite Hreq. cbn.
  apply andb_false_r.
Qed.

Lemma keeps_states_updateState call o a o' a' p :
  (o', a') <> (o, a) ->
  keeps (sameStateRowsOf o a) (orThrow (dbWrite fails call (updateState o' a' p))).
Proof.
  intros Hne. apply keeps_orThrow; [apply _|]. apply keeps_dbWrite; [apply _|].
  intros st. by apply stateRowsOf_updateState_other.
Qed.

Lemma keeps_states_finalize o a o' a' now n model version :
  (o', a') <> (o, a) ->
  keeps (sameStateRowsOf o a)
    (finalizeAssignmentTagState fails o' a' now n model version).
Proof.
  intros Hne. unfold finalizeAssignmentTagState.
  apply keeps_bind; [apply _| |intros latest].
  { apply keeps_orThrow; [apply _|]. apply keeps_dbRead. apply _. }
  destruct (from_option st_dirty false latest);
    by apply keeps_states_updateState.
Qed.

Lemma keeps_states_touchDictionaryMergeState o a o' now :
  keeps (sameStateRowsOf o a) (touchDictionaryMergeState fails o' now).
Proof.
  unfold touchDictionaryMergeState.
  destruct (isEmpty o'); [apply keeps_ret; apply _|].
  apply keeps_orThrow; [apply _|]. apply keeps_dbWrite; [apply _|]. done.
Qed.

Lemma keeps_states_clusterStep now o a o' a' n dict :
  (o', a') <> (o, a) ->
  keeps (sameStateRowsOf o a)
    (clusterStep toLowerCase fails callGeminiTags now o' a' n dict).
Proof.
  intros Hne. unfold clusterStep.
  apply keeps_bind; [apply _|apply keeps_pure; apply _|].
  intros rawTags.
  destruct (normalizedModelTags n rawTags) as [|t tags];
    [apply keeps_throw; apply _|].
  apply keeps_bind; [apply _| |intros _].
  { unfold insertNewDictionaryRows.
    destruct (newDictionaryRowsOf _ _ _) as [|r rs]; [apply keeps_ret; apply _|].
    apply keeps_bind; [apply _| |intros _].
    - apply keeps_orThrow; [apply _|]. apply keeps_dbCall; [apply _|]. done.
    - apply keeps_states_touchDictionaryMergeState. }
  apply keeps_bind; [apply _| |intros _].
  { unfold replaceAggregates. apply keeps_bind; [apply _| |intros _].
    - apply keeps_dbWrite; [apply _|]. done.
    - apply keeps_orThrow; [apply _|]. apply keeps_dbWrite; [apply _|]. done. }
  by apply keeps_states_finalize.
Qed.

Lemma keeps_states_aggregateAssignmentTags now row o a :
  (st_owner_id row, st_assignment_id row) <> (o, a) ->
  keeps (sameStateRowsOf o a)
    (aggregateAssignmentTags toLowerCase fails callGeminiTags now row).
Proof.
  intros Hne. unfold aggregateAssignmentTags.
  destruct (isEmpty (st_owner_id row)); [apply keeps_throw; apply _|].
  apply keeps_bind; [apply _| |intros assignmentRow].
  { apply keeps_orThrow; [apply _|]. apply keeps_dbRead. apply _. }
  destruct (st_manual_locked row).
  { apply keeps_bind; [apply _| |intros _; apply keeps_ret; apply _].
    by apply keeps_states_updateState. }
  apply keeps_bind; [apply _| |intros _].
  { by apply keeps_states_updateState. }
  apply keeps_bind; [apply _| |intros graded].
  { apply keeps_orThrow; [apply _|]. apply keeps_dbRead. apply _. }
  destruct (Z.of_nat (length graded) <? TAG_MIN_SAMPLE_COUNT).
  { apply keeps_bind; [apply _| |intros _; apply keeps_ret; apply _].
    by apply keeps_states_updateState. }
  destruct (issueStatsOf graded) as [|e stats].
  - apply keeps_bind; [apply _| |intros _].
    { apply keeps_dbWrite; [apply _|]. done. }
    apply keeps_bind; [apply _| |intros _].
    { by apply keeps_states_finalize. }
    apply keeps_bind; [apply _|apply keeps_ret; apply _|intros _].
    apply keeps_ret; apply _.
  - apply keeps_bind; [apply _| |intros dict].
    { apply keeps_orThrow; [apply _|]. apply keeps_dbRead. apply _. }
    apply keeps_bind; [apply _| |intros _].
    { by apply keeps_states_clusterStep. }
    apply keeps_bind; [apply _|apply keeps_ret; apply _|intros _].
    apply keeps_ret; apply _.
Qed.

Lemma keeps_states_sweepLoop now (rows : list AssignmentTagState) o a :
  (forall row, row ∈ rows -> (st_owner_id row, st_assignment_id row) <> (o, a)) ->
  keeps (sameStateRowsOf o a)
    (sweepLoop toLowerCase fails callGeminiTags now rows).
Proof.
  induction rows as [|row rows IH]; intros Hrows; simpl.
  - apply keeps_ret; apply _.
  - apply keeps_bind; [apply _| |intros result].
    { unfold sweepOne. apply keeps_tryCatch; [apply _| |intros message].
      - apply keeps_bind; [apply _| |intros result; apply keeps_ret; apply _].
        apply keeps_states_aggregateAssignmentTags, Hrows.
        apply elem_of_cons. by left.
      - apply keeps_bind; [apply _| |intros _; apply keeps_ret; apply _].
        apply keeps_dbWrite; [apply _|]. intros st.
        apply stateRowsOf_updateState_other, Hrows. apply elem_of_cons. by left. }
    apply keeps_bind; [apply _| |intros results; apply keeps_ret; apply _].
    apply IH. intros r Hr. apply Hrows. apply elem_of_cons. by right.
Qed.

(** X12. A sweep leaves alone every assignment that is not among its due
    states: the state row and the aggregate rows of such an assignment are
    after the sweep what they were before, whatever the runs of the due
    states did, returned or threw. *)
Theorem sweep_leaves_other_assignments (req : SweepRequest) (now : Z) o a st :
  (forall row,
     row ∈ dueStatesOf req now
             (List.filter (sweepSelects req) (assignment_tag_state st)) ->
     (st_owner_id row, st_assignment_id row) <> (o, a)) ->
  let st' := (handleAggregateTags toLowerCase fails callGeminiTags req now st).1 in
  stateRowsOf o a st' = stateRowsOf o a st
  /\ selectState o a st' = selectState o a st
  /\ aggregatesOf o a st' = aggregatesOf o a st.
Proof.
  intros Hdue st'. subst st'. unfold handleAggregateTags.
  unfold dbRead, dbCall, bind at 1.
  destruct (fails SweepSelectStates); [done|]. cbn [ret].
  set (due := dueStatesOf _ _ _) in *.
  pose proof (keeps_states_sweepLoop now due o a Hdue st) as Hstates.
  assert (Hdue' : forall row, row ∈ due ->
            (st_owner_id row, st_assignment_id row) <> (o, a)
            \/ st_manual_locked row = true) by (intros row Hrow; left; auto).
  pose proof (keeps_sweepLoop toLowerCase fails callGeminiTags now due o a
                Hdue' st) as Haggs.
  unfold sameStateRowsOf in Hstates. unfold sameAggregatesOf in Haggs.
  unfold bind.
  destruct (sweepLoop _ _ _ _ _ st) as [st1 [results|message]]; cbn in *;
    rewrite !selectState_head, Hstates; done.
Qed.
End Sweep.

Lemma failed_run_witness :
  let run := sweepOne asciiLowerCase noFaults brokenModel (minutes 6)
               pendingState classStore in
  run.2 = Ok (hw1, Throw (js "model unavailable"))
  /\ exists row2, selectState teacher hw1 run.1 = Some row2 /\ st_status row2 = failed.
Proof.
  cbn zeta.
  destruct (failed_run_marks_state_failed asciiLowerCase noFaults brokenModel
              (minutes 6) pendingState classStore
              (aggregateAssignmentTags asciiLowerCase noFaults brokenModel
                 (minutes 6) pendingState classStore).1
              (js "model unavailable")
              (mkTagState teacher hw1 running None (Some 0) (Some 0) (Some 300000)
                 None false false [] [] (Some (minutes 6))))
    as (Hok & _ & row2 & Hsel & Hstatus & _).
  - vm_compute. reflexivity.
  - reflexivity.
  - vm_compute. reflexivity.
  - split; [exact Hok|]. exists row2. split; [exact Hsel|exact Hstatus].
Defined.

Lemma sweep_leaves_other_assignments_witness :
  let other := js "hw2" in
  let st := mkStore scenarioB [mkAssignment hw1 teacher (js "math")] []
              [pendingState;
               mkTagState teacher other pending None (Some (minutes 4))
                 (Some (minutes 4)) (Some (minutes 9)) None false false [] []
                 (Some (minutes 4))]
              [oldAggregate] [] [] 1 in
  let req := mkSweepRequest None None false false in
  selectState teacher other
    (handleAggregateTags asciiLowerCase noFaults answerTags req (minutes 6) st).1
  = selectState teacher other st.
Proof.
  cbn zeta.
  refine (proj1 (proj2 (sweep_leaves_other_assignments asciiLowerCase noFaults
                          answerTags (mkSweepRequest None None false false)
                          (minutes 6) teacher (js "hw2") _ _))).
  intros row Hrow. vm_compute in Hrow.
  apply elem_of_cons in Hrow as [->|Hrow]; [discriminate|].
  by apply elem_of_nil in Hrow.
Defined.

(** ** Unlocking *)
Section Unlock.
Variable fails : DbCall -> option jsstring.
Implicit Types (o a : jsstring) (st : Store) (row : AssignmentTagState).

Lemma keyUnique_updateState o a p st :
  keyUnique o a st -> keyUnique o a (updateState o a p st).
Proof.
  unfold keyUnique. by rewrite stateRowsOf_updateState_same, length_fmap.
Qed.

(** X13. The [unlock] intent clears the manual lock of a state and
    changes nothing else: the status, the deadline and the aggregate rows
    stay, so unlocking alone schedules no run.  The next graded submission
    does: the state, no longer locked, becomes pending with a window
    opened at the event and a quiet deadline five minutes later. *)
Theorem unlock_then_event_reopens now t oRaw aRaw st row :
  let o := trim oRaw in
  let a := trim aRaw in
  o <> [] -> a <> [] ->
  fails UnlockUpdate = None ->
  fails TouchSelectStates = None -> fails TouchUpsertStates = None ->
  keyUnique o a st ->
  selectState o a st = Some row ->
  st_status row = ready ->
  let run := handleTagsUnlock fails now (Some oRaw) (Some aRaw) st in
  let later := (touchAssignmentTagStates fails t o [a] run.1).1 in
  run.2 = Ok (mkResponse 200 BodySuccess)
  /\ assignment_tag_aggregates run.1 = assignment_tag_aggregates st
  /\ (exists row1,
        selectState o a run.1 = Some row1
        /\ st_manual_locked row1 = false
        /\ st_status row1 = ready
        /\ st_dirty row1 = st_dirty row
        /\ st_next_run_at row1 = st_next_run_at row
        /\ st_window_started_at row1 = st_window_started_at row)
  /\ exists row2,
       selectState o a later = Some row2
       /\ st_manual_locked row2 = false
       /\ st_status row2 = pending
       /\ st_window_started_at row2 = Some t
       /\ st_next_run_at row2 = Some (t + 5 * 60 * 1000).
Proof.
  intros o a Ho Ha Hf Hf1 Hf2 Huniq Hsel Hready run later.
  set (patch := {| p_status := None; p_sample_count := None;
                   p_window_started_at := None; p_last_event_at := None;
                   p_next_run_at := None; p_last_generated_at := None;
                   p_dirty := None; p_manual_locked := Some false;
                   p_model := None; p_prompt_version := None;
                   p_updated_at := Some (Some now) |}).
  assert (E : run = (updateState o a patch st, Ok (mkResponse 200 BodySuccess))).
  { subst run. unfold handleTagsUnlock. cbn [from_option]. fold o a.
    rewrite (isEmpty_false o Ho), (isEmpty_false a Ha). cbn [orb].
    unfold_monad. by rewrite Hf. }
  assert (Hsel1 : selectState o a (updateState o a patch st)
                  = Some (applyTagStatePatch patch row))
    by by rewrite selectState_updateState, Hsel.
  subst later. rewrite E. cbn [fst snd].
  split; [done|]. split; [done|]. split.
  - eexists. split; [exact Hsel1|]. cbn. by rewrite Hready.
  - assert (Hin : a ∈ [a]) by (apply elem_of_cons; by left).
    destruct (touch_on_store fails t o a [a] (updateState o a patch st)
                Hf1 Hf2 Hin (keyUnique_updateState o a patch st Huniq))
      as [Hsel2 _].
    cbn zeta in Hsel2. rewrite Hsel1 in Hsel2.
    eexists. split; [exact Hsel2|].
    unfold touchedState, touchRow. cbn. rewrite Hready. cbn.
    unfold addMinutesIso, TAG_QUIET_MINUTES.
    destruct (st_window_started_at row); split_and!; done.
Qed.
End Unlock.

Lemma unlock_then_event_witness :
  let st := mkStore [] [] [] [lockedState] [oldAggregate] [] [] 1 in
  let run := handleTagsUnlock noFaults (minutes 50) (Some (js " teacher"))
               (Some (js "hw1 ")) st in
  let later := (touchAssignmentTagStates noFaults (minutes 55) teacher [hw1] run.1).1 in
  run.2 = Ok (mkResponse 200 BodySuccess)
  /\ exists row2,
       selectState teacher hw1 later = Some row2
       /\ st_status row2 = pending
       /\ st_next_run_at row2 = Some (minutes 55 + 5 * 60 * 1000).
Proof.
  cbn zeta.
  destruct (unlock_then_event_reopens noFaults (minutes 50) (minutes 55)
              (js " teacher") (js "hw1 ")
              (mkStore [] [] [] [lockedState] [oldAggregate] [] [] 1) lockedState)
    as (Hok & _ & _ & row2 & Hsel & _ & Hstatus & _ & Hnext).
  - vm_compute. discriminate.
  - vm_compute. discriminate.
  - reflexivity.
  - reflexivity.
  - reflexivity.
  - vm_compute. lia.
  - reflexivity.
  - reflexivity.
  - split; [exact Hok|]. exists row2.
    split; [exact Hsel|]. split; [exact Hstatus|exact Hnext].
Defined.

(** ** The dictionary *)
Section Dictionary.
Variable toLowerCase : jsstring -> jsstring.
Variable fails : DbCall -> option jsstring.
Variable callGeminiGroups : jsstring -> Outcome (list RawGroup).
Variable updateAbilityMappingForOwner : jsstring -> Outcome ().
Implicit Types (o : jsstring) (st : Store) (acc : MergeAcc).

Local Abbreviation normalizeTagLabel := (normalizeTagLabel toLowerCase).
Local Abbreviation normalizedOf := (normalizedOf toLowerCase).

(** X14. The dictionary rows that a clustering run or an override adds:
    a tag gets a row exactly when the normalised form of its label is the
    key of no row that was read from the dictionary; the row carries the
    label of the tag and its normalised form, and the rows come in the
    order of the tags. *)
Theorem newDictionaryRowsOf_fresh (dictionaryRows : list TagDictionaryEntry)
    (tags : list NormalizedTag) :
  let dictionaryMap :=
    jsMapOf ((fun row => (normalizedOf row, row)) <$> dictionaryRows) in
  let isNew tag :=
    normalizeTagLabel (nt_label tag) ∉ (normalizedOf <$> dictionaryRows) in
  newDictionaryRowsOf toLowerCase dictionaryMap tags
  = (fun tag => (nt_label tag, normalizeTagLabel (nt_label tag)))
      <$> filter isNew tags.
Proof.
  intros dictionaryMap isNew. unfold newDictionaryRowsOf.
  induction tags as [|tag tags IH]; [done|].
  cbn [omap list_omap]. rewrite filter_cons.
  destruct (dictionaryMap !! normalizeTagLabel (nt_label tag)) as [row|] eqn:E.
  - apply jsMapOf_lookup_Some in E.
    apply list_elem_of_fmap in E as (r & [= Hk ->] & Hr).
    rewrite decide_False; [exact IH|].
    intros Hnew. apply Hnew. apply list_elem_of_fmap. by exists r.
  - rewrite decide_True; [by rewrite fmap_cons, IH|].
    intros (r & Hk & Hr)%list_elem_of_fmap.
    assert (Hsome : is_Some (dictionaryMap !! normalizeTagLabel (nt_label tag))).
    { apply jsMapOf_lookup_is_Some. rewrite <- list_fmap_compose.
      apply list_elem_of_fmap. by exists r. }
    rewrite E in Hsome. by destruct Hsome.
Qed.

(** X15. The merge of a dictionary is skipped outside the bounds on the
    number of active labels: with fewer than 4 or more than 120 active
    labels of the owner it returns [skipped] with the reason and the number
    of labels, consults no model and writes nothing. *)
Theorem merge_skipped_outside_label_bounds now o st :
  o <> [] -> fails MergeSelectActive = None ->
  let activeRows :=
    List.filter (fun row => bool_decide (td_owner_id row = o)
                            && bool_decide (td_status row = active))
      (tag_dictionary st) in
  let run := mergeDictionaryForOwner toLowerCase fails callGeminiGroups
               updateAbilityMappingForOwner now o st in
  ((length activeRows < 4)%nat ->
     run = (st, Ok (MergeSkipped (js "insufficient_labels") (length activeRows))))
  /\ ((120 < length activeRows)%nat ->
        run = (st, Ok (MergeSkipped (js "too_many_labels") (length activeRows)))).
Proof.
  intros Ho Hf activeRows run. subst run. unfold mergeDictionaryForOwner.
  rewrite (isEmpty_false o Ho). unfold_monad. rewrite Hf. fold activeRows.
  unfold DICT_MERGE_MIN_LABELS, DICT_MERGE_MAX_LABELS. split; intros Hlen.
  - by destruct (Nat.ltb_spec (length activeRows) 4) as [_|?]; [|lia].
  - destruct (Nat.ltb_spec (length activeRows) 4) as [?|_]; [lia|].
    by destruct (Nat.ltb_spec 120 (length activeRows)) as [_|?]; [|lia].
Qed.

Lemma mergeMember_step canonicalNormalized canonicalId idByNormalized
    (updates0 : list (N * N)) (acc : list (N * N) * gset N) (member : jsstring) :
  let P (acc : list (N * N) * gset N) :=
    NoDup acc.1.*1
    /\ (forall id, id ∈ acc.2 <-> id ∈ acc.1.*1)
    /\ forall update, update ∈ acc.1 ->
         update ∈ updates0 \/ update.2 = canonicalId in
  P acc ->
  P (mergeMember toLowerCase canonicalNormalized canonicalId idByNormalized
       acc member).
Proof.
  intros P (Hnodup & Hids & Hold). unfold mergeMember.
  destruct (isEmpty _ || bool_decide _); [done|].
  destruct (idByNormalized !! _) as [memberId|]; [|done].
  destruct (decide (memberId ∈ acc.2)) as [Hin|Hnotin]; [done|].
  unfold P. cbn [fst snd]. split_and!.
  - rewrite fmap_app. cbn. apply NoDup_app. split; [done|]. split.
    + intros id Hid [->|[]%elem_of_nil]%elem_of_cons.
      by apply Hnotin, Hids.
    + apply NoDup_singleton.
  - intros id. rewrite fmap_app, elem_of_app, elem_of_union, elem_of_singleton.
    cbn. rewrite list_elem_of_singleton, Hids. tauto.
  - intros update [Hu|Hu%list_elem_of_singleton]%elem_of_app; [by apply Hold|].
    right. by subst update.
Qed.

Lemma mergeMember_invariant canonicalNormalized canonicalId idByNormalized
    (members : list jsstring) (updates : list (N * N)) (ids : gset N) :
  NoDup updates.*1 -> (forall id, id ∈ ids <-> id ∈ updates.*1) ->
  let merged :=
    foldl (mergeMember toLowerCase canonicalNormalized canonicalId idByNormalized)
      (updates, ids) members in
  NoDup merged.1.*1
  /\ (forall id, id ∈ merged.2 <-> id ∈ merged.1.*1)
  /\ forall update, update ∈ merged.1 ->
       update ∈ updates \/ update.2 = canonicalId.
Proof.
  intros Hnodup Hids.
  assert (H0 : NoDup (updates, ids).1.*1
               /\ (forall id, id ∈ (updates, ids).2 <-> id ∈ (updates, ids).1.*1)
               /\ forall update, update ∈ (updates, ids).1 ->
                    update ∈ updates \/ update.2 = canonicalId)
    by (cbn; auto).
  generalize dependent (updates, ids). clear Hnodup Hids.
  induction members as [|member members IH]; intros acc Hacc; [exact Hacc|].
  cbn [foldl]. apply IH.
  by apply (mergeMember_step canonicalNormalized canonicalId idByNormalized updates).
Qed.

Lemma mergeGroup_invariant o now acc group st st' acc' :
  mergeInvariant acc ->
  mergeGroup toLowerCase fails o now acc group st = (st', Ok acc') ->
  mergeInvariant acc'.
Proof.
  intros (Hnodup & Hids & Htargets). unfold mergeGroup.
  destruct (isEmpty _); [by intros [= <- <-]|].
  intros (st1 & [canonicalId idByNormalized] & _ & Hret)%bind_Ok.
  injection Hret as <- <-. cbn [fst snd].
  destruct (mergeMember_invariant (normalizeTagLabel group.1) canonicalId
              idByNormalized group.2 (ma_mergeUpdates acc)
              (ma_mergedMemberIds acc) Hnodup Hids) as (H1 & H2 & H3).
  unfold mergeInvariant. cbn. split; [exact H1|]. split; [exact H2|].
  intros update Hupdate. apply elem_of_union.
  destruct (H3 update Hupdate) as [Hold|Hnew].
  - right. by apply Htargets.
  - left. by apply elem_of_singleton.
Qed.
Lemma mergeGroups_invariant o now (groups : list (jsstring * list jsstring))
    acc st st' acc' :
  mergeInvariant acc ->
  mergeGroups toLowerCase fails o now acc groups st = (st', Ok acc') ->
  mergeInvariant acc'.
Proof.
  revert acc st. induction groups as [|group groups IH]; intros acc st Hacc.
  - by intros [= <- <-].
  - cbn [mergeGroups]. intros (st1 & acc1 & Hone & Hrest)%bind_Ok.
    eapply IH; [|exact Hrest]. by eapply mergeGroup_invariant.
Qed.

Lemma upsertMergedMembers_ids updates now st :
  td_id <$> tag_dictionary (upsertMergedMembers updates now st)
  = td_id <$> tag_dictionary st.
Proof.
  unfold upsertMergedMembers. revert st.
  induction updates as [|update updates IH]; intros st; [done|].
  cbn [foldl]. rewrite IH. cbn. rewrite <- list_fmap_compose.
  apply list_fmap_ext. intros i row _. cbn. by destruct (decide _).
Qed.

(** The rows after the upsert of the members: a row named by an update is
    merged into the canonical of the update, the others are as before. *)
Lemma upsertMergedMembers_rows (updates : list (N * N)) now st row' :
  NoDup updates.*1 ->
  row' ∈ tag_dictionary (upsertMergedMembers updates now st) ->
  exists row,
    row ∈ tag_dictionary st /\ td_id row' = td_id row
    /\ (forall update, update ∈ updates -> td_id row = update.1 ->
          td_status row' = merged /\ td_merged_to_tag_id row' = Some update.2)
    /\ (td_id row ∉ updates.*1 -> row' = row).
Proof.
  unfold upsertMergedMembers. revert row'.
  induction updates as [|update updates IH] using rev_ind; intros row' Hnodup.
  - cbn. intros Hrow. exists row'. split; [done|]. split; [done|].
    split; [|done]. by intros update Hu%elem_of_nil.
  - rewrite foldl_snoc. cbn [tag_dictionary with_tag_dictionary].
    rewrite fmap_app in Hnodup. apply NoDup_app in Hnodup as (Hnodup & Hfresh & _).
    intros (mid & -> & Hmid)%list_elem_of_fmap.
    destruct (IH mid Hnodup Hmid) as (row & Hrow & Hid & Hmerged & Hsame).
    exists row. split; [done|].
    destruct (decide (td_id mid = update.1)) as [Heq|Hne]; cbn [td_id].
    + split; [done|]. split.
      * intros u [Hu|Hu%list_elem_of_singleton]%elem_of_app Hidu.
        -- exfalso. apply (Hfresh (td_id row)).
           ++ apply list_elem_of_fmap. exists u. split; [done|exact Hu].
           ++ cbn. apply elem_of_cons. left. congruence.
        -- subst u. done.
      * intros Hnot. exfalso. apply Hnot. rewrite fmap_app, elem_of_app.
        right. cbn. apply elem_of_cons. left. congruence.
    + split; [done|]. split.
      * intros u [Hu|Hu%list_elem_of_singleton]%elem_of_app Hidu.
        -- by apply Hmerged.
        -- subst u. congruence.
      * intros Hnot. apply Hsame. intros Hin. apply Hnot.
        rewrite fmap_app, elem_of_app. by left.
Qed.

Lemma updateCanonicals_rows (ids : gset N) now st row' :
  row' ∈ tag_dictionary (updateCanonicals ids now st) ->
  exists row,
    row ∈ tag_dictionary st /\ td_id row' = td_id row
    /\ (td_id row ∈ ids ->
          td_status row' = active /\ td_merged_to_tag_id row' = None).
Proof.
  unfold updateCanonicals. cbn.
  intros (row & -> & Hrow)%list_elem_of_fmap. exists row. split; [done|].
  by destruct (decide (td_id row ∈ ids)).
Qed.

(** X16. What a merge that went through has written.  No entry is merged
    twice: the member updates name pairwise distinct entries, as many as
    the answer counts, and each points at a canonical of the run.  After
    the run every entry named by an update is merged into the canonical of
    that update, and every canonical that is not itself named by an update
    is active with no merge target. *)
Theorem merge_done_writes now o st st' (groupCount mergedCount canonicalCount : nat) :
  fails MergeUpdateCanonicals = None -> fails MergeUpsertMembers = None ->
  mergeDictionaryForOwner toLowerCase fails callGeminiGroups
    updateAbilityMappingForOwner now o st
    = (st', Ok (MergeDone groupCount mergedCount canonicalCount)) ->
  exists (updates : list (N * N)) (canonicalIds : gset N),
    mergedCount = length updates /\ canonicalCount = size canonicalIds
    /\ NoDup updates.*1
    /\ (forall update, update ∈ updates -> update.2 ∈ canonicalIds)
    /\ (forall row update, row ∈ tag_dictionary st' -> update ∈ updates ->
          td_id row = update.1 ->
          td_status row = merged /\ td_merged_to_tag_id row = Some update.2)
    /\ (forall row, row ∈ tag_dictionary st' -> td_id row ∈ canonicalIds ->
          td_id row ∉ updates.*1 ->
          td_status row = active /\ td_merged_to_tag_id row = None).
Proof.
  intros Hf1 Hf2. unfold mergeDictionaryForOwner.
  destruct (isEmpty o); [done|].
  intros (st1 & activeRows & _ & Hrun)%bind_Ok.
  destruct (length activeRows <? DICT_MERGE_MIN_LABELS)%nat; [done|].
  destruct (DICT_MERGE_MAX_LABELS <? length activeRows)%nat; [done|].
  apply bind_Ok in Hrun as (st2 & usage & _ & Hrun).
  apply bind_Ok in Hrun as (st3 & rawGroups & _ & Hrun).
  destruct (omap (normalizeGroup toLowerCase) rawGroups) as [|g groups] eqn:Hgroups.
  { apply bind_Ok in Hrun as (? & ? & _ & Hret). done. }
  apply bind_Ok in Hrun as (st4 & acc & Hloop & Hrun).
  apply bind_Ok in Hrun as (st5 & [] & Hcanon & Hrun).
  apply bind_Ok in Hrun as (st6 & [] & Hmembers & Hrun).
  apply bind_Ok in Hrun as (st7 & [] & Hability & Hret).
  injection Hability as <-. injection Hret as <- <- <- <-.
  apply mergeGroups_invariant in Hloop as (Hnodup & Hids & Htargets);
    [|by split_and!; [constructor|set_solver|intros ? ?%elem_of_nil]].
  assert (Hst5 : st5 = if decide (ma_canonicalIds acc = ∅) then st4
                       else updateCanonicals (ma_canonicalIds acc) now st4).
  { destruct (decide (ma_canonicalIds acc = ∅)); [by injection Hcanon|].
    revert Hcanon. unfold_monad. rewrite Hf1. by intros [= <-]. }
  assert (Hst6 : st6 = upsertMergedMembers (ma_mergeUpdates acc) now st5).
  { destruct (ma_mergeUpdates acc) as [|u us] eqn:E; [by injection Hmembers|].
    revert Hmembers. unfold_monad. rewrite Hf2. by intros [= <-]. }
  exists (ma_mergeUpdates acc), (ma_canonicalIds acc).
  split; [done|]. split; [done|]. split; [done|]. split; [done|]. split.
  - intros row update Hrow Hupdate Hid. rewrite Hst6 in Hrow.
    destruct (upsertMergedMembers_rows _ _ _ _ Hnodup Hrow)
      as (row0 & _ & Hid0 & Hmerged & _).
    apply Hmerged; [done|congruence].
  - intros row Hrow Hcanonical Hnot. rewrite Hst6 in Hrow.
    destruct (upsertMergedMembers_rows _ _ _ _ Hnodup Hrow)
      as (row0 & Hrow0 & Hid0 & _ & Hsame).
    assert (Heq : row = row0) by (apply Hsame; congruence).
    subst row0. clear Hsame Hid0. rewrite Hst5 in Hrow0.
    destruct (decide (ma_canonicalIds acc = ∅)) as [Hempty|_].
    { rewrite Hempty in Hcanonical. by apply not_elem_of_empty in Hcanonical. }
    destruct (updateCanonicals_rows _ _ _ _ Hrow0) as (row1 & _ & Hid1 & Hactive).
    apply Hactive. by rewrite <- Hid1.
Qed.
End Dictionary.

Lemma merge_skipped_witness :
  teacher <> [] /\ noFaults MergeSelectActive = None
  /\ mergeDictionaryForOwner asciiLowerCase noFaults overlappingGroups
       (fun _ => Ok ()) 1000 teacher emptyStore
     = (emptyStore, Ok (MergeSkipped (js "insufficient_labels") 0)).
Proof.
  assert (H : teacher <> []) by discriminate.
  split; [exact H|]. split; [reflexivity|].
  apply (proj1 (merge_skipped_outside_label_bounds asciiLowerCase noFaults
                  overlappingGroups (fun _ => Ok ()) 1000 teacher emptyStore
                  H eq_refl)).
  vm_compute. lia.
Defined.

Lemma merge_done_witness :
  let run := mergeDictionaryForOwner asciiLowerCase noFaults oneGroup
               (fun _ => Ok ()) 1000 teacher fourLabels in
  run.2 = Ok (MergeDone 1 2 1)
  /\ exists (updates : list (N * N)) (canonicalIds : gset N),
       2%nat = length updates /\ 1%nat = size canonicalIds /\ NoDup updates.*1
       /\ forall row update, row ∈ tag_dictionary run.1 -> update ∈ updates ->
            td_id row = update.1 ->
            td_status row = merged /\ td_merged_to_tag_id row = Some update.2.
Proof.
  cbn zeta. split; [vm_compute; reflexivity|].
  destruct (merge_done_writes asciiLowerCase noFaults oneGroup (fun _ => Ok ())
              1000 teacher fourLabels
              (mergeDictionaryForOwner asciiLowerCase noFaults oneGroup
                 (fun _ => Ok ()) 1000 teacher fourLabels).1 1 2 1
              eq_refl eq_refl)
    as (updates & canonicalIds & H1 & H2 & H3 & _ & H4 & _).
  - vm_compute. reflexivity.
  - exists updates, canonicalIds. split; [exact H1|]. split; [exact H2|].
    split; [exact H3|exact H4].
Defined.

(** ** The override request *)
Section OverrideRequest.
Variable toLowerCase : jsstring -> jsstring.
Variable fails : DbCall -> option jsstring.

(** X17. An override is refused before anything is read or written when
    it names no owner or no assignment, or when none of its tags is valid:
    a tag is valid when its label, trimmed, is not empty and its count is a
    number above zero.  The answer is 400 and the store is unchanged. *)
Theorem override_refuses_invalid_requests now (payload : OverridePayload) st :
  let o := from_option trim [] (ov_ownerId payload) in
  let a := from_option trim [] (ov_assignmentId payload) in
  let run := handleTagsOverride toLowerCase fails now payload st in
  (o = [] \/ a = [] -> run = (st, Ok (mkResponse 400 (BodyError MISSING_IDS))))
  /\ (o <> [] -> a <> [] ->
      Forall (fun tag =>
                tagLabelOf tag = []
                \/ match rt_count tag with Some count => count <= 0 | None => True end)
        (ov_tags payload) ->
      run = (st, Ok (mkResponse 400 (BodyError NO_TAGS)))).
Proof.
  intros o a run. subst run. unfold handleTagsOverride. fold o a. split.
  - intros [-> | ->]; [done|]. by rewrite orb_true_r.
  - intros Ho Ha Htags.
    rewrite (isEmpty_false o Ho), (isEmpty_false a Ha). cbn [orb].
    assert (Hnone : omap normalizeOverrideTag (ov_tags payload) = []).
    { induction Htags as [|tag tags Htag _ IH]; [done|].
      cbn [omap list_omap]. rewrite IH.
      unfold normalizeOverrideTag. destruct Htag as [-> |Hcount]; [done|].
      destruct (isEmpty (tagLabelOf tag)); [done|].
      destruct (rt_count tag) as [count|]; [|done].
      by destruct (Z.leb_spec count 0) as [_|?]; [|lia]. }
    by rewrite Hnone.
Qed.
End OverrideRequest.

(** ** The assignments that a sync touches *)

Lemma NoDup_uniqueList (l : list jsstring) : NoDup (uniqueList l).
Proof.
  unfold uniqueList.
  assert (G : forall acc : list jsstring, NoDup acc ->
            NoDup (foldl (fun acc x => if decide (x ∈ acc) then acc else acc ++ [x])
                     acc l)).
  { induction l as [|x l IH]; intros acc Hacc; [done|]. cbn [foldl]. apply IH.
    destruct (decide (x ∈ acc)) as [Hx|Hx]; [done|].
    apply NoDup_app. split; [done|]. split; [|apply NoDup_singleton].
    intros y Hy ->%list_elem_of_singleton. done. }
  apply G. constructor.
Qed.

(** X18. The assignments whose tag state a sync request touches: each one
    once, however many of its submissions the request carries, and exactly
    those with a written submission row that carries a grading result or
    whose status is [graded].  A row that is neither does not touch its
    assignment. *)
Theorem touchedAssignments_graded_once (submissionRows : list SubmissionRow) :
  NoDup (touchedAssignments submissionRows)
  /\ forall a, a ∈ touchedAssignments submissionRows <->
       a <> [] /\ exists row,
         row ∈ submissionRows /\ sr_assignment_id row = a
         /\ (sr_grading_result row <> None \/ sr_status row = Some (js "graded")).
Proof.
  unfold touchedAssignments. split; [apply NoDup_uniqueList|].
  intros a. rewrite elem_of_uniqueList, list_elem_of_fmap. split.
  - intros (row & -> & [Hrow Hf]%elem_of_List_filter).
    apply andb_true_iff in Hf as [Hne Hgraded]. split.
    { by destruct (sr_assignment_id row). }
    exists row. split; [done|]. split; [done|].
    apply orb_true_iff in Hgraded as [H|H]; apply bool_decide_eq_true in H; auto.
  - intros [Hne (row & Hrow & <- & Hgraded)]. exists row. split; [done|].
    apply elem_of_List_filter. split; [done|]. apply andb_true_iff. split.
    { by destruct (sr_assignment_id row). }
    apply orb_true_iff.
    destruct Hgraded as [H|H]; [left|right]; by apply bool_decide_eq_true.
Qed.

(** ** The answer-key cache *)
Section AnswerKeyCacheFacts.
Context {AnswerKey : Type}.
Implicit Types (cache : gmap jsstring (CacheEntry AnswerKey))
  (userId hash : jsstring) (answerKey : AnswerKey).

(** X19. An answer key put in the cache at time [t0] is returned to the
    same user and hash up to and including [t0] plus thirty minutes, the
    cache being left as it is; after that the lookup returns nothing and
    removes the entry.  Caching again under the same user and hash
    replaces the key and restarts the thirty minutes. *)
Theorem cached_answer_key_round_trip (t0 t : Z) userId hash answerKey cache :
  let cached := cacheAnswerKey t0 userId hash answerKey cache in
  (t <= t0 + 30 * 60 * 1000 ->
     getCachedAnswerKey t userId hash cached = (cached, Some answerKey))
  /\ (t0 + 30 * 60 * 1000 < t ->
        getCachedAnswerKey t userId hash cached
        = (delete (cacheKeyOf userId hash) cache, None))
  /\ (forall t1 answerKey',
        cacheAnswerKey t1 userId hash answerKey' cached
        = cacheAnswerKey t1 userId hash answerKey' cache).
Proof.
  intros cached. subst cached.
  unfold getCachedAnswerKey, cacheAnswerKey, ANSWER_KEY_CACHE_TTL.
  rewrite lookup_insert_eq. cbn [ce_expiresAt ce_answerKey]. split_and!.
  - intros Ht. by destruct (Z.ltb_spec (t0 + 30 * 60 * 1000) t); [lia|].
  - intros Ht. destruct (Z.ltb_spec (t0 + 30 * 60 * 1000) t); [|lia].
    by rewrite delete_insert_eq.
  - intros t1 answerKey'. by rewrite insert_insert_eq.
Qed.

(** X20. The periodic cleanup removes exactly the entries that have
    expired, and no lookup made at the time of the cleanup or later can
    tell whether it ran: it answers the same with or without it. *)
Theorem cleanup_is_invisible_to_lookups (now t : Z) userId hash cache :
  now <= t ->
  (getCachedAnswerKey t userId hash (cleanupExpiredCache now cache)).2
  = (getCachedAnswerKey t userId hash cache).2
  /\ forall key entry,
       cleanupExpiredCache now cache !! key = Some entry
       <-> cache !! key = Some entry /\ now <= ce_expiresAt entry.
Proof.
  intros Ht. split.
  - unfold getCachedAnswerKey, cleanupExpiredCache.
    destruct (cache !! cacheKeyOf userId hash) as [entry|] eqn:E.
    + destruct (decide (now <= ce_expiresAt entry)) as [Hlive|Hdead].
      * rewrite (map_lookup_filter_Some_2 _ _ _ entry) by done.
        by destruct (ce_expiresAt entry <? t).
      * rewrite map_lookup_filter_None_2.
        -- by destruct (Z.ltb_spec (ce_expiresAt entry) t); [|lia].
        -- right. intros entry' Heq. rewrite E in Heq. by injection Heq as <-.
    + rewrite map_lookup_filter_None_2; [done|]. by left.
  - intros key entry. unfold cleanupExpiredCache.
    by rewrite map_lookup_filter_Some.
Qed.

Lemma cacheKeyOf_inj userId hash userId' hash' :
  58%N ∉ hash -> 58%N ∉ hash' ->
  cacheKeyOf userId hash = cacheKeyOf userId' hash' ->
  userId = userId' /\ hash = hash'.
Proof.
  unfold cacheKeyOf. intros Hh Hh'. revert userId'.
  induction userId as [|c u IH]; intros [|c' u']; cbn.
  - by intros [= ->].
  - intros [= <- ->]. exfalso. apply Hh.
    apply elem_of_app. right. apply elem_of_cons. by left.
  - intros [= -> <-]. exfalso. apply Hh'.
    apply elem_of_app. right. apply elem_of_cons. by left.
  - intros [= -> H]. by destruct (IH u' H) as [-> ->].
Qed.

(** X21. With hashes that hold no colon, as the hexadecimal digests are,
    the cache key tells the user and the hash apart: caching a key for one
    user and hash changes the answer of no lookup for another user or
    another hash. *)
Theorem cache_entries_do_not_collide (t0 t : Z) userId hash userId' hash'
    answerKey cache :
  58%N ∉ hash -> 58%N ∉ hash' ->
  (userId', hash') <> (userId, hash) ->
  (getCachedAnswerKey t userId' hash'
     (cacheAnswerKey t0 userId hash answerKey cache)).2
  = (getCachedAnswerKey t userId' hash' cache).2.
Proof.
  intros Hh Hh' Hne. unfold getCachedAnswerKey, cacheAnswerKey.
  rewrite lookup_insert_ne.
  - destruct (cache !! cacheKeyOf userId' hash') as [entry|]; [|done].
    by destruct (ce_expiresAt entry <? t).
  - intros Heq. apply cacheKeyOf_inj in Heq as [-> ->]; done.
Qed.
End AnswerKeyCacheFacts.

Lemma cleanup_is_invisible_witness :
  let cache := cacheAnswerKey (minutes 0) (js "amy") (js "0f3a") 7%nat ∅ in
  minutes 31 <= minutes 40
  /\ (getCachedAnswerKey (minutes 40) (js "amy") (js "0f3a")
        (cleanupExpiredCache (minutes 31) cache)).2 = None
  /\ (getCachedAnswerKey (minutes 40) (js "amy") (js "0f3a") cache).2 = None.
Proof.
  cbn zeta.
  assert (H : minutes 31 <= minutes 40) by (vm_compute; discriminate).
  split; [exact H|].
  pose proof (proj1 (cleanup_is_invisible_to_lookups (minutes 31) (minutes 40)
                       (js "amy") (js "0f3a")
                       (cacheAnswerKey (minutes 0) (js "amy") (js "0f3a") 7%nat ∅)
                       H)) as Heq.
  assert (Hnone : (getCachedAnswerKey (minutes 40) (js "amy") (js "0f3a")
                     (cacheAnswerKey (minutes 0) (js "amy") (js "0f3a") 7%nat ∅)).2
                  = None).
  { unfold getCachedAnswerKey, cacheAnswerKey. rewrite lookup_insert_eq.
    reflexivity. }
  split; [|exact Hnone]. rewrite Heq. exact Hnone.
Defined.

Lemma cache_entries_do_not_collide_witness :
  (58%N ∉ js "0f3a") /\ (58%N ∉ js "77bc")
  /\ (getCachedAnswerKey (minutes 1) (js "bob") (js "77bc")
        (cacheAnswerKey (minutes 0) (js "amy") (js "0f3a") 7%nat ∅)).2 = None.
Proof.
  assert (H1 : 58%N ∉ js "0f3a").
  { intros H. vm_compute in H.
    repeat (apply elem_of_cons in H as [H|H]; [discriminate|]).
    by apply elem_of_nil in H. }
  assert (H2 : 58%N ∉ js "77bc").
  { intros H. vm_compute in H.
    repeat (apply elem_of_cons in H as [H|H]; [discriminate|]).
    by apply elem_of_nil in H. }
  split; [exact H1|]. split; [exact H2|].
  rewrite (cache_entries_do_not_collide (minutes 0) (minutes 1) (js "amy")
             (js "0f3a") (js "bob") (js "77bc") 7%nat ∅ H1 H2).
  - reflexivity.
  - discriminate.
Defined.

(** ** The sync of the client tables *)
Section SyncFacts.
Variable Date_parse : jsstring -> option Z.
Variable syncFails : SyncCall -> option jsstring.
Implicit Types (db : SyncDb) (userId id : jsstring) (tableName : SyncTable).

Lemma fetchDeletedSet_elem_of tableName (ids : list jsstring) userId db id :
  id ∈ ids ->
  id ∈ fetchDeletedSet tableName ids userId db
  <-> tombstoned userId tableName id db.
Proof.
  intros Hid. unfold fetchDeletedSet, tombstoned.
  destruct ids as [|id0 ids0]; [by apply elem_of_nil in Hid|].
  set (ids := id0 :: ids0) in *.
  rewrite elem_of_list_to_set, list_elem_of_fmap. split.
  - intros (row & -> & [Hrow Hf]%elem_of_List_filter). exists row.
    split; [done|]. unfold isTombstoneOf.
    apply andb_true_iff in Hf as [Hf _]. rewrite Hf.
    by rewrite bool_decide_true.
  - intros (row & Hrow & Hf). unfold isTombstoneOf in Hf.
    apply andb_true_iff in Hf as [Hf Hrec%bool_decide_eq_true].
    exists row. split; [done|]. apply elem_of_List_filter. split; [done|].
    rewrite Hf. cbn. apply bool_decide_eq_true. by rewrite Hrec.
Qed.

Lemma fetchExistingUpdatedMap_lookup tableName (ids : list jsstring) userId db id :
  id ∈ ids ->
  fetchExistingUpdatedMap tableName ids userId db !! id
  = storedUpdatedAt userId tableName id db.
Proof.
  intros Hid. unfold fetchExistingUpdatedMap, storedUpdatedAt.
  destruct ids as [|id0 ids0]; [by apply elem_of_nil in Hid|].
  set (ids := id0 :: ids0) in *.
  rewrite jsMapOf_lookup_last. f_equal.
  induction (synced_rows db) as [|row rows IH]; [done|]. cbn [List.filter].
  destruct (decide (sy_id row = id)) as [Heq|Hne].
  - rewrite (bool_decide_true (sy_id row = id)) by done.
    rewrite (bool_decide_true (sy_id row ∈ ids)) by by rewrite Heq.
    rewrite !andb_true_r.
    destruct (bool_decide (sy_table row = tableName)
              && bool_decide (sy_owner_id row = userId)); [|exact IH].
    rewrite fmap_cons. cbn [List.filter fst].
    rewrite (bool_decide_true (sy_id row = id)) by done.
    rewrite !fmap_cons. cbn [snd]. by rewrite IH.
  - rewrite (bool_decide_false (sy_id row = id)) by done.
    rewrite andb_false_r.
    destruct (bool_decide (sy_table row = tableName)
              && bool_decide (sy_owner_id row = userId)
              && bool_decide (sy_id row ∈ ids)); [|exact IH].
    rewrite fmap_cons. cbn [List.filter fst].
    by rewrite (bool_decide_false (sy_id row = id)) by done.
Qed.

Section Rows.
Context {Item Row : Type}.
Variable itemId : Item -> jsstring.
Variable itemUpdatedAt : Item -> JsTime.
Variable mapper : Item -> Row.

Lemma sublist_List_filter {A} (f : A -> bool) (l : list A) :
  List.filter f l `sublist_of` l.
Proof.
  induction l as [|x l IH]; [done|]. cbn. destruct (f x).
  - by apply sublist_skip.
  - by apply sublist_cons.
Qed.

(** The run of [buildUpsertRows] when its two reads are answered. *)
Lemma buildUpsertRows_run userId tableName (items : list Item) db :
  syncFails (SyncFetchExisting tableName) = None ->
  syncFails (SyncFetchDeleted tableName) = None ->
  let filtered := List.filter (fun item => negb (isEmpty (itemId item))) items in
  let ids := itemId <$> filtered in
  buildUpsertRows Date_parse syncFails itemId itemUpdatedAt mapper userId
    tableName items db
  = Ok (mapper
          <$> List.filter
                (keepsItem Date_parse itemId itemUpdatedAt
                   (fetchExistingUpdatedMap tableName ids userId db)
                   (fetchDeletedSet tableName ids userId db))
                filtered).
Proof.
  intros Hf1 Hf2 filtered ids. unfold buildUpsertRows. fold filtered.
  subst ids. destruct filtered as [|item0 rest]; [done|].
  by rewrite Hf1, Hf2.
Qed.

(** The test of the loop, on the store: an item whose id was asked for is
    kept when no tombstone of its record is stored and it is newer than
    the stored row, if there is one. *)
Lemma keepsItem_spec userId tableName (ids : list jsstring) (item : Item) db :
  itemId item ∈ ids ->
  keepsItem Date_parse itemId itemUpdatedAt
    (fetchExistingUpdatedMap tableName ids userId db)
    (fetchDeletedSet tableName ids userId db) item = true
  <-> ~ tombstoned userId tableName (itemId item) db
      /\ match storedUpdatedAt userId tableName (itemId item) db with
         | None => True
         | Some stored =>
             exists incoming,
               toMillis Date_parse (itemUpdatedAt item) = Some incoming
               /\ incoming <> 0
               /\ (stored = None \/ stored = Some 0
                   \/ exists s, stored = Some s /\ s < incoming)
         end.
Proof.
  intros Hid. unfold keepsItem.
  rewrite (fetchExistingUpdatedMap_lookup _ _ _ _ _ Hid).
  rewrite <- (fetchDeletedSet_elem_of _ ids _ _ _ Hid).
  destruct (decide (itemId item ∈ fetchDeletedSet _ _ _ _)) as [Hdel|Hdel];
    [by split; [|intros [? _]]|].
  destruct (storedUpdatedAt userId tableName (itemId item) db)
    as [stored|]; [|done].
  split.
  - intros Hkeep. split; [done|].
    apply negb_true_iff, orb_false_iff in Hkeep as [Hinc Hold].
    apply negb_false_iff in Hinc.
    destruct (toMillis Date_parse (itemUpdatedAt item)) as [incoming|];
      [|done].
    exists incoming. split; [done|]. cbn in Hinc.
    apply negb_true_iff, Z.eqb_neq in Hinc. split; [done|].
    destruct stored as [s|]; [|by left]. right. cbn in Hold.
    destruct (Z.eqb_spec s 0) as [->|Hs]; [by left|right].
    cbn in Hold. apply bool_decide_eq_false in Hold.
    exists s. split; [done|]. lia.
  - intros (_ & incoming & -> & Hnz & Hnewer). cbn.
    apply Z.eqb_neq in Hnz. rewrite Hnz. cbn.
    destruct Hnewer as [-> | [-> | (s & -> & Hs)]]; [done|done|].
    cbn. rewrite bool_decide_false by lia. by rewrite andb_false_r.
Qed.

(** The items with an id. *)
Lemma elem_of_withId (items : list Item) (item : Item) :
  item ∈ List.filter (fun item => negb (isEmpty (itemId item))) items
  <-> item ∈ items /\ itemId item <> [].
Proof.
  rewrite elem_of_List_filter. destruct (itemId item); cbn; intuition congruence.
Qed.

(** X22. The conflict rule of the sync, last write wins.  With its two
    reads answered, [buildUpsertRows] writes the items it keeps, in the
    order of the request.  An item is kept exactly when it has an id,
    no tombstone of its record is stored and, if a row of the record is
    stored, the item carries a time that is not zero and is strictly
    later than that of the stored row (or the stored row has no time, or
    the time zero).  So an item that is older than the stored row or as
    old, or that carries no time, never overwrites it. *)
Theorem buildUpsertRows_last_write_wins userId tableName (items : list Item) db :
  syncFails (SyncFetchExisting tableName) = None ->
  syncFails (SyncFetchDeleted tableName) = None ->
  exists kept,
    buildUpsertRows Date_parse syncFails itemId itemUpdatedAt mapper userId
      tableName items db = Ok (mapper <$> kept)
    /\ kept `sublist_of` items
    /\ forall item, item ∈ kept <->
         item ∈ items /\ itemId item <> []
         /\ ~ tombstoned userId tableName (itemId item) db
         /\ match storedUpdatedAt userId tableName (itemId item) db with
            | None => True
            | Some stored =>
                exists incoming,
                  toMillis Date_parse (itemUpdatedAt item) = Some incoming
                  /\ incoming <> 0
                  /\ (stored = None \/ stored = Some 0
                      \/ exists s, stored = Some s /\ s < incoming)
            end.
Proof.
  intros Hf1 Hf2. eexists. split; [by apply buildUpsertRows_run|]. split.
  { etrans; apply sublist_List_filter. }
  intros item. rewrite elem_of_List_filter, elem_of_withId. split.
  - intros [[Hin Hne] Hkeep]. split; [done|]. split; [done|].
    eapply keepsItem_spec; [|exact Hkeep].
    apply list_elem_of_fmap. exists item. by rewrite elem_of_withId.
  - intros (Hin & Hne & Hkeep). split; [done|].
    apply keepsItem_spec; [|exact Hkeep].
    apply list_elem_of_fmap. exists item. by rewrite elem_of_withId.
Qed.
End Rows.
Lemma upsertTombstone_keeps (rows : list DeletedRecord) row userId tableName id :
  (exists r, r ∈ rows /\ isTombstoneOf userId tableName id r = true) ->
  exists r, r ∈ upsertTombstone rows row
            /\ isTombstoneOf userId tableName id r = true.
Proof.
  intros (r & Hr & Hkey). unfold upsertTombstone.
  destruct (existsb _ rows).
  - destruct (isTombstoneOf (dr_owner_id row) (dr_table_name row)
                (dr_record_id row) r) eqn:E.
    + exists row. split.
      * apply list_elem_of_fmap. exists r. by rewrite E.
      * unfold isTombstoneOf in *.
        apply andb_true_iff in E as [[E1 E2]%andb_true_iff E3].
        apply andb_true_iff in Hkey as [[K1 K2]%andb_true_iff K3].
        apply bool_decide_eq_true in E1, E2, E3, K1, K2, K3.
        rewrite !bool_decide_true; [done|congruence..].
    + exists r. split; [|done]. apply list_elem_of_fmap. exists r. by rewrite E.
  - exists r. split; [|done]. apply elem_of_app. by left.
Qed.

Lemma upsertTombstone_adds (rows : list DeletedRecord) row :
  exists r, r ∈ upsertTombstone rows row
            /\ isTombstoneOf (dr_owner_id row) (dr_table_name row)
                  (dr_record_id row) r = true.
Proof.
  assert (Hself : isTombstoneOf (dr_owner_id row) (dr_table_name row)
                    (dr_record_id row) row = true).
  { unfold isTombstoneOf. by rewrite !bool_decide_true. }
  unfold upsertTombstone. destruct (existsb _ rows) eqn:E.
  - apply existsb_exists in E as (r & Hr%list_elem_of_In & Hkey).
    exists row. split; [|done]. apply list_elem_of_fmap. exists r.
    by rewrite Hkey.
  - exists row. split; [|done]. apply elem_of_app. right.
    by apply list_elem_of_singleton.
Qed.

Lemma foldl_upsertTombstone_keeps (news rows : list DeletedRecord)
    userId tableName id :
  (exists r, r ∈ rows /\ isTombstoneOf userId tableName id r = true) ->
  exists r, r ∈ foldl upsertTombstone rows news
            /\ isTombstoneOf userId tableName id r = true.
Proof.
  revert rows. induction news as [|row news IH]; intros rows Hrows; [done|].
  cbn [foldl]. by apply IH, upsertTombstone_keeps.
Qed.

Lemma foldl_upsertTombstone_adds (news rows : list DeletedRecord) row :
  row ∈ news ->
  exists r, r ∈ foldl upsertTombstone rows news
            /\ isTombstoneOf (dr_owner_id row) (dr_table_name row)
                  (dr_record_id row) r = true.
Proof.
  revert rows. induction news as [|new news IH]; intros rows Hin.
  { by apply elem_of_nil in Hin. }
  cbn [foldl]. apply elem_of_cons in Hin as [->|Hin]; [|by apply IH].
  apply foldl_upsertTombstone_keeps, upsertTombstone_adds.
Qed.

Lemma deleteRowsOf_Ok nowIso userId tableName
    (entries : list (jsstring * option Z)) rows id :
  deleteRowsOf nowIso userId tableName entries = Ok rows ->
  id ∈ entries.*1 ->
  exists row, row ∈ rows /\ dr_owner_id row = userId
              /\ dr_table_name row = tableName /\ dr_record_id row = id.
Proof.
  revert rows. induction entries as [|[id0 deletedAt] entries IH]; intros rows.
  { by intros _ ?%elem_of_nil. }
  cbn [deleteRowsOf]. destruct (from_option validDate true deletedAt); [|done].
  destruct (deleteRowsOf nowIso userId tableName entries) as [rest|]; [|done].
  intros [= <-]. cbn. intros [->|Hin]%elem_of_cons.
  - eexists. split; [apply elem_of_cons; by left|done].
  - destruct (IH rest eq_refl Hin) as (row & Hrow & ?).
    exists row. split; [|done]. apply elem_of_cons. by right.
Qed.

(** A tombstone, once stored, stays: no deletion removes or hides it. *)
Lemma applyDeletes_keeps_tombstones nowIso userId tableName items db
    userId' tableName' id :
  tombstoned userId' tableName' id db ->
  tombstoned userId' tableName' id
    (applyDeletes Date_parse syncFails nowIso userId tableName items db).1.
Proof.
  intros Hstored. unfold applyDeletes.
  destruct (normalizeDeletedList Date_parse items) as [|entry entries]; [done|].
  destruct (deleteRowsOf _ _ _ _) as [rows|]; [|done].
  destruct (syncFails (SyncUpsertTombstones tableName)); [done|].
  assert (Hkept : tombstoned userId' tableName' id
                    (mkSyncDb (synced_rows db)
                       (foldl upsertTombstone (deleted_records db) rows)))
    by by apply foldl_upsertTombstone_keeps.
  by destruct (syncFails (SyncDeleteRows tableName)).
Qed.

Lemma applyAllDeletes_keeps_tombstones nowIso userId
    (deletions : list (SyncTable * option (list DeletedItem))) db
    userId' tableName' id :
  tombstoned userId' tableName' id db ->
  tombstoned userId' tableName' id
    (applyAllDeletes Date_parse syncFails nowIso userId deletions db).
Proof.
  unfold applyAllDeletes. revert db.
  induction deletions as [|deletion deletions IH]; intros db Hdb; [done|].
  cbn [foldl]. by apply IH, applyDeletes_keeps_tombstones.
Qed.

Section Resurrection.
Context {Item Row : Type}.
Variable itemId : Item -> jsstring.
Variable itemUpdatedAt : Item -> JsTime.
Variable mapper : Item -> Row.

(** X23. A deletion wins over a write, and for good.  When
    [applyDeletes] returns, every record it was given is tombstoned and
    its row is gone from the table; the tombstone stays whatever
    deletions follow, in this request or a later one; and from then on
    [buildUpsertRows] keeps no item with the id of such a record,
    however recent the item claims to be. *)
Theorem deleted_records_are_not_resurrected nowIso nowIso' userId tableName
    items db db1
    (later : list (SyncTable * option (list DeletedItem)))
    (clientItems : list Item) :
  applyDeletes Date_parse syncFails nowIso userId tableName items db
    = (db1, Ok ()) ->
  syncFails (SyncFetchExisting tableName) = None ->
  syncFails (SyncFetchDeleted tableName) = None ->
  let deleted := (normalizeDeletedList Date_parse items).*1 in
  let db2 := applyAllDeletes Date_parse syncFails nowIso' userId later db1 in
  (forall id, id ∈ deleted ->
     tombstoned userId tableName id db2
     /\ forall row, row ∈ synced_rows db1 ->
          ~ (sy_table row = tableName /\ sy_id row = id
             /\ sy_owner_id row = userId))
  /\ exists kept,
       buildUpsertRows Date_parse syncFails itemId itemUpdatedAt mapper userId
         tableName clientItems db2 = Ok (mapper <$> kept)
       /\ kept `sublist_of` clientItems
       /\ forall item, item ∈ kept -> itemId item ∉ deleted.
Proof.
  intros Hrun Hf1 Hf2 deleted db2.
  assert (Hdeleted : forall id, id ∈ deleted ->
            tombstoned userId tableName id db1
            /\ forall row, row ∈ synced_rows db1 ->
                 ~ (sy_table row = tableName /\ sy_id row = id
                    /\ sy_owner_id row = userId)).
  { intros id Hid. revert Hrun. unfold applyDeletes. fold deleted in Hid.
    subst deleted.
    destruct (normalizeDeletedList Date_parse items) as [|entry entries] eqn:E;
      [by apply elem_of_nil in Hid|].
    rewrite <- E in *. clear E entry entries.
    destruct (deleteRowsOf _ _ _ _) as [rows|] eqn:Hrows; [|done].
    destruct (syncFails (SyncUpsertTombstones tableName)); [done|].
    destruct (syncFails (SyncDeleteRows tableName)); [done|].
    intros [= <-]. cbn [synced_rows deleted_records]. split.
    - destruct (deleteRowsOf_Ok _ _ _ _ _ _ Hrows Hid)
        as (row & Hrow & <- & <- & <-).
      by apply foldl_upsertTombstone_adds.
    - intros row [Hrow Hf]%elem_of_List_filter (Ht & Hi & Ho).
      rewrite !bool_decide_true in Hf; [done|done|by rewrite Hi|done]. }
  split.
  - intros id Hid. destruct (Hdeleted id Hid) as [Hstored Hgone].
    split; [|exact Hgone]. by apply applyAllDeletes_keeps_tombstones.
  - eexists. split; [by apply buildUpsertRows_run|]. split.
    { etrans; apply sublist_List_filter. }
    intros item [Hin Hkeep]%elem_of_List_filter Hid.
    apply keepsItem_spec in Hkeep as [Hnot _].
    + apply Hnot, applyAllDeletes_keeps_tombstones. by apply Hdeleted.
    + apply list_elem_of_fmap. by exists item.
Qed.
End Resurrection.
End SyncFacts.

Lemma buildUpsertRows_witness :
  noSyncFaults (SyncFetchExisting Classrooms) = None
  /\ noSyncFaults (SyncFetchDeleted Classrooms) = None
  /\ exists kept,
       buildUpsertRows neverParses noSyncFaults fst snd id teacher Classrooms
         [(js "c1", TimeMs 1000); (js "c2", TimeOther)] oneClassroom
       = Ok (id <$> kept)
       /\ kept `sublist_of` [(js "c1", TimeMs 1000); (js "c2", TimeOther)].
Proof.
  split; [reflexivity|]. split; [reflexivity|].
  destruct (buildUpsertRows_last_write_wins neverParses noSyncFaults fst snd id
              teacher Classrooms [(js "c1", TimeMs 1000); (js "c2", TimeOther)]
              oneClassroom eq_refl eq_refl) as (kept & Hrows & Hsub & _).
  exists kept. split; [exact Hrows|exact Hsub].
Defined.

Lemma deleted_records_witness :
  let run := applyDeletes neverParses noSyncFaults 5000 teacher Classrooms
               (Some [DeletedString (js "c1")]) oneClassroom in
  run.2 = Ok ()
  /\ synced_rows run.1 = []
  /\ buildUpsertRows neverParses noSyncFaults fst snd id teacher Classrooms
       sentClassrooms run.1 = Ok [(js "c2", TimeMs 2000)]
  /\ exists kept,
       buildUpsertRows neverParses noSyncFaults fst snd id teacher Classrooms
         sentClassrooms run.1 = Ok (id <$> kept)
       /\ forall item, item ∈ kept -> item.1 ∉ [js "c1"].
Proof.
  cbn zeta. split; [reflexivity|]. split; [reflexivity|].
  split; [vm_compute; reflexivity|].
  destruct (deleted_records_are_not_resurrected neverParses noSyncFaults fst snd id
              5000 6000 teacher Classrooms (Some [DeletedString (js "c1")])
              oneClassroom
              (applyDeletes neverParses noSyncFaults 5000 teacher Classrooms
                 (Some [DeletedString (js "c1")]) oneClassroom).1
              [] sentClassrooms eq_refl eq_refl eq_refl)
    as (_ & kept & Hrows & _ & Hkept).
  exists kept. split; [exact Hrows|exact Hkept].
Defined.

(** ** The domain rollup *)
Section DomainRollupFacts.
Variable domainFails : DomainCall -> option jsstring.
Implicit Types (rows tagRows : list AssignmentTagAggregate)
  (row : AssignmentTagAggregate) (label : jsstring).

Lemma sumZ_snoc (l : list Z) (x : Z) : sumZ (l ++ [x]) = sumZ l + x.
Proof. unfold sumZ. by rewrite foldl_snoc. Qed.

Lemma domainBucketOf_snoc rows row :
  addToDomainBucket row (domainBucketOf rows) = domainBucketOf (rows ++ [row]).
Proof.
  unfold addToDomainBucket, domainBucketOf. cbn [dbk_total dbk_assignments].
  f_equal.
  - rewrite fmap_app. change (agg_tag_count <$> [row]) with [agg_tag_count row].
    by rewrite sumZ_snoc.
  - rewrite fmap_app, filter_app.
    change (agg_assignment_id <$> [row]) with [agg_assignment_id row].
    destruct (agg_assignment_id row) as [|c r] eqn:E; cbn [isEmpty].
    + rewrite filter_cons_False by (unfold nonEmpty; naive_solver).
      rewrite filter_nil. by rewrite app_nil_r.
    + rewrite filter_cons_True by done. rewrite filter_nil.
      rewrite list_to_set_app_L. cbn. set_solver.
Qed.

(** The map after the loop over the rows: a label has a bucket exactly
    when it is not empty and some row carries it, and the bucket is what
    the rows of the label add up to. *)
Lemma domainTagMap_spec tagRows :
  NoDup (domainTagMap tagRows).*1
  /\ forall label,
       assocGet label (domainTagMap tagRows)
       = if decide (label = [] \/ rowsOfLabel label tagRows = []) then None
         else Some (domainBucketOf (rowsOfLabel label tagRows)).
Proof.
  unfold domainTagMap.
  induction tagRows as [|row tagRows [Hnd IH]] using rev_ind.
  - split; [constructor|]. intros label. cbn.
    by rewrite decide_True by by right.
  - rewrite foldl_snoc. unfold rowsOfLabel in *.
    destruct (agg_tag_label row) as [|c l] eqn:Hlabel; cbn [isEmpty].
    + split; [done|]. intros label. rewrite IH, filter_app.
      destruct (decide (label = [])) as [->|Hne].
      * rewrite !decide_True by by left. done.
      * rewrite filter_cons_False by congruence.
        by rewrite filter_nil, app_nil_r.
    + split; [by apply keys_assocUpdate_NoDup|]. intros label.
      rewrite filter_app.
      destruct (decide (c :: l = label)) as [<-|Hne].
      * rewrite assocGet_update_eq, IH.
        rewrite filter_cons_True by done. rewrite filter_nil.
        rewrite (decide_False (P := _ \/ _ ++ [row] = []))
          by (intros [?|[_ ?]%app_eq_nil]; done).
        f_equal. rewrite <- domainBucketOf_snoc. f_equal.
        case_decide as E; [|done]. destruct E as [?|E]; [done|]. by rewrite E.
      * rewrite assocGet_update_ne by done. rewrite IH.
        rewrite filter_cons_False by congruence.
        by rewrite filter_nil, app_nil_r.
Qed.

Lemma domainTagRows_nil ownerId (aggregates : list AssignmentTagAggregate) :
  domainTagRows ownerId [] aggregates = [].
Proof.
  unfold domainTagRows. induction aggregates as [|row aggregates IH]; [done|].
  cbn. rewrite (bool_decide_false (_ ∈ [])) by apply not_elem_of_nil.
  by rewrite andb_false_r.
Qed.

(** X24. The rollup of a domain, the database answering without error.
    The rows of the owner and the domain are replaced, those of every
    other owner or domain are kept.  The assignments of the domain are
    those of the owner whose domain is the one asked for, the assignments
    with no domain counting as [uncategorized].  There is one new row per
    non-empty label among their aggregate rows; its count is the sum of
    the counts of the rows of the label, and at least 1; its assignment
    count is the number of distinct assignments of these rows; and every
    row carries the sum of the sample counts of the states of the
    assignments of the domain. *)
Theorem domain_rollup_sums_per_label ownerId domain now
    (assignmentRows : list AssignmentDomain)
    (aggregates : list AssignmentTagAggregate)
    (states : list AssignmentTagState) (table : list DomainTagAggregate) :
  ownerId <> [] -> domain <> [] ->
  (forall call, domainFails call = None) ->
  let assignmentIds := domainAssignmentIds ownerId domain assignmentRows in
  let tagRows := domainTagRows ownerId assignmentIds aggregates in
  let stateRows := domainStateRows ownerId assignmentIds states in
  let run := refreshDomainTagAggregates domainFails ownerId domain now
               assignmentRows aggregates states table in
  run.2 = Ok ()
  /\ exists written,
       run.1 = List.filter (fun old => negb (isDomainRowOf ownerId domain old))
                 table ++ written
       /\ NoDup (da_tag_label <$> written)
       /\ (forall label, label ∈ da_tag_label <$> written <->
             label <> [] /\ exists row, row ∈ tagRows /\ agg_tag_label row = label)
       /\ forall r, r ∈ written ->
            let rows := rowsOfLabel (da_tag_label r) tagRows in
            da_owner_id r = ownerId /\ da_domain r = domain
            /\ da_tag_count r = Z.max 1 (sumZ (agg_tag_count <$> rows))
            /\ da_assignment_count r
               = size (list_to_set (agg_assignment_id <$> rows) : gset jsstring)
            /\ da_sample_count r
               = sumZ ((fun state => default 0 (st_sample_count state)) <$> stateRows).
Proof.
  intros Ho Hd Hok assignmentIds tagRows stateRows run.
  destruct (domainTagMap_spec tagRows) as [Hnd Hget].
  set (written := domainRowsOf ownerId domain now (sampleTotalOf stateRows)
                    (domainTagMap tagRows)).
  assert (Hrun : run = (List.filter
                          (fun old => negb (isDomainRowOf ownerId domain old))
                          table ++ written, Ok ())).
  { subst run. unfold refreshDomainTagAggregates.
    rewrite (isEmpty_false _ Ho), (isEmpty_false _ Hd). cbn [orb].
    rewrite !Hok. fold assignmentIds. unfold written.
    destruct assignmentIds as [|id ids] eqn:E.
    { subst tagRows. rewrite domainTagRows_nil. cbn. by rewrite app_nil_r. }
    fold tagRows stateRows.
    destruct (domainTagMap tagRows); [cbn; by rewrite app_nil_r|done]. }
  rewrite Hrun. cbn [fst snd]. split; [done|]. exists written.
  split; [done|].
  assert (Hlabels : da_tag_label <$> written = (domainTagMap tagRows).*1).
  { unfold written, domainRowsOf. rewrite <- list_fmap_compose.
    by apply list_fmap_ext. }
  assert (Hrows : forall label, rowsOfLabel label tagRows <> [] <->
            exists row, row ∈ tagRows /\ agg_tag_label row = label).
  { intros label. unfold rowsOfLabel. split.
    - intros Hne. destruct (filter _ tagRows) as [|row rows] eqn:E; [done|].
      assert (Hin : row ∈ filter (fun row => agg_tag_label row = label) tagRows)
        by (rewrite E; apply elem_of_cons; by left).
      apply list_elem_of_filter in Hin as [Hl Hin]. by exists row.
    - intros (row & Hin & Hl) Hnil.
      assert (Hrow : row ∈ filter (fun row => agg_tag_label row = label) tagRows)
        by by apply list_elem_of_filter.
      rewrite Hnil in Hrow. by apply elem_of_nil in Hrow. }
  split_and!.
  - by rewrite Hlabels.
  - intros label. rewrite Hlabels, <- Hrows. specialize (Hget label).
    destruct (decide (label = [] \/ rowsOfLabel label tagRows = [])) as [E|E].
    + apply assocGet_None in Hget. split; [done|]. intros [? ?].
      destruct E; done.
    + split; [intros _; split; intros ?; apply E; auto|]. intros _.
      apply assocGet_Some_elem_of in Hget.
      apply list_elem_of_fmap. by eexists (_, _).
  - intros r Hr. unfold written, domainRowsOf in Hr.
    apply list_elem_of_fmap in Hr as ([label bucket] & -> & Hin).
    cbn [da_owner_id da_domain da_tag_label da_tag_count
         da_assignment_count da_sample_count fst snd].
    apply elem_of_assocGet in Hin; [|done]. rewrite Hget in Hin.
    destruct (decide (label = [] \/ rowsOfLabel label tagRows = [])); [done|].
    injection Hin as <-. cbn [domainBucketOf dbk_total dbk_assignments].
    split_and!; try done.
    f_equal. apply set_eq. intros id.
    rewrite !elem_of_list_to_set, list_elem_of_filter. split; [by intros [_ ?]|].
    intros Hid. split; [|done].
    apply list_elem_of_fmap in Hid as (row & -> & Hrow).
    apply list_elem_of_filter in Hrow as [_ Hrow].
    apply elem_of_List_filter in Hrow as [_ Hf].
    apply andb_true_iff in Hf as [_ Hf%bool_decide_eq_true].
    unfold assignmentIds, domainAssignmentIds in Hf.
    apply elem_of_List_filter in Hf as [_ Hf]. unfold nonEmpty.
    by destruct (agg_assignment_id row).
Qed.
(** X25. The rollup of a domain deletes before it reads and inserts, and
    nothing puts the deleted rows back.  A domain that has no assignment
    left is emptied.  And when, after the delete, the read of the aggregate
    rows, the read of the states or the insert fails, the rollup throws
    and the domain is left with no row at all. *)
Theorem domain_rollup_deletes_first ownerId domain now
    (assignmentRows : list AssignmentDomain)
    (aggregates : list AssignmentTagAggregate)
    (states : list AssignmentTagState) (table : list DomainTagAggregate) :
  ownerId <> [] -> domain <> [] ->
  domainFails DomainSelectAssignments = None ->
  domainFails DomainDelete = None ->
  let assignmentIds := domainAssignmentIds ownerId domain assignmentRows in
  let run := refreshDomainTagAggregates domainFails ownerId domain now
               assignmentRows aggregates states table in
  let kept := List.filter (fun old => negb (isDomainRowOf ownerId domain old))
                table in
  (assignmentIds = [] -> run = (kept, Ok ()))
  /\ (assignmentIds <> [] ->
      forall message,
        domainFails DomainSelectTags = Some message
        \/ (domainFails DomainSelectTags = None
            /\ domainFails DomainSelectStates = Some message)
        \/ (domainFails DomainSelectTags = None
            /\ domainFails DomainSelectStates = None
            /\ domainTagMap (domainTagRows ownerId assignmentIds aggregates) <> []
            /\ domainFails DomainInsert = Some message) ->
        run = (kept, Throw message)).
Proof.
  intros Ho Hd Hf1 Hf2 assignmentIds run kept. subst run.
  unfold refreshDomainTagAggregates.
  rewrite (isEmpty_false _ Ho), (isEmpty_false _ Hd). cbn [orb].
  rewrite Hf1, Hf2. fold assignmentIds kept. split.
  - by intros ->.
  - intros Hne message Hfail. destruct assignmentIds as [|id ids]; [done|].
    destruct Hfail as [-> | [[-> ->] | (-> & -> & Hmap & ->)]]; [done|done|].
    by destruct (domainTagMap _).
Qed.
End DomainRollupFacts.

Lemma domain_rollup_witness :
  let assignmentRows :=
    [mkAssignmentDomain hw1 teacher (Some (js "math"));
     mkAssignmentDomain (js "hw2") teacher None] in
  let aggregates :=
    [mkAggregate teacher hw1 (js "Units") 3 None 0 TAG_MODEL TAG_PROMPT_VERSION 0;
     mkAggregate teacher hw1 (js "Signs") 0 None 0 TAG_MODEL TAG_PROMPT_VERSION 0;
     mkAggregate teacher (js "hw2") (js "Units") 5 None 0 TAG_MODEL TAG_PROMPT_VERSION 0] in
  (refreshDomainTagAggregates (fun _ => None) teacher (js "math") 1000
     assignmentRows aggregates [lockedState] []).1
  = [mkDomainAggregate teacher (js "math") (js "Units") 3 1 6 1000 DOMAIN_AGG_MODEL
       DOMAIN_AGG_PROMPT_VERSION 1000;
     mkDomainAggregate teacher (js "math") (js "Signs") 1 1 6 1000 DOMAIN_AGG_MODEL
       DOMAIN_AGG_PROMPT_VERSION 1000]
  /\ exists written,
       (refreshDomainTagAggregates (fun _ => None) teacher (js "math") 1000
          assignmentRows aggregates [lockedState] []).1 = [] ++ written
       /\ NoDup (da_tag_label <$> written).
Proof.
  cbn zeta. split; [vm_compute; reflexivity|].
  destruct (domain_rollup_sums_per_label (fun _ => None) teacher (js "math") 1000
              [mkAssignmentDomain hw1 teacher (Some (js "math"));
               mkAssignmentDomain (js "hw2") teacher None]
              [mkAggregate teacher hw1 (js "Units") 3 None 0 TAG_MODEL
                 TAG_PROMPT_VERSION 0;
               mkAggregate teacher hw1 (js "Signs") 0 None 0 TAG_MODEL
                 TAG_PROMPT_VERSION 0;
               mkAggregate teacher (js "hw2") (js "Units") 5 None 0 TAG_MODEL
                 TAG_PROMPT_VERSION 0]
              [lockedState] [])
    as (_ & written & Hrun & Hnd & _).
  - discriminate.
  - discriminate.
  - reflexivity.
  - exists written. split; [exact Hrun|exact Hnd].
Defined.

Lemma domain_rollup_deletes_first_witness :
  let old := mkDomainAggregate teacher (js "math") (js "Units") 3 1 6 0
               DOMAIN_AGG_MODEL DOMAIN_AGG_PROMPT_VERSION 0 in
  refreshDomainTagAggregates (fun _ => None) teacher (js "math") 1000 [] [] []
    [old] = ([], Ok ()).
Proof.
  cbn zeta.
  refine (proj1 (domain_rollup_deletes_first (fun _ => None) teacher (js "math")
                   1000 [] [] [] _ _ _ eq_refl eq_refl) eq_refl); discriminate.
Defined.

(** ** The queue of the dictionary merges *)

#[global] Instance sameDictionaryStates_preorder : PreOrder sameDictionaryStates.
Proof.
  split; [done|]. intros x y z Hxy Hyz. unfold sameDictionaryStates in *. congruence.
Qed.

Section MergeQueueFacts.
Variable toLowerCase : jsstring -> jsstring.
Variable fails : DbCall -> option jsstring.
Variable callGeminiGroups : jsstring -> Outcome (list RawGroup).
Variable updateAbilityMappingForOwner : jsstring -> Outcome ().
Variable queueFails : QueueCall -> option jsstring.
Implicit Types (o : jsstring) (st : Store) (stateRow : TagDictionaryState).

Local Abbreviation merge :=
  (mergeDictionaryForOwner toLowerCase fails callGeminiGroups
     updateAbilityMappingForOwner).
Local Abbreviation processOne :=
  (processMergeState toLowerCase fails callGeminiGroups
     updateAbilityMappingForOwner queueFails).
Local Abbreviation processAll :=
  (processMergeStates toLowerCase fails callGeminiGroups
     updateAbilityMappingForOwner queueFails).

Lemma upsertMergedMembers_states (updates : list (N * N)) now st :
  tag_dictionary_state (upsertMergedMembers updates now st)
  = tag_dictionary_state st.
Proof.
  unfold upsertMergedMembers. revert st.
  induction updates as [|update updates IH]; intros st; [done|].
  cbn [foldl]. by rewrite IH.
Qed.

Lemma keeps_states_mergeGroups o now (groups : list (jsstring * list jsstring))
    acc :
  keeps sameDictionaryStates (mergeGroups toLowerCase fails o now acc groups).
Proof.
  revert acc. induction groups as [|group groups IH]; intros acc; cbn.
  - apply keeps_ret; apply _.
  - apply keeps_bind; [apply _| |intros acc'; apply IH].
    unfold mergeGroup. destruct (isEmpty _); [apply keeps_ret; apply _|].
    apply keeps_bind; [apply _| |intros found; apply keeps_ret; apply _].
    destruct (ma_idByNormalized acc !! _); [apply keeps_ret; apply _|].
    apply keeps_bind; [apply _| |intros row; apply keeps_ret; apply _].
    apply keeps_orThrow; [apply _|]. apply keeps_dbCall; [apply _|]. done.
Qed.

(** The merge does not write the table of the merge states. *)
Lemma keeps_states_merge now o : keeps sameDictionaryStates (merge now o).
Proof.
  unfold mergeDictionaryForOwner.
  destruct (isEmpty o); [apply keeps_throw; apply _|].
  apply keeps_bind; [apply _| |intros activeRows].
  { apply keeps_orThrow; [apply _|]. apply keeps_dbRead. apply _. }
  destruct (_ <? _)%nat; [apply keeps_ret; apply _|].
  destruct (_ <? _)%nat; [apply keeps_ret; apply _|].
  apply keeps_bind; [apply _| |intros usage].
  { apply keeps_orThrow; [apply _|]. apply keeps_dbRead. apply _. }
  apply keeps_bind; [apply _|apply keeps_pure; apply _|intros rawGroups].
  destruct (omap _ rawGroups) as [|g groups].
  { apply keeps_bind; [apply _|apply keeps_pure; apply _|intros _].
    apply keeps_ret; apply _. }
  apply keeps_bind; [apply _|apply keeps_states_mergeGroups|intros acc].
  apply keeps_bind; [apply _| |intros _].
  { destruct (decide _); [apply keeps_ret; apply _|].
    apply keeps_orThrow; [apply _|]. apply keeps_dbWrite; [apply _|]. done. }
  apply keeps_bind; [apply _| |intros _].
  { destruct (ma_mergeUpdates acc); [apply keeps_ret; apply _|].
    apply keeps_orThrow; [apply _|]. apply keeps_dbWrite; [apply _|].
    intros st. apply upsertMergedMembers_states. }
  apply keeps_bind; [apply _|apply keeps_pure; apply _|intros _].
  apply keeps_ret; apply _.
Qed.

Lemma processOne_returns now stateRow st :
  exists outcome,
    (processOne now stateRow st).2 = Ok (ds_owner_id stateRow, outcome).
Proof.
  unfold processMergeState, queueCall, bind at 1.
  destruct (queueFails QueueRunningUpdate); [by eexists|].
  cbn [fst snd]. unfold tryCatch, bind, ret.
  destruct (merge now (ds_owner_id stateRow) _) as [st1 [result|message]].
  - destruct (queueFails QueueIdleUpdate); by eexists.
  - destruct (queueFails QueueFailedUpdate); by eexists.
Qed.

Lemma processAll_returns now (rows : list TagDictionaryState) st :
  exists results,
    (processAll now rows st).2 = Ok results
    /\ results.*1 = ds_owner_id <$> rows.
Proof.
  revert st. induction rows as [|row rows IH]; intros st.
  - by exists [].
  - cbn [processMergeStates]. unfold bind at 1.
    destruct (processOne_returns now row st) as [outcome Hone].
    destruct (processOne now row st) as [st1 one]. cbn in Hone. subst one.
    unfold bind at 1. destruct (IH st1) as (results & Hrest & Hids).
    destruct (processAll now rows st1) as [st2 rest]. cbn in Hrest. subst rest.
    eexists. split; [reflexivity|]. cbn. by rewrite Hids.
Qed.

(** X26. A run of the merge queue throws only when the selection of the
    states fails, and then writes nothing.  Otherwise it returns one result
    per due state, in their order: the due states are the pending states,
    of the owners asked for when a non-empty list of owners is given, that
    have no deadline or whose deadline has passed, or all the pending ones
    when the run is forced.  A merge that fails does not stop the queue. *)
Theorem merge_queue_answers_every_due_state (ownerIds : option (list jsstring))
    (force : bool) (now : Z) st :
  let run := processDictionaryMergeQueue toLowerCase fails callGeminiGroups
               updateAbilityMappingForOwner queueFails ownerIds force now st in
  match queueFails QueueSelectStates with
  | Some message => run = (st, Throw message)
  | None =>
      exists results,
        run.2 = Ok results
        /\ results.*1
           = ds_owner_id
               <$> List.filter (isMergeDue force now)
                     (List.filter (queueSelects ownerIds)
                        (tag_dictionary_state st))
  end.
Proof.
  intros run. subst run. unfold processDictionaryMergeQueue.
  unfold queueCall, bind at 1.
  destruct (queueFails QueueSelectStates) as [message|]; [done|].
  cbn [fst snd]. apply processAll_returns.
Qed.

Lemma updateMergeState_rows o onlyPending status message now st row' :
  row' ∈ tag_dictionary_state (updateMergeState o onlyPending status message now st) ->
  exists row,
    row ∈ tag_dictionary_state st /\ ds_owner_id row' = ds_owner_id row
    /\ (ds_owner_id row <> o -> row' = row)
    /\ (ds_owner_id row = o -> onlyPending = false ->
          ds_status row' = status /\ ds_error_message row' = message).
Proof.
  unfold updateMergeState. cbn.
  intros (row & -> & Hrow)%list_elem_of_fmap. exists row. split; [done|].
  destruct (decide (ds_owner_id row = o)) as [Ho|Ho].
  - rewrite bool_decide_true by done. cbn [andb].
    destruct onlyPending; cbn [negb orb].
    + destruct (ds_status row); cbn; split_and!; done.
    + cbn. split_and!; done.
  - rewrite bool_decide_false by done. cbn [andb]. split_and!; done.
Qed.

Lemma updateMergeState_other o onlyPending status message now st :
  List.filter (fun row => negb (bool_decide (ds_owner_id row = o)))
    (tag_dictionary_state (updateMergeState o onlyPending status message now st))
  = List.filter (fun row => negb (bool_decide (ds_owner_id row = o)))
      (tag_dictionary_state st).
Proof.
  unfold updateMergeState. cbn.
  induction (tag_dictionary_state st) as [|row rows IH]; [done|].
  rewrite fmap_cons. cbn [List.filter].
  destruct (decide (ds_owner_id row = o)) as [Ho|Ho].
  - rewrite (bool_decide_true (ds_owner_id row = o)) by done. cbn [andb negb].
    destruct (negb onlyPending || _); cbn [ds_owner_id];
      rewrite ?(bool_decide_true (ds_owner_id row = o)) by done; cbn; exact IH.
  - rewrite (bool_decide_false (ds_owner_id row = o)) by done. cbn.
    rewrite (bool_decide_false (ds_owner_id row = o)) by done. cbn.
    by rewrite IH.
Qed.

(** X27. One turn of the queue never leaves the state of its owner
    [running].  With the updates of the state answered, the turn ends with
    that state [idle] and no error message when the merge returned, and
    [failed] with the message of the merge when it threw; the states of the
    other owners are not written. *)
Theorem merge_state_ends_idle_or_failed now stateRow st :
  queueFails QueueRunningUpdate = None ->
  queueFails QueueIdleUpdate = None ->
  queueFails QueueFailedUpdate = None ->
  let o := ds_owner_id stateRow in
  let run := processOne now stateRow st in
  exists outcome,
    run.2 = Ok (o, outcome)
    /\ outcome
       = (merge now o (updateMergeState o true merge_running None now st)).2
    /\ (forall row, row ∈ tag_dictionary_state run.1 -> ds_owner_id row = o ->
          match outcome with
          | Ok _ => ds_status row = merge_idle /\ ds_error_message row = None
          | Throw message =>
              ds_status row = merge_failed
              /\ ds_error_message row = Some message
          end)
    /\ List.filter (fun row => negb (bool_decide (ds_owner_id row = o)))
         (tag_dictionary_state run.1)
       = List.filter (fun row => negb (bool_decide (ds_owner_id row = o)))
           (tag_dictionary_state st).
Proof.
  intros Hf1 Hf2 Hf3 o run. subst run.
  unfold processMergeState, queueCall, bind at 1. rewrite Hf1. fold o.
  cbn [fst snd]. unfold tryCatch, bind, ret. rewrite Hf2, Hf3.
  set (st1 := updateMergeState o true merge_running None now st).
  pose proof (keeps_states_merge now o st1) as Hkeep.
  unfold sameDictionaryStates in Hkeep.
  destruct (merge now o st1) as [st2 [result|message]]; cbn [fst snd] in *.
  - exists (Ok result). split; [done|]. split; [done|]. split.
    + intros row Hrow Ho.
      destruct (updateMergeState_rows _ _ _ _ _ _ _ Hrow)
        as (row0 & _ & Hid & _ & Hset).
      apply Hset; [congruence|done].
    + rewrite updateMergeState_other, Hkeep. apply updateMergeState_other.
  - exists (Throw message). split; [done|]. split; [done|]. split.
    + intros row Hrow Ho.
      destruct (updateMergeState_rows _ _ _ _ _ _ _ Hrow)
        as (row0 & _ & Hid & _ & Hset).
      apply Hset; [congruence|done].
    + rewrite updateMergeState_other, Hkeep. apply updateMergeState_other.
Qed.

Lemma replaceMergeState_other o (new : TagDictionaryState)
    (rows : list TagDictionaryState) :
  ds_owner_id new = o ->
  List.filter (fun row => negb (bool_decide (ds_owner_id row = o)))
    ((fun r => if bool_decide (ds_owner_id r = o) then new else r) <$> rows)
  = List.filter (fun row => negb (bool_decide (ds_owner_id row = o))) rows.
Proof.
  intros Hnew. induction rows as [|r rows IH]; [done|].
  rewrite fmap_cons. cbn [List.filter].
  destruct (bool_decide (ds_owner_id r = o)) eqn:E.
  - rewrite (bool_decide_true (ds_owner_id new = o)) by done. cbn. exact IH.
  - rewrite E. cbn. by rewrite IH.
Qed.

(** What a touch of the merge state leaves. *)
Lemma touchDictionaryMergeState_rows o (t : Z) st :
  o <> [] -> fails MergeStateUpsert = None ->
  let run := touchDictionaryMergeState fails o t st in
  run.2 = Ok ()
  /\ tag_dictionary run.1 = tag_dictionary st
  /\ (exists row, row ∈ tag_dictionary_state run.1 /\ ds_owner_id row = o)
  /\ (forall row, row ∈ tag_dictionary_state run.1 -> ds_owner_id row = o ->
        row = mkDictState o merge_pending (Some (t + 10 * 60 * 1000)) None t)
  /\ List.filter (fun row => negb (bool_decide (ds_owner_id row = o)))
       (tag_dictionary_state run.1)
     = List.filter (fun row => negb (bool_decide (ds_owner_id row = o)))
         (tag_dictionary_state st).
Proof.
  intros Ho Hf run. subst run. unfold touchDictionaryMergeState.
  rewrite (isEmpty_false o Ho). unfold_monad. rewrite Hf. cbn [fst snd].
  unfold addMinutesIso, DICT_MERGE_QUIET_MINUTES.
  set (new := mkDictState o merge_pending _ None t).
  split; [done|].
  destruct (existsb _ (tag_dictionary_state st)) eqn:E; cbn.
  - split_and!.
    + done.
    + apply existsb_exists in E as (r & Hr%list_elem_of_In & Hk).
      exists new. split; [|done]. apply list_elem_of_fmap. exists r.
      by rewrite Hk.
    + intros row (r & -> & Hr)%list_elem_of_fmap Hrow.
      destruct (bool_decide (ds_owner_id r = o)) eqn:Hk; [done|].
      by apply bool_decide_eq_false in Hk.
    + by apply replaceMergeState_other.
  - split_and!.
    + done.
    + exists new. split; [|done]. apply elem_of_app. right.
      by apply list_elem_of_singleton.
    + intros row [Hrow|Hrow%list_elem_of_singleton]%elem_of_app Hk;
        [|by subst row].
      exfalso. assert (Hex : existsb (fun r => bool_decide (ds_owner_id r = o))
                               (tag_dictionary_state st) = true).
      { apply existsb_exists. exists row. split; [by apply list_elem_of_In|].
        by apply bool_decide_eq_true. }
      congruence.
    + rewrite List.filter_app. cbn. rewrite bool_decide_true by done. cbn.
      by rewrite app_nil_r.
Qed.

(** X28. The quiet period of the dictionary merge.  After a new label
    has touched the merge state of an owner at time [t], the state of the
    owner is pending, with no error message, and passes the due filter of
    an unforced queue run exactly from [t] plus ten minutes on; a forced run
    takes it at any time.  The states of the other owners are not
    written. *)
Theorem merge_is_due_ten_minutes_after_touch o (t : Z) st :
  o <> [] -> fails MergeStateUpsert = None ->
  let run := touchDictionaryMergeState fails o t st in
  run.2 = Ok ()
  /\ (exists row, row ∈ tag_dictionary_state run.1 /\ ds_owner_id row = o)
  /\ (forall row, row ∈ tag_dictionary_state run.1 -> ds_owner_id row = o ->
        ds_status row = merge_pending /\ ds_error_message row = None
        /\ queueSelects None row = true
        /\ (forall t', isMergeDue false t' row = true <-> t + 10 * 60 * 1000 <= t')
        /\ forall t', isMergeDue true t' row = true)
  /\ List.filter (fun row => negb (bool_decide (ds_owner_id row = o)))
       (tag_dictionary_state run.1)
     = List.filter (fun row => negb (bool_decide (ds_owner_id row = o)))
         (tag_dictionary_state st).
Proof.
  intros Ho Hf run.
  destruct (touchDictionaryMergeState_rows o t st Ho Hf)
    as (Hok & _ & Hex & Hrows & Hother).
  fold run in Hok, Hex, Hrows, Hother.
  split; [exact Hok|]. split; [exact Hex|]. split; [|exact Hother].
  intros row Hrow Hk. rewrite (Hrows row Hrow Hk). split_and!; try done.
  intros t'. unfold isMergeDue. cbn. by rewrite Z.leb_le.
Qed.
End MergeQueueFacts.

Lemma merge_state_witness :
  let run := processMergeState asciiLowerCase noFaults oneGroup (fun _ => Ok ())
               noQueueFaults (minutes 11) queuedMerge queuedLabels in
  run.2 = Ok (teacher, Ok (MergeDone 1 2 1))
  /\ (ds_status <$> tag_dictionary_state run.1) = [merge_idle]
  /\ exists outcome,
       run.2 = Ok (teacher, outcome)
       /\ forall row, row ∈ tag_dictionary_state run.1 -> ds_owner_id row = teacher ->
            match outcome with
            | Ok _ => ds_status row = merge_idle /\ ds_error_message row = None
            | Throw message =>
                ds_status row = merge_failed /\ ds_error_message row = Some message
            end.
Proof.
  cbn zeta. split; [vm_compute; reflexivity|]. split; [vm_compute; reflexivity|].
  destruct (merge_state_ends_idle_or_failed asciiLowerCase noFaults oneGroup
              (fun _ => Ok ()) noQueueFaults (minutes 11) queuedMerge queuedLabels
              eq_refl eq_refl eq_refl) as (outcome & Hrun & _ & Hrows & _).
  exists outcome. split; [exact Hrun|exact Hrows].
Defined.

Lemma merge_is_due_witness :
  let run := touchDictionaryMergeState noFaults teacher (minutes 3) emptyStore in
  teacher <> [] /\ run.2 = Ok ()
  /\ exists row, row ∈ tag_dictionary_state run.1 /\ ds_owner_id row = teacher.
Proof.
  cbn zeta. assert (H : teacher <> []) by discriminate. split; [exact H|].
  destruct (merge_is_due_ten_minutes_after_touch noFaults teacher (minutes 3)
              emptyStore H eq_refl) as (Hok & Hrow & _).
  split; [exact Hok|exact Hrow].
Defined.

(** ** New labels and the merge queue *)
Section NewLabels.
Variable fails : DbCall -> option jsstring.
Implicit Types (o : jsstring) (st : Store).

Lemma fmap_imap_inv {A B} (g : B -> A) (l : list A) (f : nat -> A -> B) :
  (forall i x, g (f i x) = x) -> g <$> imap f l = l.
Proof.
  revert f. induction l as [|x l IH]; intros f Hf; [done|].
  cbn. rewrite Hf. f_equal. apply IH. intros i y. apply Hf.
Qed.

Lemma Forall_imap {A B} (P : B -> Prop) (l : list A) (f : nat -> A -> B) :
  (forall i x, P (f i x)) -> Forall P (imap f l).
Proof.
  revert f. induction l as [|x l IH]; intros f Hf; cbn; constructor.
  - apply Hf.
  - apply IH. intros i y. apply Hf.
Qed.

(** X29. The new labels of a clustering run queue a merge.  When the run
    has labels to add, the labels are inserted in the dictionary of the
    owner as active entries, in their order, the rest of the dictionary
    being kept, and the merge state of the owner is touched: it is pending
    and due ten minutes later.  When the run has no label to add, neither
    table is written. *)
Theorem new_labels_queue_a_merge now o (rows : list (jsstring * jsstring)) st :
  o <> [] ->
  fails AggInsertDictionary = None -> fails MergeStateUpsert = None ->
  let run := insertNewDictionaryRows fails now o rows st in
  match rows with
  | [] => run = (st, Ok ())
  | _ =>
      run.2 = Ok ()
      /\ (exists entries,
            tag_dictionary run.1 = tag_dictionary st ++ entries
            /\ (fun entry => (td_label entry, td_normalized_label entry)) <$> entries
               = rows
            /\ Forall (fun entry => td_owner_id entry = o
                                    /\ td_status entry = active
                                    /\ td_merged_to_tag_id entry = None) entries)
      /\ (exists state, state ∈ tag_dictionary_state run.1
                        /\ ds_owner_id state = o)
      /\ forall state, state ∈ tag_dictionary_state run.1 -> ds_owner_id state = o ->
           ds_status state = merge_pending
           /\ ds_next_run_at state = Some (now + 10 * 60 * 1000)
  end.
Proof.
  intros Ho Hf1 Hf2 run.
  destruct rows as [|row0 rows0]; [done|]. set (rows := row0 :: rows0) in *.
  set (entries := (insertDictionaryRows o now rows st).2).
  set (st1 := (insertDictionaryRows o now rows st).1).
  assert (E : run = touchDictionaryMergeState fails o now st1).
  { subst run. unfold insertNewDictionaryRows. cbn [rows].
    unfold bind at 1. unfold orThrow, dbCall, bind at 1. by rewrite Hf1. }
  rewrite E.
  destruct (touchDictionaryMergeState_rows fails o now st1 Ho Hf2)
    as (Hok & Hdict & Hex & Hrows & _).
  split; [exact Hok|]. split; [|split; [exact Hex|]].
  - exists entries. split; [by rewrite Hdict|]. split.
    + unfold entries, insertDictionaryRows. cbn [snd].
      by apply fmap_imap_inv; intros i [l n].
    + unfold entries, insertDictionaryRows. cbn [snd]. by apply Forall_imap.
  - intros state Hstate Hk. by rewrite (Hrows state Hstate Hk).
Qed.
End NewLabels.

Lemma new_labels_witness :
  let run := insertNewDictionaryRows noFaults (minutes 6) teacher
               [(js "Units", js "units")] emptyStore in
  teacher <> [] /\ run.2 = Ok ()
  /\ exists state, state ∈ tag_dictionary_state run.1 /\ ds_owner_id state = teacher.
Proof.
  cbn zeta. assert (H : teacher <> []) by discriminate. split; [exact H|].
  destruct (new_labels_queue_a_merge noFaults (minutes 6) teacher
              [(js "Units", js "units")] emptyStore H eq_refl eq_refl)
    as (Hok & _ & Hstate & _).
  split; [exact Hok|exact Hstate].
Defined.


(** ** The ability rollup and the other owners *)
Section AbilityRollupOwners.
Variable toLowerCase : jsstring -> jsstring.
Variable num : Type.
Variable num_of_Z : Z -> num.
Variables num_add num_mul : num -> num -> num.
Variable num_isFinite : num -> bool.
Variable Math_round : num -> Z.
Variable abilityFails : AbilityCall -> option jsstring.

Local Abbreviation otherOwner o :=
  (fun old : AbilityAggregate => negb (bool_decide (aa_owner_id old = o))).

Lemma List_filter_idemp {A} (f : A -> bool) (l : list A) :
  List.filter f (List.filter f l) = List.filter f l.
Proof.
  induction l as [|x l IH]; [done|]. cbn. destruct (f x) eqn:E; [|done].
  cbn. by rewrite E, IH.
Qed.

Lemma abilityRollup_rows o now mappingRows tagRows aggRows assignmentRows :
  Forall (fun written => aa_owner_id written = o /\ aa_generated_at written = now
                         /\ 1 <= aa_total_count written)
    (abilityRollup toLowerCase num num_of_Z num_add num_mul num_isFinite
       Math_round o now mappingRows tagRows aggRows assignmentRows).
Proof.
  unfold abilityRollup, abilityRowsOf. apply Forall_fmap, Forall_forall.
  intros entry _. cbn. split; [done|]. split; [done|]. lia.
Qed.

Lemma filter_otherOwner_written o (rows : list AbilityAggregate) :
  Forall (fun written => aa_owner_id written = o) rows ->
  List.filter (otherOwner o) rows = [].
Proof.
  induction 1 as [|row rows Hrow _ IH]; [done|]. cbn.
  by rewrite bool_decide_true.
Qed.

(** X30. The ability rollup of an owner writes the rows of that owner
    only: whatever the database answers, the rows of every other owner are
    after the rollup what they were before.  Without an owner it does
    nothing.  And every row of the owner that the rollup leaves is either a
    row that was there before, which its delete failed to remove, or a row
    it has just written: generated now, with a total of at least 1. *)
Theorem ability_rollup_touches_only_its_owner o now
    (tag_ability_map : list (jsstring * TagAbilityMapping num))
    (dictionary : list TagDictionaryEntry)
    (aggregates : list AssignmentTagAggregate)
    (assignmentRows : list Assignment) (table : list AbilityAggregate) :
  let run := refreshAbilityAggregates toLowerCase num num_of_Z num_add num_mul
               num_isFinite Math_round abilityFails o now tag_ability_map
               dictionary aggregates assignmentRows table in
  List.filter (otherOwner o) run.1 = List.filter (otherOwner o) table
  /\ (o = [] -> run = (table, Ok ()))
  /\ Forall (fun left => aa_owner_id left = o ->
               left ∈ table
               \/ (aa_generated_at left = now /\ 1 <= aa_total_count left))
       run.1.
Proof.
  intros run. subst run. unfold refreshAbilityAggregates.
  destruct (isEmpty o) eqn:Ho.
  { split; [done|]. split; [done|]. apply Forall_forall. auto. }
  split_and!; [| by intros ->|].
  - destruct (abilityFails AbilitySelectMappings); [done|].
    destruct (abilityFails AbilitySelectTags); [done|].
    destruct (abilityFails AbilitySelectAggregates); [done|].
    destruct (abilityFails AbilitySelectAssignments); [done|].
    match goal with
    | |- context [abilityRollup _ _ _ _ _ _ _ o now ?m ?t ?a ?s] =>
        pose proof (abilityRollup_rows o now m t a s) as Hrows;
        destruct (abilityRollup toLowerCase num num_of_Z num_add num_mul
                    num_isFinite Math_round o now m t a s) as [|row rows]
    end.
    + destruct (abilityFails AbilityDelete); [done|]. apply List_filter_idemp.
    + assert (Hnone : List.filter (otherOwner o) (row :: rows) = []).
      { apply filter_otherOwner_written.
        eapply Forall_impl; [exact Hrows|]. by intros ? (? & _). }
      destruct (abilityFails AbilityDelete), (abilityFails AbilityInsert);
        cbn [fst]; rewrite ?List.filter_app, ?Hnone, ?app_nil_r,
          ?List_filter_idemp; done.
  - destruct (abilityFails AbilitySelectMappings);
      [apply Forall_forall; auto|].
    destruct (abilityFails AbilitySelectTags); [apply Forall_forall; auto|].
    destruct (abilityFails AbilitySelectAggregates);
      [apply Forall_forall; auto|].
    destruct (abilityFails AbilitySelectAssignments);
      [apply Forall_forall; auto|].
    match goal with
    | |- context [abilityRollup _ _ _ _ _ _ _ o now ?m ?t ?a ?s] =>
        pose proof (abilityRollup_rows o now m t a s) as Hrows;
        destruct (abilityRollup toLowerCase num num_of_Z num_add num_mul
                    num_isFinite Math_round o now m t a s) as [|row rows]
    end.
    + destruct (abilityFails AbilityDelete); cbn [fst]; apply Forall_forall.
      * auto.
      * intros left [Hin _]%elem_of_List_filter _. by left.
    + assert (Hold : forall l : list AbilityAggregate,
                (forall x, x ∈ l -> x ∈ table) ->
                Forall (fun left => aa_owner_id left = o ->
                          left ∈ table
                          \/ (aa_generated_at left = now
                              /\ 1 <= aa_total_count left))
                  (l ++ row :: rows)).
      { intros l Hl. apply Forall_app. split.
        - apply Forall_forall. intros x Hx _. left. by apply Hl.
        - eapply Forall_impl; [exact Hrows|]. intros x (_ & ? & ?) _. by right. }
      destruct (abilityFails AbilityDelete), (abilityFails AbilityInsert);
        cbn [fst]; try apply Hold; try (apply Forall_forall; intros x Hx _; left);
        try done; try (intros x Hx); by apply elem_of_List_filter in Hx as [? _].
Qed.
End AbilityRollupOwners.
